(** * Steady Navier-Stokes solver: Stokes and incremental (Picard) variants

    A shallow embedding of [src/src/SteadyNavierStokes.cpp],
    [src/src/steady_to_fix/Stokes.cpp], the constants and the two functions
    of [src/include/Incremental_stokes.hpp], and the menu of
    [src/src/main.cpp].

    Numbers.  The program computes with [double]; here a [double] is a real
    number ([R]) and every operation is exact, so rounding, overflow and NaN
    are outside the model.  Indices ([unsigned int]) are [nat].

    Dense objects indexed by integers (tensors, element matrices, global
    vectors and matrices) are functions from their indices, used below an
    explicit size: [Tensor<1,dim>] is [nat -> R] read at [0 .. dim-1],
    [FullMatrix<double>] is [nat -> nat -> R], and so on.

    External collaborators.  Finite-element evaluation ([FEValues],
    [FEFaceValues]), the mesh, the constraint object and the Krylov solver
    belong to deal.II.  What the program reads from them enters as record
    fields; the library operations it calls are the fields of [Library],
    and the few whose behaviour a statement depends on are written out, each
    with a comment naming the library call. *)

From Stdlib Require Import Reals Lra List Arith Lia Bool FunctionalExtensionality.
From Stdlib Require Import Permutation.
From Stdlib Require String DecimalString.
Import ListNotations.

Local Open Scope R_scope.

(* ================================================================== *)
(** ** Loops and accumulators *)

(** [for (k = 0; k < n; ++k) s = body k s]. *)
Fixpoint for_loop {St : Type} (n : nat) (body : nat -> St -> St) (s : St) : St :=
  match n with
  | O => s
  | S k => body k (for_loop k body s)
  end.

(** The value of [acc] after [acc = 0; for (k = 0; k < n; ++k) acc += f k]. *)
Fixpoint Rsum (n : nat) (f : nat -> R) : R :=
  match n with
  | O => 0
  | S k => Rsum k f + f k
  end.

(** A range-for over a container, visiting the elements in order. *)
Definition for_each {A St : Type} (l : list A) (body : A -> St -> St) (s : St) : St :=
  fold_left (fun acc a => body a acc) l s.

Definition Vec := nat -> R.
Definition Mat := nat -> nat -> R.

Definition vec_zero : Vec := fun _ => 0.
Definition mat_zero : Mat := fun _ _ => 0.

(** [v(i) += x]. *)
Definition vec_add (v : Vec) (i : nat) (x : R) : Vec :=
  fun a => if Nat.eqb a i then v a + x else v a.

(** [m(i, j) += x]. *)
Definition mat_add (m : Mat) (i j : nat) (x : R) : Mat :=
  fun a b => if (Nat.eqb a i && Nat.eqb b j)%bool then m a b + x else m a b.

(* ================================================================== *)
(** ** Tensors (deal.II [Tensor<1,dim>] and [Tensor<2,dim>]) *)

Definition Tensor1 := nat -> R.
Definition Tensor2 := nat -> nat -> R.

Section TensorOps.
Variable dim : nat.

(** [a * b] on two rank-1 tensors: the dot product.  Also
    [scalar_product(a, b)] at rank 1. *)
Definition dot (a b : Tensor1) : R := Rsum dim (fun k => a k * b k).

(** [scalar_product(A, B)] at rank 2: the double contraction. *)
Definition scalar_product (A B : Tensor2) : R :=
  Rsum dim (fun k => Rsum dim (fun l => A k l * B k l)).

(** [transpose(A)]. *)
Definition transpose (A : Tensor2) : Tensor2 := fun k l => A l k.

(** [a * A], rank 1 times rank 2: the index of [a] is contracted with the
    first index of [A]. *)
Definition contract (a : Tensor1) (A : Tensor2) : Tensor1 :=
  fun k => Rsum dim (fun l => a l * A l k).

(** The convective form [(a . grad w) . b], written with indices, where
    [G k l] is the derivative of component [k] of [w] along direction [l]. *)
Definition convective (a : Tensor1) (G : Tensor2) (b : Tensor1) : R :=
  Rsum dim (fun k => Rsum dim (fun l => a l * G k l) * b k).
End TensorOps.

(* ================================================================== *)
(** ** What the program reads from the mesh and the finite element *)

(** [FEValues] after [reinit(cell)]: shape function [i] at quadrature
    point [q]. *)
Record FEValues := {
  JxW : nat -> R;
  velocity_value : nat -> nat -> Tensor1;      (* fe_values[velocity].value(i, q) *)
  velocity_gradient : nat -> nat -> Tensor2;   (* fe_values[velocity].gradient(i, q) *)
  velocity_divergence : nat -> nat -> R;       (* fe_values[velocity].divergence(i, q) *)
  pressure_value : nat -> nat -> R;            (* fe_values[pressure].value(i, q) *)
  forcing : nat -> Tensor1                     (* forcing_term at quadrature_point(q) *)
}.

(** [FEFaceValues] after [reinit(cell, f)]. *)
Record FEFaceValues := {
  face_JxW : nat -> R;
  normal_vector : nat -> Tensor1;
  face_velocity_value : nat -> nat -> Tensor1  (* fe_face_values[velocity].value(i, q) *)
}.

Record Face := {
  face_at_boundary : bool;
  boundary_id : nat;
  fe_face_values : FEFaceValues
}.

Record Cell := {
  is_locally_owned : bool;
  at_boundary : bool;
  faces : list Face;
  fe_values : FEValues;
  dof_indices : nat -> nat                     (* cell->get_dof_indices *)
}.

(** The sizes fixed by [setup()] and the two physical constants the
    assembly reads.  [p_out] is a member of the class; the header that
    declares it for the templated classes is not part of the sources at
    hand, so it is a field here.  [Incremental_stokes.hpp] declares it
    as [0], see [Incremental_stokes_hpp.p_out]. *)
Record Problem := {
  dim : nat;
  dofs_per_cell : nat;
  n_q : nat;
  n_q_face : nat;
  n_u : nat;                                   (* dofs_per_block[0] *)
  n_p : nat;                                   (* dofs_per_block[1] *)
  nu : R;
  p_out : R
}.

(** Number of unknowns, the [size()] of every global vector. *)
Definition n_dofs (P : Problem) : nat := (n_u P + n_p P)%nat.

(** One MPI process: its rank, the active cells it iterates over, and the
    index set on which its ghosted vectors ([solution], and [new_res], which
    is [reinit] from it) hold a value: the locally owned unknowns and the
    ghost ones.  [non_local_element v k] is what the process finds when it
    reads entry [k] of the ghosted vector [v] without holding it, see
    [IncrementalStokes.el]. *)
Record Worker := {
  mpi_rank : nat;
  cells : list Cell;
  locally_owned_dofs : nat -> bool;
  locally_relevant_dofs : nat -> bool;
  non_local_element : Vec -> nat -> R
}.

(** Dirichlet data as [VectorTools::interpolate_boundary_values] returns
    it: constrained degree of freedom and prescribed value. *)
Definition BoundaryValues := list (nat * R).

(** The run: the processes and the Dirichlet data interpolated from the
    boundary functions (inlet profile on tag 0, zero on tags 2 and 3). *)
Record World := {
  workers : list Worker;
  dirichlet : BoundaryValues
}.

(** Boundary tags as the comments of [SteadyNavierStokes.cpp] name them. *)
Module Tag.
Definition inlet : nat := 0.
Definition outlet : nat := 1.
Definition walls : nat := 2.
Definition obstacle : nat := 3.
End Tag.

(** Constants of [src/include/Incremental_stokes.hpp]. *)
Module Incremental_stokes_hpp.
Definition maxIter : nat := 10.
Definition update_tol : R := 1 / 10000000.
Definition p_out : R := 0.
End Incremental_stokes_hpp.

(* ================================================================== *)
(** ** The Neumann face loop, shared by the three [assemble] bodies *)

Section FaceLoop.
Variable P : Problem.

(** The innermost two loops, over face quadrature points and shape
    functions:
    [rhs(i) += -(p_out) * scalar_product(normal_vector(q), value(i, q)) * JxW(q)]. *)
Definition neumann_face (fv : FEFaceValues) (rhs : Vec) : Vec :=
  for_loop (n_q_face P) (fun q rhs =>
    for_loop (dofs_per_cell P) (fun i rhs =>
      vec_add rhs i
        (- (p_out P)
         * dot (dim P) (normal_vector fv q) (face_velocity_value fv i q)
         * face_JxW fv q)) rhs) rhs.

(** [if (cell->at_boundary()) for (f ...) if (face(f)->at_boundary() &&
    face(f)->boundary_id() == id) { ... }]. *)
Definition neumann_loop (id : nat) (c : Cell) (rhs : Vec) : Vec :=
  if at_boundary c then
    for_each (faces c) (fun f rhs =>
      if (face_at_boundary f && Nat.eqb (boundary_id f) id)%bool
      then neumann_face (fe_face_values f) rhs
      else rhs) rhs
  else rhs.
End FaceLoop.

(* ================================================================== *)
(** ** Global insertion and constraints *)

(** The distributed system of one class instance: the two matrices and the
    right-hand side, indexed by global degree of freedom.  Velocity
    unknowns come first ([DoFRenumbering::component_wise]), so the
    pressure block is the index range from [n_u] on. *)
Record System := {
  system_matrix : Mat;
  system_rhs : Vec;
  pressure_mass : Mat
}.

(** [m.block(r, c)] of a two-by-two block matrix. *)
Definition block (P : Problem) (m : Mat) (r c : nat) : Mat :=
  fun i j => m (r * n_u P + i)%nat (c * n_u P + j)%nat.

(** [matrix.add(dof_indices, cell_matrix)]: every entry of the element
    matrix is added at its global position. *)
Definition matrix_add (n : nat) (dof : nat -> nat) (cm : Mat) (m : Mat) : Mat :=
  for_loop n (fun i m =>
    for_loop n (fun j m => mat_add m (dof i) (dof j) (cm i j)) m) m.

(** [vector.add(dof_indices, cell_rhs)]. *)
Definition vector_add (n : nat) (dof : nat -> nat) (cv : Vec) (v : Vec) : Vec :=
  for_loop n (fun i v => vec_add v (dof i) (cv i)) v.

Fixpoint lookup (bv : BoundaryValues) (k : nat) : option R :=
  match bv with
  | [] => None
  | (d, g) :: rest => if Nat.eqb d k then Some g else lookup rest k
  end.

Definition is_constrained (bv : BoundaryValues) (k : nat) : bool :=
  match lookup bv k with Some _ => true | None => false end.

(** [constraints.set_zero(v)]: constrained entries become zero. *)
Definition set_zero (cs : BoundaryValues) (v : Vec) : Vec :=
  fun k => if is_constrained cs k then 0 else v k.

(** [constraints.distribute(v)]: constrained entries take their prescribed
    value (the constraints built in [setup()] are Dirichlet values, with no
    dependence on other unknowns). *)
Definition distribute (cs : BoundaryValues) (v : Vec) : Vec :=
  fun k => match lookup cs k with Some g => g | None => v k end.

(** [v.l2_norm()] of a global vector. *)
Definition l2_norm (n : nat) (v : Vec) : R := sqrt (Rsum n (fun k => v k * v k)).

(** The preconditioner handed to the Krylov solver. *)
Inductive Preconditioner :=
| PreconditionIdentity
| PreconditionBlockTriangularStokes (velocity_stiffness pressure_mass_block B : Mat).

(** Library operations the program calls and whose bodies are not its own.
    - [apply_boundary_values bv m x b eliminate_columns] is
      [MatrixTools::apply_boundary_values];
    - [distribute_local_to_global cs n lm lr dof (m, b)] is
      [AffineConstraints::distribute_local_to_global] for an element with
      [n] unknowns;
    - [krylov m x0 b pc k] is the state of the GMRES iteration after [k]
      steps on the system [m x = b] started at [x0]: the iterate and the
      norm of its residual, the value the solver hands to its
      [SolverControl];
    - [point_value rank sol p] is [VectorTools::point_value] on the process
      [rank] at point of interest number [p]: the solution components
      there, or [None] when the call throws [ExcPointNotAvailableHere]. *)
Record Library := {
  apply_boundary_values :
    BoundaryValues -> Mat -> Vec -> Vec -> bool -> Mat * Vec * Vec;
  distribute_local_to_global :
    BoundaryValues -> nat -> Mat -> Vec -> (nat -> nat) -> Mat * Vec -> Mat * Vec;
  krylov : Mat -> Vec -> Vec -> Preconditioner -> nat -> Vec * R;
  point_value : nat -> Vec -> nat -> option (nat -> R)
}.

(** The plain insertion: what [distribute_local_to_global] does on an
    element none of whose unknowns is constrained. *)
Definition insert_unconstrained
    (cs : BoundaryValues) (n : nat) (lm : Mat) (lr : Vec) (dof : nat -> nat)
    (s : Mat * Vec) : Mat * Vec :=
  (matrix_add n dof lm (fst s), vector_add n dof lr (snd s)).

(* ================================================================== *)
(** ** Exceptions and the solver control *)

Inductive Exn :=
| NoConvergence (last_step : nat) (last_residual : R).

Inductive Outcome (A : Type) :=
| Returned (a : A)
| Thrown (e : Exn).
Arguments Returned {A} a.
Arguments Thrown {A} e.

Definition bind {A B : Type} (c : Outcome A) (k : A -> Outcome B) : Outcome B :=
  match c with
  | Returned a => k a
  | Thrown e => Thrown e
  end.

Notation "x <- c ;; k" := (bind c (fun x => k))
  (at level 61, c at next level, right associativity).

Definition map_outcome {A B : Type} (f : A -> B) (c : Outcome A) : Outcome B :=
  match c with
  | Returned a => Returned (f a)
  | Thrown e => Thrown e
  end.

(** [SolverControl(max_steps, tolerance)] and the states of its [check]. *)
Record SolverControl := {
  max_steps : nat;
  tolerance : R
}.

Inductive SolverState := iterate | success | failure.

(** deal.II's [SolverControl::check(step, check_value)]: success once the
    residual is within the tolerance, failure once the step budget is
    used up, otherwise go on. *)
Definition check (c : SolverControl) (step : nat) (check_value : R) : SolverState :=
  if Rle_dec check_value (tolerance c) then success
  else if Nat.leb (max_steps c) step then failure
  else iterate.

(** deal.II's [SolverGMRES::solve]: the control is consulted after every
    step; the solver leaves its loop when the state is no longer [iterate]
    and raises [SolverControl::NoConvergence] unless that state is
    [success].  [budget] counts the steps still allowed. *)
Fixpoint gmres_from (c : SolverControl) (it : nat -> Vec * R)
    (budget step : nat) : Outcome (Vec * nat) :=
  match check c step (snd (it step)) with
  | success => Returned (fst (it step), step)
  | failure => Thrown (NoConvergence step (snd (it step)))
  | iterate =>
      match budget with
      | O => Thrown (NoConvergence step (snd (it step)))
      | S b => gmres_from c it b (S step)
      end
  end.

Definition SolverGMRES_solve (c : SolverControl) (it : nat -> Vec * R)
  : Outcome (Vec * nat) :=
  gmres_from c it (max_steps c) 0.

(* ================================================================== *)
(** ** The members of a problem instance *)

(** Lines the program prints that carry a computed value. *)
Inductive Line :=
| RhsNorm (iteration : nat) (value : R)
| GmresIterations (steps : nat)
| UpdateNorm (value : R)
| IterationCompleted (iteration : nat).

Record State := {
  iter : nat;
  sys : System;
  solution_owned : Vec;
  solution : Vec;
  solution_old : Vec;
  new_res : Vec;
  cout : list Line
}.

Definition with_sys (st : State) (g : System) : State :=
  {| iter := iter st; sys := g; solution_owned := solution_owned st;
     solution := solution st; solution_old := solution_old st;
     new_res := new_res st; cout := cout st |}.

Definition with_iter (st : State) (i : nat) : State :=
  {| iter := i; sys := sys st; solution_owned := solution_owned st;
     solution := solution st; solution_old := solution_old st;
     new_res := new_res st; cout := cout st |}.

Definition with_solution_owned (st : State) (x : Vec) : State :=
  {| iter := iter st; sys := sys st; solution_owned := x;
     solution := solution st; solution_old := solution_old st;
     new_res := new_res st; cout := cout st |}.

Definition with_solution (st : State) (x : Vec) : State :=
  {| iter := iter st; sys := sys st; solution_owned := solution_owned st;
     solution := x; solution_old := solution_old st;
     new_res := new_res st; cout := cout st |}.

Definition with_solution_old (st : State) (x : Vec) : State :=
  {| iter := iter st; sys := sys st; solution_owned := solution_owned st;
     solution := solution st; solution_old := x;
     new_res := new_res st; cout := cout st |}.

Definition with_new_res (st : State) (x : Vec) : State :=
  {| iter := iter st; sys := sys st; solution_owned := solution_owned st;
     solution := solution st; solution_old := solution_old st;
     new_res := x; cout := cout st |}.

Definition with_pressure_mass (st : State) (pm : Mat) : State :=
  with_sys st {| system_matrix := system_matrix (sys st);
                 system_rhs := system_rhs (sys st);
                 pressure_mass := pm |}.

(** [std::cout << ...]: the line is appended to what was printed so far. *)
Definition print (st : State) (l : Line) : State :=
  {| iter := iter st; sys := sys st; solution_owned := solution_owned st;
     solution := solution st; solution_old := solution_old st;
     new_res := new_res st; cout := cout st ++ [l] |}.

(* ================================================================== *)
(** ** [Stokes<dim>] *)

Record CellSystem := {
  cell_matrix : Mat;
  cell_pressure_mass_matrix : Mat;
  cell_rhs : Vec
}.

Definition cell_zero : CellSystem :=
  {| cell_matrix := mat_zero;
     cell_pressure_mass_matrix := mat_zero;
     cell_rhs := vec_zero |}.

Definition zero_system : System :=
  {| system_matrix := mat_zero; system_rhs := vec_zero; pressure_mass := mat_zero |}.

Module Stokes.
Section Methods.
Variable P : Problem.

(** The body of the [j] loop at quadrature point [q] and row [i]. *)
Definition entry (fe : FEValues) (q i j : nat) (s : CellSystem) : CellSystem :=
  let m := cell_matrix s in
  let m := mat_add m i j
             (nu P
              * scalar_product (dim P) (velocity_gradient fe i q)
                                       (velocity_gradient fe j q)
              * JxW fe q) in
  let m := mat_add m i j
             (- (velocity_divergence fe i q * pressure_value fe j q * JxW fe q)) in
  let m := mat_add m i j
             (- (velocity_divergence fe j q * pressure_value fe i q * JxW fe q)) in
  let pm := mat_add (cell_pressure_mass_matrix s) i j
             (pressure_value fe i q * pressure_value fe j q / nu P * JxW fe q) in
  {| cell_matrix := m; cell_pressure_mass_matrix := pm; cell_rhs := cell_rhs s |}.

(** The body of the [i] loop: the [j] loop, then the forcing term. *)
Definition row (fe : FEValues) (q i : nat) (s : CellSystem) : CellSystem :=
  let s := for_loop (dofs_per_cell P) (entry fe q i) s in
  {| cell_matrix := cell_matrix s;
     cell_pressure_mass_matrix := cell_pressure_mass_matrix s;
     cell_rhs := vec_add (cell_rhs s) i
                   (dot (dim P) (forcing fe q) (velocity_value fe i q) * JxW fe q) |}.

(** The quadrature loop of one element, from zeroed element arrays. *)
Definition volume (fe : FEValues) : CellSystem :=
  for_loop (n_q P) (fun q s => for_loop (dofs_per_cell P) (row fe q) s) cell_zero.

(** Everything computed on one element before insertion; [id] is the
    boundary tag of the Neumann test. *)
Definition element (id : nat) (c : Cell) : CellSystem :=
  let s := volume (fe_values c) in
  {| cell_matrix := cell_matrix s;
     cell_pressure_mass_matrix := cell_pressure_mass_matrix s;
     cell_rhs := neumann_loop P id c (cell_rhs s) |}.

(** One pass of the loop over the active cells of a worker; [elem] is
    the computation of the element arrays. *)
Definition cell_step (elem : Cell -> CellSystem) (c : Cell) (g : System) : System :=
  if negb (is_locally_owned c) then g
  else
    let s := elem c in
    {| system_matrix := matrix_add (dofs_per_cell P) (dof_indices c) (cell_matrix s)
                          (system_matrix g);
       system_rhs := vector_add (dofs_per_cell P) (dof_indices c) (cell_rhs s)
                          (system_rhs g);
       pressure_mass := matrix_add (dofs_per_cell P) (dof_indices c)
                          (cell_pressure_mass_matrix s) (pressure_mass g) |}.

(** The three objects are zeroed, every worker runs its cell loop, and
    [compress(VectorOperation::add)] sums the contributions of all
    workers into the distributed objects. *)
Definition cell_loops (elem : Cell -> CellSystem) (W : World) : System :=
  for_each (workers W)
    (fun w g => for_each (cells w) (cell_step elem) g) zero_system.

(** Cell loops, then the Dirichlet values. *)
Definition assemble_with (elem : Cell -> CellSystem)
    (L : Library) (W : World) (st : State) : State :=
  let g := cell_loops elem W in
  let '(m, x, b) :=
    apply_boundary_values L (dirichlet W) (system_matrix g) (solution_owned st)
                          (system_rhs g) false in
  with_solution_owned
    (with_sys st {| system_matrix := m; system_rhs := b;
                    pressure_mass := pressure_mass g |}) x.

(** [Stokes<dim>::assemble()]: the Neumann test reads
    [boundary_id() == 1]. *)
Definition assemble := assemble_with (element 1).

(** [SolverControl solver_control(2000, 1e-6 * system_rhs.l2_norm())]. *)
Definition solver_control (st : State) : SolverControl :=
  {| max_steps := 2000;
     tolerance := 1 / 1000000 * l2_norm (n_dofs P) (system_rhs (sys st)) |}.

(** The block-triangular preconditioner is built from the velocity block
    and the coupling block of the system matrix and from the
    pressure-pressure block of [pressure_mass]. *)
Definition preconditioner (st : State) : Preconditioner :=
  PreconditionBlockTriangularStokes
    (block P (system_matrix (sys st)) 0 0)
    (block P (pressure_mass (sys st)) 1 1)
    (block P (system_matrix (sys st)) 1 0).

(** The GMRES iteration that [solver.solve(system_matrix, solution_owned,
    system_rhs, preconditioner)] runs. *)
Definition iterates (L : Library) (st : State) : nat -> Vec * R :=
  krylov L (system_matrix (sys st)) (solution_owned st) (system_rhs (sys st))
         (preconditioner st).

(** [Stokes<dim>::solve()]. *)
Definition solve (L : Library) (st : State) : Outcome State :=
  r <- SolverGMRES_solve (solver_control st) (iterates L st) ;;
  let st := with_solution_owned st (fst r) in
  let st := print st (GmresIterations (snd r)) in
  Returned (with_solution st (solution_owned st)).
End Methods.
End Stokes.

(** [Stokes::assemble()] of [steady_to_fix/Stokes.cpp]: the same element
    loops; the Neumann test reads [boundary_id() == 2]. *)
Module SteadyToFix.
Definition assemble (P : Problem) := Stokes.assemble_with P (Stokes.element P 2).
End SteadyToFix.

(* ================================================================== *)
(** ** [IncrementalStokes<dim>] *)

Record LocalSystem := {
  local_matrix : Mat;
  local_rhs : Vec
}.

Definition local_zero : LocalSystem :=
  {| local_matrix := mat_zero; local_rhs := vec_zero |}.

(** [MPI_Allreduce(..., MPI_SUM, ...)] and [MPI_Reduce(..., MPI_MAX, ...)]
    on one [double] per process, the processes listed by rank. *)
Definition MPI_SUM (l : list R) : R := fold_left Rplus l 0.

Definition MPI_MAX (l : list R) : R :=
  match l with
  | [] => 0
  | x :: rest => fold_left Rmax rest x
  end.

Module IncrementalStokes.
Section Methods.
Variable P : Problem.

(** [fe_values[u_k].get_function_values(solution_old, ...)] and
    [get_function_gradients]: the finite element function with
    coefficient vector [u], at quadrature point [q]. *)
Definition get_function_values (c : Cell) (u : Vec) (q : nat) : Tensor1 :=
  fun k => Rsum (dofs_per_cell P)
             (fun i => u (dof_indices c i) * velocity_value (fe_values c) i q k).

Definition get_function_gradients (c : Cell) (u : Vec) (q : nat) : Tensor2 :=
  fun k l => Rsum (dofs_per_cell P)
               (fun i => u (dof_indices c i) * velocity_gradient (fe_values c) i q k l).

(** The body of the [j] loop.  [pv] and [pg] are
    [previous_velocity_values[q]] and [previous_velocity_gradients[q]]. *)
Definition entry (fe : FEValues) (pv : Tensor1) (pg : Tensor2)
    (q i j : nat) (m : Mat) : Mat :=
  let m := mat_add m i j
             (nu P
              * scalar_product (dim P) (velocity_gradient fe i q)
                                       (velocity_gradient fe j q)
              * JxW fe q) in
  let m := mat_add m i j
             (dot (dim P)
                  (contract (dim P) (velocity_value fe j q) (transpose pg))
                  (velocity_value fe i q)
              * JxW fe q) in
  let m := mat_add m i j
             (dot (dim P)
                  (contract (dim P) pv (transpose (velocity_gradient fe j q)))
                  (velocity_value fe i q)
              * JxW fe q) in
  let m := mat_add m i j
             (- (pressure_value fe j q * velocity_divergence fe i q * JxW fe q)) in
  mat_add m i j
             (- (pressure_value fe i q * velocity_divergence fe j q * JxW fe q)).

(** The body of the [i] loop: the [j] loop, then the right-hand side. *)
Definition row (fe : FEValues) (pv : Tensor1) (pg : Tensor2)
    (q i : nat) (s : LocalSystem) : LocalSystem :=
  {| local_matrix := for_loop (dofs_per_cell P) (entry fe pv pg q i) (local_matrix s);
     local_rhs := vec_add (local_rhs s) i
                    (dot (dim P) (contract (dim P) pv (transpose pg))
                                 (velocity_value fe i q)
                     * JxW fe q) |}.

(** The quadrature loop of one element, from zeroed element arrays. *)
Definition volume (c : Cell) (u_old : Vec) : LocalSystem :=
  for_loop (n_q P)
    (fun q s =>
       for_loop (dofs_per_cell P)
         (row (fe_values c) (get_function_values c u_old q)
              (get_function_gradients c u_old q) q) s)
    local_zero.

(** Everything computed on one element before insertion: the Neumann
    test reads [boundary_id() == 2]. *)
Definition element (c : Cell) (u_old : Vec) : LocalSystem :=
  let s := volume c u_old in
  {| local_matrix := local_matrix s;
     local_rhs := neumann_loop P 2 c (local_rhs s) |}.

(** One pass of the loop over the active cells of a worker; [elem] is
    the computation of the element arrays. *)
Definition cell_step (elem : Cell -> Vec -> LocalSystem)
    (L : Library) (cs : BoundaryValues) (u_old : Vec)
    (c : Cell) (g : Mat * Vec) : Mat * Vec :=
  if negb (is_locally_owned c) then g
  else
    let s := elem c u_old in
    distribute_local_to_global L cs (dofs_per_cell P)
      (local_matrix s) (local_rhs s) (dof_indices c) g.

(** [system_matrix] and [system_rhs] are zeroed and rebuilt from the cell
    loops of all workers; [pressure_mass] is not mentioned. *)
Definition assemble_with (elem : Cell -> Vec -> LocalSystem)
    (L : Library) (W : World) (st : State) : State :=
  let g := for_each (workers W)
             (fun w g => for_each (cells w)
                           (cell_step elem L (dirichlet W) (solution_old st)) g)
             (mat_zero, vec_zero) in
  with_sys st {| system_matrix := fst g; system_rhs := snd g;
                 pressure_mass := pressure_mass (sys st) |}.

(** [IncrementalStokes<dim>::assemble()]. *)
Definition assemble := assemble_with element.

(** [new_res(k)] on one process, the library's checked element access
    (not its [el()], which would give [0.0]): the stored value where the
    process holds one.  On an index the process does not hold, the access
    is an error of the caller: a build with the library's assertions stops
    there, and an optimised build reads outside the local array.  What
    such a read finds is not the program's to choose; it is the field
    [non_local_element] of the process, about which nothing is assumed. *)
Definition el (w : Worker) (v : Vec) (k : nat) : R :=
  if locally_relevant_dofs w k then v k else non_local_element w v k.

(** [local_sum] after the loop [for (k = 0; k < new_res.size(); ++k)]. *)
Definition local_sum (w : Worker) (v : Vec) : R :=
  for_loop (n_dofs P) (fun k s => s + el w v k * el w v k) 0.

(** [update_norm = std::sqrt(global_sum)] after the all-reduce. *)
Definition measure (W : World) (v : Vec) : R :=
  sqrt (MPI_SUM (map (fun w => local_sum w v) (workers W))).

(** The two members that control the loop, with the values
    [Incremental_stokes.hpp] gives them. *)
Definition maxIter : nat := Incremental_stokes_hpp.maxIter.
Definition update_tol : R := Incremental_stokes_hpp.update_tol.

(** [SolverControl solver_control(2'000'000, 1e-4)]. *)
Definition solver_control : SolverControl :=
  {| max_steps := 2000 * 1000; tolerance := 1 / 10000 |}.

(** The GMRES iteration of one pass: identity preconditioner, started at
    [solution_owned] zeroed on the constrained unknowns. *)
Definition iterates (L : Library) (W : World) (st : State) : nat -> Vec * R :=
  krylov L (system_matrix (sys st)) (set_zero (dirichlet W) (solution_owned st))
         (system_rhs (sys st)) PreconditionIdentity.

(** The linear solve of one pass: the guess is zeroed on the constrained
    unknowns, GMRES runs, the Dirichlet values are put back, and the result
    is copied to the ghosted vector. *)
Definition linear_solve (L : Library) (W : World) (st : State) : Outcome State :=
  let st := with_solution_owned st (set_zero (dirichlet W) (solution_owned st)) in
  r <- SolverGMRES_solve solver_control
         (krylov L (system_matrix (sys st)) (solution_owned st)
                   (system_rhs (sys st)) PreconditionIdentity) ;;
  let st := with_solution_owned st (fst r) in
  let st := with_solution_owned st (distribute (dirichlet W) (solution_owned st)) in
  let st := print st (GmresIterations (snd r)) in
  Returned (with_solution st (solution_owned st)).

(** The update [new_res = solution - solution_old]
    ([new_res = solution; new_res.sadd(1.0, -1.0, solution_old)]), its
    norm, and the copy of the iterate into [solution_old]. *)
Definition measure_update (W : World) (st : State) : State * R :=
  let st := with_new_res st (solution st) in
  let st := with_new_res st (fun k => 1 * new_res st k + (-1) * solution_old st k) in
  let update_norm := measure W (new_res st) in
  let st := print st (UpdateNorm update_norm) in
  let st := with_solution_old st (solution st) in
  let st := print st (IterationCompleted (iter st)) in
  (st, update_norm).

(** [assemble()] and the line that prints the norm of the right-hand
    side. *)
Definition assemble_and_report (L : Library) (W : World) (st : State) : State :=
  let st := assemble L W st in
  print st (RhsNorm (iter st) (l2_norm (n_dofs P) (system_rhs (sys st)))).

(** The body of the [for] loop of [solve()].  The flag tells whether the
    body left through a [break]. *)
Definition iteration (L : Library) (W : World) (st : State)
  : Outcome (State * bool) :=
  let st := assemble_and_report L W st in
  let update_norm := update_tol + 1 in
  if Rlt_dec update_norm update_tol then Returned (st, true)
  else
    st <- linear_solve L W st ;;
    let m := measure_update W st in
    let st := fst m in
    let update_norm := snd m in
    if Rlt_dec update_norm update_tol then Returned (st, true)
    else Returned (st, false).

(** [for (...; iter < maxIter; ++iter)] with [remaining = maxIter - iter]
    passes still allowed by the loop test. *)
Fixpoint iterations (L : Library) (W : World) (remaining : nat) (st : State)
  : Outcome State :=
  match remaining with
  | O => Returned st
  | S r =>
      b <- iteration L W st ;;
      if snd b then Returned (fst b)
      else iterations L W r (with_iter (fst b) (S (iter (fst b))))
  end.

(** [IncrementalStokes<dim>::solve()]. *)
Definition solve (L : Library) (W : World) (st : State) : Outcome State :=
  iterations L W maxIter (with_iter st 0).

(** The point-pressure part of [compute_lift_drag()]: what one process
    contributes for point of interest [p] ... *)
Definition pres_point (L : Library) (st : State) (w : Worker) (p : nat) : R :=
  match point_value L (mpi_rank w) (solution st) p with
  | Some solution_values => solution_values (dim P)
  | None => 0
  end.

(** ... and what the [MPI_MAX] reduction leaves on rank 0. *)
Definition global_pres_point (L : Library) (W : World) (st : State) (p : nat) : R :=
  MPI_MAX (map (fun w => pres_point L st w p) (workers W)).

Definition p_diff (L : Library) (W : World) (st : State) : R :=
  global_pres_point L W st 0 - global_pres_point L W st 1.
End Methods.
End IncrementalStokes.

(* ================================================================== *)
(** ** The weak form, as the design document writes it *)

Section WeakForm.
Variable P : Problem.

(** What the incremental variant integrates for the matrix entry
    [(i, j)] at quadrature point [q]: viscous term, the two convective
    terms [(v_j . grad u_old) . v_i] and [(u_old . grad v_j) . v_i] of the
    linearisation about the previous iterate, and the two
    pressure-velocity couplings. *)
Definition picard_matrix_integrand (c : Cell) (u_old : Vec) (q i j : nat) : R :=
  let fe := fe_values c in
  nu P * scalar_product (dim P) (velocity_gradient fe i q) (velocity_gradient fe j q)
  + convective (dim P) (velocity_value fe j q)
               (IncrementalStokes.get_function_gradients P c u_old q)
               (velocity_value fe i q)
  + convective (dim P) (IncrementalStokes.get_function_values P c u_old q)
               (velocity_gradient fe j q)
               (velocity_value fe i q)
  - pressure_value fe j q * velocity_divergence fe i q
  - pressure_value fe i q * velocity_divergence fe j q.

(** The frozen convective term [(u_old . grad u_old) . v_i] of the
    right-hand side. *)
Definition picard_rhs_integrand (c : Cell) (u_old : Vec) (q i : nat) : R :=
  convective (dim P) (IncrementalStokes.get_function_values P c u_old q)
             (IncrementalStokes.get_function_gradients P c u_old q)
             (velocity_value (fe_values c) i q).

(** What the Stokes variant integrates for the matrix entry [(i, j)]:
    viscous term and the two pressure-velocity couplings. *)
Definition stokes_matrix_integrand (fe : FEValues) (q i j : nat) : R :=
  nu P * scalar_product (dim P) (velocity_gradient fe i q) (velocity_gradient fe j q)
  - velocity_divergence fe i q * pressure_value fe j q
  - velocity_divergence fe j q * pressure_value fe i q.

(** The Neumann term [-p_out (n . v_i)] integrated over one face. *)
Definition neumann_integral (fv : FEFaceValues) (i : nat) : R :=
  Rsum (n_q_face P) (fun q =>
    - p_out P * dot (dim P) (normal_vector fv q) (face_velocity_value fv i q)
    * face_JxW fv q).

(** The Neumann terms of the boundary faces of a list that carry the
    tag [id]. *)
Fixpoint neumann_total (id : nat) (fs : list Face) (i : nat) : R :=
  match fs with
  | [] => 0
  | f :: rest =>
      (if (face_at_boundary f && Nat.eqb (boundary_id f) id)%bool
       then neumann_integral (fe_face_values f) i else 0)
      + neumann_total id rest i
  end.

(** The entry [(1/nu) (p_i, p_j)] of the pressure mass matrix on one
    element. *)
Definition pressure_mass_entry (fe : FEValues) (i j : nat) : R :=
  Rsum (n_q P) (fun q => 1 / nu P * (pressure_value fe i q * pressure_value fe j q)
                         * JxW fe q).
End WeakForm.

(** The update norms among the printed lines, in the order printed. *)
Fixpoint update_norms (l : list Line) : list R :=
  match l with
  | [] => []
  | UpdateNorm v :: rest => v :: update_norms rest
  | _ :: rest => update_norms rest
  end.

(** The two ways a run of the Picard loop that printed the update norms
    [norms] can have ended in state [s]: through the [break] after the norm
    test, or through the loop test [iter < maxIter]. *)
Definition stopped_by_norm (s : State) (norms : list R) : Prop :=
  (iter s < IncrementalStokes.maxIter)%nat
  /\ norms <> []
  /\ (iter s + 1 = length norms)%nat
  /\ last norms 0 < IncrementalStokes.update_tol
  /\ Forall (fun v => ~ v < IncrementalStokes.update_tol) (removelast norms).

Definition stopped_by_cap (s : State) (norms : list R) : Prop :=
  iter s = IncrementalStokes.maxIter
  /\ length norms = IncrementalStokes.maxIter
  /\ Forall (fun v => ~ v < IncrementalStokes.update_tol) norms.

(** Number of processes whose ghosted vectors hold unknown [k]. *)
Definition holders (W : World) (k : nat) : nat :=
  length (filter (fun w => locally_relevant_dofs w k) (workers W)).

(** Every process holds every unknown, so that the loop over
    [k < new_res.size()] reads no entry outside what the process holds. *)
Definition holds_every_unknown (P : Problem) (W : World) : Prop :=
  forall w k, In w (workers W) -> (k < n_dofs P)%nat ->
    locally_relevant_dofs w k = true.

(** The norms the MEASURE step computes along a run: [previous] is the
    previous iterate at the start, [currents] the iterates the passes
    produce one after the other; each pass measures current - previous and
    then takes its current iterate as the previous one of the next pass. *)
Fixpoint update_measures (P : Problem) (W : World) (previous : Vec)
    (currents : list Vec) : list R :=
  match currents with
  | [] => []
  | current :: rest =>
      IncrementalStokes.measure P W (fun k => current k - previous k)
      :: update_measures P W current rest
  end.

(* ================================================================== *)
(** ** Structure of the mixed space and of the library calls *)

Section Structure.
Variable P : Problem.

(** [pressure_dof i]: local unknown [i] of the [FESystem] belongs to the
    pressure component. *)
Variable pressure_dof : nat -> bool.

(** The element is primitive: a pressure shape function has no velocity
    part and a velocity shape function has no pressure part. *)
Definition primitive (fe : FEValues) : Prop :=
  forall i q, (i < dofs_per_cell P)%nat ->
    (pressure_dof i = true ->
       (forall k, (k < dim P)%nat -> velocity_value fe i q k = 0)
       /\ (forall k l, (k < dim P)%nat -> (l < dim P)%nat ->
              velocity_gradient fe i q k l = 0)
       /\ velocity_divergence fe i q = 0)
    /\ (pressure_dof i = false -> pressure_value fe i q = 0).

(** The global numbering is block-wise: a local pressure unknown is sent
    into the pressure block, a local velocity unknown into the velocity
    block. *)
Definition block_consistent (c : Cell) : Prop :=
  forall i, (i < dofs_per_cell P)%nat ->
    (pressure_dof i = true <-> (n_u P <= dof_indices c i)%nat).

Definition mixed_space (W : World) : Prop :=
  forall w c, In w (workers W) -> In c (cells w) ->
    primitive (fe_values c) /\ block_consistent c.

(** The Dirichlet data constrains velocity unknowns only (the component
    mask of [interpolate_boundary_values] leaves the pressure out). *)
Definition velocity_only (bv : BoundaryValues) : Prop :=
  forall k, (n_u P <= k)%nat -> is_constrained bv k = false.
End Structure.

(** [apply_boundary_values] leaves the rows of unconstrained unknowns as
    they are (columns are not eliminated: the last argument is [false]). *)
Definition keeps_free_rows (L : Library) : Prop :=
  forall bv m x b r c,
    is_constrained bv r = false ->
    fst (fst (apply_boundary_values L bv m x b false)) r c = m r c.

(** [distribute_local_to_global] inserts plainly wherever neither the row
    nor the column is constrained. *)
Definition inserts_free_entries (L : Library) : Prop :=
  forall cs n lm lr dof g a b,
    is_constrained cs a = false -> is_constrained cs b = false ->
    fst (distribute_local_to_global L cs n lm lr dof g) a b
    = matrix_add n dof lm (fst g) a b.




(* ================================================================== *)
(** ** A small instance *)

(** One space dimension, one velocity and one pressure unknown per element
    (local unknown 0 is the velocity, 1 the pressure), one quadrature
    point per element and per face. *)
Definition sample_problem (p : R) : Problem :=
  {| dim := 1; dofs_per_cell := 2; n_q := 1; n_q_face := 1;
     n_u := 1; n_p := 1; nu := 1; p_out := p |}.

Definition sample_pressure_dof (i : nat) : bool := Nat.eqb i 1.

Definition sample_fe : FEValues :=
  {| JxW := fun _ => 1;
     velocity_value := fun i _ _ => if Nat.eqb i 0 then 1 else 0;
     velocity_gradient := fun i _ _ _ => if Nat.eqb i 0 then 1 else 0;
     velocity_divergence := fun i _ => if Nat.eqb i 0 then 1 else 0;
     pressure_value := fun i _ => if Nat.eqb i 1 then 1 else 0;
     forcing := fun _ _ => 0 |}.

(** Face values with [n . v = 1] for the velocity unknown and weight [w]. *)
Definition sample_face_values (w : R) : FEFaceValues :=
  {| face_JxW := fun _ => w;
     normal_vector := fun _ _ => 1;
     face_velocity_value := fun i _ _ => if Nat.eqb i 0 then 1 else 0 |}.

Definition walls_face : Face :=
  {| face_at_boundary := true; boundary_id := Tag.walls;
     fe_face_values := sample_face_values 1 |}.

Definition outlet_face : Face :=
  {| face_at_boundary := true; boundary_id := Tag.outlet;
     fe_face_values := sample_face_values 2 |}.

(** An element touching both the wall and the outlet. *)
Definition corner_cell : Cell :=
  {| is_locally_owned := true; at_boundary := true;
     faces := [walls_face; outlet_face];
     fe_values := sample_fe;
     dof_indices := fun i => i |}.

(** A library instance: identity rows for Dirichlet unknowns, plain
    insertion, a Krylov iteration [kr], and a point evaluation that only
    the process [holder] can do. *)
Definition sample_library (kr : nat -> Vec * R) (holder : nat) : Library :=
  {| apply_boundary_values := fun bv m x b _ =>
       (fun r c => if is_constrained bv r then (if Nat.eqb r c then 1 else 0) else m r c,
        distribute bv x,
        distribute bv b);
     distribute_local_to_global := insert_unconstrained;
     krylov := fun _ _ _ _ => kr;
     point_value := fun rank sol _ =>
       if Nat.eqb rank holder then Some sol else None |}.

Definition sample_worker (rank : nat) (cs : list Cell) (owned relevant : nat -> bool)
  : Worker :=
  {| mpi_rank := rank; cells := cs;
     locally_owned_dofs := owned; locally_relevant_dofs := relevant;
     non_local_element := fun _ _ => 0 |}.

(** One process holding the corner element, no Dirichlet unknown. *)
Definition sample_world : World :=
  {| workers := [sample_worker 0 [corner_cell] (fun _ => true) (fun _ => true)];
     dirichlet := [] |}.

Definition sample_state (u : Vec) : State :=
  {| iter := 0; sys := zero_system; solution_owned := u; solution := u;
     solution_old := u; new_res := vec_zero; cout := [] |}.

(** A Krylov iteration that has converged from the start, and one that
    makes no progress, with residual norm [1] at every step. *)
Definition converged : nat -> Vec * R := fun _ => (vec_zero, 0).
Definition stalled : nat -> Vec * R := fun _ => (vec_zero, 1).

(** A state whose system no vector solves: the matrix is zero and the
    right-hand side is the first unit vector, so the residual of every
    vector has norm [1], which is what [stalled] reports. *)
Definition unit_rhs : Vec := fun k => if Nat.eqb k 0 then 1 else 0.

Definition singular_state : State :=
  {| iter := 0;
     sys := {| system_matrix := mat_zero; system_rhs := unit_rhs;
               pressure_mass := mat_zero |};
     solution_owned := vec_zero; solution := vec_zero;
     solution_old := vec_zero; new_res := vec_zero; cout := [] |}.

(** Two processes, two unknowns: each process owns one unknown and holds
    the other one as a ghost. *)
Definition two_process_world : World :=
  {| workers := [sample_worker 0 [] (fun k => Nat.eqb k 0) (fun _ => true);
                 sample_worker 1 [] (fun k => Nat.eqb k 1) (fun _ => true)];
     dirichlet := [] |}.

(** The update [(3, 4)]. *)
Definition three_four : Vec := fun k => if Nat.eqb k 0 then 3 else 4.

(** A solution whose pressure component (index [dim = 1]) is [-1]. *)
Definition negative_pressure : Vec := fun k => if Nat.eqb k 1 then -1 else 0.

(* ================================================================== *)
(** ** The cells of a run *)

(** The active cells of all processes, process after process, and those a
    cell loop does not skip. *)
Definition all_cells (W : World) : list Cell := flat_map cells (workers W).

Definition owned_cells (W : World) : list Cell :=
  filter is_locally_owned (all_cells W).

(* ================================================================== *)
(** ** The functions of [Incremental_stokes.hpp] *)

(** [values[i] = x]. *)
Definition vec_set (v : Vec) (i : nat) (x : R) : Vec :=
  fun a => if Nat.eqb a i then x else v a.

Module ForcingTerm.
(** [vector_value(p, values)]: [for (i = 0; i < dim; ++i) values[i] = 0.0]. *)
Definition vector_value (dim : nat) (p : nat -> R) (values : Vec) : Vec :=
  for_loop dim (fun i values => vec_set values i 0) values.

(** [value(p, component)]. *)
Definition value (p : nat -> R) (component : nat) : R := 0.
End ForcingTerm.

Module InletVelocity.
Definition uM : R := 3 / 10.

(** [vector_value(p, values)]: the parabolic profile in the first
    component, then [for (i = 1; i < dim + 1; ++i) values[i] = 0.0]. *)
Definition vector_value (dim : nat) (H : R) (p : nat -> R) (values : Vec) : Vec :=
  let values := vec_set values 0 (4 * uM * p 1%nat * (H - p 1%nat) / (H * H)) in
  for_loop dim (fun i values => vec_set values (S i) 0) values.

(** [value(p, component)]. *)
Definition value (H : R) (p : nat -> R) (component : nat) : R :=
  if Nat.eqb component 0 then 4 * uM * p 1%nat * (H - p 1%nat) / (H * H)
  else 0.
End InletVelocity.

(* ================================================================== *)
(** ** The coupling tables of the two [setup()] *)

Inductive Coupling := none | always.

Definition Table := nat -> nat -> option Coupling.

(** [Table<2, DoFTools::Coupling> coupling(dim + 1, dim + 1)], no entry
    assigned yet. *)
Definition empty_table : Table := fun _ _ => None.

(** [coupling[c][d] = x]. *)
Definition table_set (t : Table) (c d : nat) (x : Coupling) : Table :=
  fun a b => if (Nat.eqb a c && Nat.eqb b d)%bool then Some x else t a b.

Module Setup.
(** The first pair of loops of [Stokes<dim>::setup()]: the pattern of the
    system matrix. *)
Definition stokes_system_coupling (dim : nat) (t : Table) : Table :=
  for_loop (dim + 1) (fun c t =>
    for_loop (dim + 1) (fun d t =>
      if (Nat.eqb c dim && Nat.eqb d dim)%bool
      then table_set t c d none
      else table_set t c d always) t) t.

(** The second pair of loops, in both [setup()]: the pattern of the
    pressure mass matrix, written into the same table. *)
Definition pressure_mass_coupling (dim : nat) (t : Table) : Table :=
  for_loop (dim + 1) (fun c t =>
    for_loop (dim + 1) (fun d t =>
      if (Nat.eqb c dim && Nat.eqb d dim)%bool
      then table_set t c d always
      else table_set t c d none) t) t.

(** The first pair of loops of [IncrementalStokes<dim>::setup()]. *)
Definition incremental_system_coupling (dim : nat) (t : Table) : Table :=
  for_loop (dim + 1) (fun c t =>
    for_loop (dim + 1) (fun d t => table_set t c d always) t) t.
End Setup.

(* ================================================================== *)
(** ** The force integral of [compute_lift_drag()] *)

(** The [FEFaceValues] object local to [compute_lift_drag()] after
    [reinit(cell, f)]: weights, normals, and the velocity gradient and
    pressure value of shape function [i] at face quadrature point [q]. *)
Record ForceFaceValues := {
  force_JxW : nat -> R;
  force_normal_vector : nat -> Tensor1;
  force_velocity_gradient : nat -> nat -> Tensor2;
  force_pressure_value : nat -> nat -> R
}.

(** What the integral reads besides the mesh and the solution:
    [face_quadrature_formula.size()], the member [scaling_factor], and the
    library's [reinit(cell, f)]. *)
Record ForceSetup := {
  n_q_points : nat;
  scaling_factor : R;
  force_reinit : Cell -> nat -> ForceFaceValues
}.

(** [A * n], rank 2 times rank 1: the second index of [A] is contracted
    with the index of [n]. *)
Definition apply_tensor (dim : nat) (A : Tensor2) (n : Tensor1) : Tensor1 :=
  fun k => Rsum dim (fun l => A k l * n l).

(** The faces of a cell with their number [f], as [cell->face(f)] for
    [f < cell->n_faces()] visits them. *)
Definition numbered_faces (c : Cell) : list (nat * Face) :=
  combine (seq 0 (length (faces c))) (faces c).

Module LiftDrag.
Section Methods.
Variable P : Problem.
Variable F : ForceSetup.

(** [get_function_gradients(solution, velocity_gradients)] and
    [get_function_values(solution, pressure_values)] on the face. *)
Definition velocity_gradients (c : Cell) (fv : ForceFaceValues) (u : Vec) (q : nat)
  : Tensor2 :=
  fun k l => Rsum (dofs_per_cell P)
               (fun i => u (dof_indices c i) * force_velocity_gradient fv i q k l).

Definition pressure_values (c : Cell) (fv : ForceFaceValues) (u : Vec) (q : nat) : R :=
  Rsum (dofs_per_cell P) (fun i => u (dof_indices c i) * force_pressure_value fv i q).

(** The body of the quadrature loop; the accumulators are
    [(local_drag, local_lift)]. *)
Definition point (c : Cell) (fv : ForceFaceValues) (u : Vec) (q : nat) (acc : R * R)
  : R * R :=
  let normal_vector : Tensor1 := fun k => - force_normal_vector fv q k in
  let fluid_pressure : Tensor2 :=
    fun k l => if (Nat.eqb k l && Nat.ltb k (dim P))%bool
               then pressure_values c fv u q else 0 in
  let fluid_stress : Tensor2 :=
    fun k l => nu P * velocity_gradients c fv u q k l - fluid_pressure k l in
  let forces : Tensor1 :=
    fun k => apply_tensor (dim P) fluid_stress normal_vector k * force_JxW fv q in
  (fst acc + scaling_factor F * forces 0%nat,
   snd acc + scaling_factor F * forces 1%nat).

(** The body of the face loop: only boundary faces tagged [3], the
    obstacle, are integrated. *)
Definition face (c : Cell) (u : Vec) (nf : nat * Face) (acc : R * R) : R * R :=
  if negb (face_at_boundary (snd nf)) then acc
  else if Nat.eqb (boundary_id (snd nf)) 3
       then for_loop (n_q_points F) (point c (force_reinit F c (fst nf)) u) acc
       else acc.

(** The body of the cell loop. *)
Definition cell (u : Vec) (c : Cell) (acc : R * R) : R * R :=
  if negb (is_locally_owned c) then acc
  else if negb (at_boundary c) then acc
  else for_each (numbered_faces c) (face c u) acc.

(** [(local_drag, local_lift)] of one process. *)
Definition local_forces (cs : list Cell) (u : Vec) : R * R :=
  for_each cs (cell u) (0, 0).

(** [(total_drag, total_lift)] on rank 0, after the two [MPI_Reduce] with
    [MPI_SUM]. *)
Definition total_forces (W : World) (st : State) : R * R :=
  (MPI_SUM (map (fun w => fst (local_forces (cells w) (solution st))) (workers W)),
   MPI_SUM (map (fun w => snd (local_forces (cells w) (solution st))) (workers W))).
End Methods.
End LiftDrag.

(** More cells for the small instance: an owned element away from the
    boundary, and the corner element seen from a process that does not own
    it. *)
Definition inner_cell : Cell :=
  {| is_locally_owned := true; at_boundary := false; faces := [];
     fe_values := sample_fe; dof_indices := fun i => i |}.

Definition ghost_corner_cell : Cell :=
  {| is_locally_owned := false; at_boundary := true;
     faces := [walls_face; outlet_face];
     fe_values := sample_fe; dof_indices := fun i => i |}.

(** The same two owned elements on one process, and split between two
    processes that each see the other's element as a ghost. *)
Definition one_process_world : World :=
  {| workers := [sample_worker 0 [corner_cell; inner_cell] (fun _ => true) (fun _ => true)];
     dirichlet := [] |}.

Definition split_world : World :=
  {| workers := [sample_worker 0 [inner_cell; ghost_corner_cell]
                   (fun k => Nat.eqb k 0) (fun _ => true);
                 sample_worker 1 [corner_cell]
                   (fun k => Nat.eqb k 1) (fun _ => true)];
     dirichlet := [] |}.

(** The small instance with the velocity unknown prescribed to [1]. *)
Definition inlet_world : World :=
  {| workers := [sample_worker 0 [corner_cell] (fun _ => true) (fun _ => true)];
     dirichlet := [(0%nat, 1)] |}.

(* ================================================================== *)
(** ** The force on the obstacle, as a surface integral *)

(** The sum of [f] over the elements of a list. *)
Definition Rlist_sum {A : Type} (l : list A) (f : A -> R) : R :=
  fold_right (fun a s => f a + s) 0 l.

Section Traction.
Variable P : Problem.
Variable F : ForceSetup.

(** Component [k] of [p n - nu grad(u) n], [n] being the normal the
    library hands out (outward from the fluid), integrated over face
    number [fst nf] of the cell [c] and scaled. *)
Definition face_force (c : Cell) (u : Vec) (k : nat) (nf : nat * Face) : R :=
  let fv := force_reinit F c (fst nf) in
  Rsum (n_q_points F) (fun q =>
    scaling_factor F
    * ((LiftDrag.pressure_values P c fv u q * force_normal_vector fv q k
        - nu P * apply_tensor (dim P) (LiftDrag.velocity_gradients P c fv u q)
                   (force_normal_vector fv q) k)
       * force_JxW fv q)).

(** The same over the obstacle faces of an owned boundary cell. *)
Definition obstacle_force (u : Vec) (k : nat) (c : Cell) : R :=
  if (is_locally_owned c && at_boundary c)%bool
  then Rlist_sum (numbered_faces c) (fun nf =>
         if (face_at_boundary (snd nf)
             && Nat.eqb (boundary_id (snd nf)) Tag.obstacle)%bool
         then face_force c u k nf else 0)
  else 0.
End Traction.

(** A plane instance for the force integral: two velocity unknowns and one
    pressure unknown per element, an element with one face on the
    obstacle, whose normal is the first unit vector. *)
Definition plane_problem : Problem :=
  {| dim := 2; dofs_per_cell := 3; n_q := 1; n_q_face := 1;
     n_u := 2; n_p := 1; nu := 1; p_out := 0 |}.

Definition obstacle_face : Face :=
  {| face_at_boundary := true; boundary_id := Tag.obstacle;
     fe_face_values := sample_face_values 1 |}.

Definition obstacle_cell : Cell :=
  {| is_locally_owned := true; at_boundary := true;
     faces := [walls_face; obstacle_face];
     fe_values := sample_fe; dof_indices := fun i => i |}.

Definition plane_force_values : ForceFaceValues :=
  {| force_JxW := fun _ => 1;
     force_normal_vector := fun _ k => if Nat.eqb k 0 then 1 else 0;
     force_velocity_gradient := fun i _ k l =>
       if (Nat.eqb i k && Nat.eqb l 0 && Nat.ltb i 2)%bool then 1 else 0;
     force_pressure_value := fun i _ => if Nat.eqb i 2 then 1 else 0 |}.

Definition plane_force_setup : ForceSetup :=
  {| n_q_points := 1; scaling_factor := 20;
     force_reinit := fun _ _ => plane_force_values |}.

Definition obstacle_world : World :=
  {| workers := [sample_worker 0 [obstacle_cell; inner_cell]
                   (fun _ => true) (fun _ => true)];
     dirichlet := [] |}.

Definition obstacle_split_world : World :=
  {| workers := [sample_worker 0 [inner_cell] (fun _ => true) (fun _ => true);
                 sample_worker 1 [obstacle_cell] (fun _ => true) (fun _ => true)];
     dirichlet := [] |}.

(* ================================================================== *)
(** ** The output directories *)

Module Filesystem.
Import Stdlib.Strings.String.

(** A path below the working directory, component by component, and what
    the names refer to. *)
Definition Path := list string.

Inductive Kind := regular_file | directory.

Definition Files := Path -> option Kind.

Definition path_eqb (p q : Path) : bool :=
  if list_eq_dec string_dec p q then true else false.

(** [fs::exists(p)]. *)
Definition exists_ (f : Files) (p : Path) : bool :=
  match f p with Some _ => true | None => false end.

Definition parent_path (p : Path) : Path := removelast p.

(** [p] names a directory; the working directory always does. *)
Definition is_directory (f : Files) (p : Path) : bool :=
  match p with
  | [] => true
  | _ => match f p with Some directory => true | _ => false end
  end.

(** [fs::create_directory(p)]: makes the directory inside an existing
    directory, does nothing when [p] is a directory already, and raises
    [filesystem_error], here [None], in the other cases. *)
Definition create_directory (f : Files) (p : Path) : option Files :=
  match f p with
  | Some directory => Some f
  | Some regular_file => None
  | None =>
      if is_directory f (parent_path p)
      then Some (fun q => if path_eqb q p then Some directory else f q)
      else None
  end.

(** [if (!fs::exists(p)) fs::create_directory(p);]. *)
Definition ensure (p : Path) (f : Files) : option Files :=
  if exists_ f p then Some f else create_directory f p.

Definition and_then {A B : Type} (c : option A) (k : A -> option B) : option B :=
  match c with Some a => k a | None => None end.

(** [std::to_string] of an [int]. *)
Definition to_string (n : Z) : string :=
  DecimalString.NilZero.string_of_int (Z.to_int n).

(** [Stokes<dim>::get_output_directory()]; [Re] is
    [static_cast<int>(this->Re)]. *)
Definition Stokes_get_output_directory (Re : Z) (f : Files)
  : option (Files * Path) :=
  and_then (ensure ["outputs"%string] f) (fun f =>
  and_then (ensure ["outputs"; "SteadyNavierStokes"]%string f) (fun f =>
  and_then (ensure ["outputs"; "SteadyNavierStokes"; "Stokes"]%string f) (fun f =>
  let sub_dir_name := ("outputs_reynolds_" ++ to_string Re)%string in
  let sub_dir_path :=
    (["outputs"; "SteadyNavierStokes"; "Stokes"]%string ++ [sub_dir_name])%list in
  and_then (ensure sub_dir_path f) (fun f =>
  Some (f, sub_dir_path))))).

(** [IncrementalStokes<dim>::get_output_directory()]. *)
Definition IncrementalStokes_get_output_directory (Re : Z) (f : Files)
  : option (Files * Path) :=
  and_then (ensure ["outputs"%string] f) (fun f =>
  and_then (ensure ["outputs"; "SteadyNavierStokes"]%string f) (fun f =>
  and_then (ensure ["outputs"; "SteadyNavierStokes"; "IncrementalStokes"]%string f)
    (fun f =>
  let sub_dir_name := ("outputs_reynolds_" ++ to_string Re)%string in
  let sub_dir_path :=
    (["outputs"; "SteadyNavierStokes"; "IncrementalStokes"]%string
     ++ [sub_dir_name])%list in
  and_then (ensure sub_dir_path f) (fun f =>
  Some (f, sub_dir_path))))).

(** Either of the two, and the directories it goes through: the three
    above the one it returns, and that one. *)
Definition get_output_directory (incremental : bool) :=
  if incremental then IncrementalStokes_get_output_directory
  else Stokes_get_output_directory.

Definition class_name (incremental : bool) : string :=
  if incremental then "IncrementalStokes"%string else "Stokes"%string.

Definition ancestors (incremental : bool) : list Path :=
  [["outputs"%string];
   ["outputs"; "SteadyNavierStokes"]%string;
   ["outputs"%string; "SteadyNavierStokes"%string; class_name incremental]].

Definition sub_dir_path (incremental : bool) (Re : Z) : Path :=
  ["outputs"%string; "SteadyNavierStokes"%string; class_name incremental;
   ("outputs_reynolds_" ++ to_string Re)%string].

(** Every name refers to something inside a directory. *)
Definition well_formed (f : Files) : Prop :=
  forall q, f q <> None -> is_directory f (parent_path q) = true.

(** The steps of either function, one after the other. *)
Definition ensure_all (ps : list Path) (f : Files) : option Files :=
  fold_left (fun acc p => and_then acc (ensure p)) ps (Some f).

(** A list of paths each of which lies directly inside the one before it,
    the first one inside [d]. *)
Fixpoint chain (d : Path) (ps : list Path) : Prop :=
  match ps with
  | [] => True
  | p :: rest => p <> [] /\ parent_path p = d /\ chain p rest
  end.

(** An empty working directory, and one where [outputs] is a regular
    file. *)
Definition empty_files : Files := fun _ => None.

Definition blocked_files : Files :=
  fun q => if path_eqb q ["outputs"%string] then Some regular_file else None.
End Filesystem.

(* ================================================================== *)
(** ** The menu of [main()] *)

Module Menu.
(** What [std::cin >> choice] meets next: the digits of an integer, or a
    token that is not one. *)
Inductive Token := number (z : Z) | garbage.

(** The state of [std::cin]: its fail bit and what is left to read. *)
Record Cin := {
  fail : bool;
  pending : list Token
}.

Definition INT_MIN : Z := (- 2147483648)%Z.
Definition INT_MAX : Z := 2147483647%Z.

(** [std::cin >> choice], the library's formatted extraction of an [int].
    On a stream that has failed, or at the end of the input, nothing is
    stored; a token that is not an integer stores [0]; an integer outside
    the range of [int] stores the nearest bound.  In each of these cases
    the fail bit is set, and nothing in [main()] clears it. *)
Definition extract (cin : Cin) (choice : Z) : Cin * Z :=
  if fail cin then (cin, choice)
  else
    match pending cin with
    | [] => ({| fail := true; pending := [] |}, choice)
    | garbage :: rest => ({| fail := true; pending := garbage :: rest |}, 0%Z)
    | number z :: rest =>
        if (z <? INT_MIN)%Z then ({| fail := true; pending := rest |}, INT_MIN)
        else if (INT_MAX <? z)%Z then ({| fail := true; pending := rest |}, INT_MAX)
        else ({| fail := false; pending := rest |}, z)
    end.

(** [choice < 1 || choice > 8]. *)
Definition invalid (choice : Z) : bool := ((choice <? 1)%Z || (8 <? choice)%Z)%bool.

(** The [while] loop on rank 0.  [choice] is declared without an
    initial value, so the loop starts from whatever the variable holds;
    [printed] counts the lines [Invalid choice. Please enter a valid
    choice: ].  [fuel] bounds the number of loop tests; [None] means the
    loop is still running when the fuel is used up. *)
Fixpoint menu (fuel : nat) (cin : Cin) (choice : Z) (printed : nat)
  : option (Z * Cin * nat) :=
  match fuel with
  | O => None
  | S fuel =>
      if invalid choice then
        let '(cin, choice) := extract cin choice in
        let printed := if invalid choice then S printed else printed in
        menu fuel cin choice printed
      else Some (choice, cin, printed)
  end.

(** The input has no valid choice before the point where the extraction
    fails: integers in the range of [int] that are not choices, then the
    end of the input, a token that is not an integer, or an integer out of
    range. *)
Fixpoint hopeless (l : list Token) : bool :=
  match l with
  | [] => true
  | garbage :: _ => true
  | number z :: rest =>
      ((z <? INT_MIN)%Z || (INT_MAX <? z)%Z || (invalid z && hopeless rest))%bool
  end.
End Menu.

(* ================================================================== *)
(** ** An instance with a fixed point *)








(** The corner element on the second of two processes, the first seeing it
    as a ghost; and a state whose previous iterate agrees with [three_four]
    on the two unknowns of that element only, and whose solution is
    another vector. *)
Definition split_corner_world : World :=
  {| workers := [sample_worker 0 [ghost_corner_cell] (fun _ => true) (fun _ => true);
                 sample_worker 1 [corner_cell] (fun _ => true) (fun _ => true)];
     dirichlet := [] |}.

Definition other_state : State :=
  {| iter := 3; sys := zero_system; solution_owned := vec_zero; solution := vec_zero;
     solution_old := fun k => if Nat.ltb k 2 then three_four k else 7;
     new_res := vec_zero; cout := [] |}.

(* ================================================================== *)
(** * Properties *)

(** ** Sums and loops *)

Lemma Rsum_ext (n : nat) (f g : nat -> R) :
  (forall k, (k < n)%nat -> f k = g k) -> Rsum n f = Rsum n g.
Proof.
  induction n as [|n IH]; intros E; simpl; [reflexivity|].
  rewrite IH, (E n) by (intros; try apply E; lia). reflexivity.
Qed.

Lemma Rsum_zero (n : nat) (f : nat -> R) :
  (forall k, (k < n)%nat -> f k = 0) -> Rsum n f = 0.
Proof.
  induction n as [|n IH]; intros E; simpl; [reflexivity|].
  rewrite IH, (E n) by (intros; try apply E; lia). lra.
Qed.

Lemma Rsum_plus (n : nat) (f g : nat -> R) :
  Rsum n (fun k => f k + g k) = Rsum n f + Rsum n g.
Proof. induction n as [|n IH]; simpl; [|rewrite IH]; lra. Qed.

(** A sum that picks one index. *)
Lemma Rsum_pick (n a : nat) (f : nat -> R) :
  Rsum n (fun k => if Nat.eqb a k then f k else 0)
  = if Nat.ltb a n then f a else 0.
Proof.
  induction n as [|n IH]; simpl; [reflexivity|].
  rewrite IH.
  destruct (Nat.eqb_spec a n) as [->|Hne].
  - rewrite Nat.ltb_irrefl.
    replace (n <? S n)%nat with true by (symmetry; apply Nat.ltb_lt; lia). lra.
  - destruct (Nat.ltb_spec a n), (Nat.ltb_spec a (S n)); try lia; lra.
Qed.

(** A loop whose body adds an increment to every entry adds the sum of the
    increments. *)
Lemma for_loop_vec_acc (n : nat) (body : nat -> Vec -> Vec) (inc : nat -> nat -> R) :
  (forall k v a, body k v a = v a + inc k a) ->
  forall v a, for_loop n body v a = v a + Rsum n (fun k => inc k a).
Proof.
  intros Hb v a. induction n as [|n IH]; simpl; [lra|].
  rewrite Hb, IH. lra.
Qed.

Lemma for_loop_mat_acc (n : nat) (body : nat -> Mat -> Mat) (inc : nat -> nat -> nat -> R) :
  (forall k m a b, body k m a b = m a b + inc k a b) ->
  forall m a b, for_loop n body m a b = m a b + Rsum n (fun k => inc k a b).
Proof.
  intros Hb m a b. induction n as [|n IH]; simpl; [lra|].
  rewrite Hb, IH. lra.
Qed.

(** A loop seen through a projection of its state. *)
Lemma for_loop_proj {St T : Type} (proj : St -> T) (n : nat)
    (body : nat -> St -> St) (body' : nat -> T -> T) :
  (forall k s, proj (body k s) = body' k (proj s)) ->
  forall s, proj (for_loop n body s) = for_loop n body' (proj s).
Proof.
  intros Hb s. induction n as [|n IH]; simpl; [reflexivity|].
  rewrite Hb, IH. reflexivity.
Qed.

Lemma vec_add_at (v : Vec) (i : nat) (x : R) (a : nat) :
  vec_add v i x a = v a + (if Nat.eqb a i then x else 0).
Proof. unfold vec_add. destruct (Nat.eqb a i); lra. Qed.

Lemma mat_add_at (m : Mat) (i j : nat) (x : R) (a b : nat) :
  mat_add m i j x a b = m a b + (if (Nat.eqb a i && Nat.eqb b j)%bool then x else 0).
Proof. unfold mat_add. destruct (Nat.eqb a i && Nat.eqb b j)%bool; lra. Qed.

(** [matrix.add], entry by entry. *)
Lemma matrix_add_at (n : nat) (dof : nat -> nat) (cm m : Mat) (a b : nat) :
  matrix_add n dof cm m a b
  = m a b + Rsum n (fun i => Rsum n (fun j =>
      if (Nat.eqb a (dof i) && Nat.eqb b (dof j))%bool then cm i j else 0)).
Proof.
  unfold matrix_add.
  apply (for_loop_mat_acc n _ (fun i a b => Rsum n (fun j =>
      if (Nat.eqb a (dof i) && Nat.eqb b (dof j))%bool then cm i j else 0))).
  intros i m' a' b'.
  apply (for_loop_mat_acc n _ (fun j a b =>
      if (Nat.eqb a (dof i) && Nat.eqb b (dof j))%bool then cm i j else 0)).
  intros. apply mat_add_at.
Qed.

Lemma vector_add_at (n : nat) (dof : nat -> nat) (cv v : Vec) (a : nat) :
  vector_add n dof cv v a
  = v a + Rsum n (fun i => if Nat.eqb a (dof i) then cv i else 0).
Proof.
  unfold vector_add.
  apply (for_loop_vec_acc n _ (fun i a => if Nat.eqb a (dof i) then cv i else 0)).
  intros. apply vec_add_at.
Qed.

Lemma Rsum_pick2 (n a b : nat) (f : nat -> nat -> R) :
  (a < n)%nat -> (b < n)%nat ->
  Rsum n (fun i => Rsum n (fun j =>
    if (Nat.eqb a i && Nat.eqb b j)%bool then f i j else 0)) = f a b.
Proof.
  intros Ha Hb.
  rewrite (Rsum_ext n _ (fun i => if Nat.eqb a i then f i b else 0)).
  - rewrite Rsum_pick.
    replace (a <? n)%nat with true by (symmetry; apply Nat.ltb_lt; exact Ha).
    reflexivity.
  - intros i _. destruct (Nat.eqb a i); simpl.
    + rewrite Rsum_pick.
      replace (b <? n)%nat with true by (symmetry; apply Nat.ltb_lt; exact Hb).
      reflexivity.
    + apply Rsum_zero. reflexivity.
Qed.

(** ** The element loops of the incremental variant *)

Section IncrementalElement.
Variable P : Problem.
Variable c : Cell.
Variable u_old : Vec.

Let fe := fe_values c.
Let pv := IncrementalStokes.get_function_values P c u_old.
Let pg := IncrementalStokes.get_function_gradients P c u_old.

Lemma contract_transpose (a : Tensor1) (G : Tensor2) (b : Tensor1) :
  dot (dim P) (contract (dim P) a (transpose G)) b = convective (dim P) a G b.
Proof. reflexivity. Qed.

Lemma incremental_entry_at (q i j : nat) (m : Mat) (a b : nat) :
  IncrementalStokes.entry P fe (pv q) (pg q) q i j m a b
  = m a b + (if (Nat.eqb a i && Nat.eqb b j)%bool
             then picard_matrix_integrand P c u_old q i j * JxW fe q else 0).
Proof.
  unfold IncrementalStokes.entry, picard_matrix_integrand.
  rewrite !mat_add_at, !contract_transpose. fold fe pv pg.
  destruct (Nat.eqb a i && Nat.eqb b j)%bool; unfold pv, pg; lra.
Qed.

Lemma incremental_volume_matrix :
  local_matrix (IncrementalStokes.volume P c u_old)
  = for_loop (n_q P) (fun q m =>
      for_loop (dofs_per_cell P) (fun i m =>
        for_loop (dofs_per_cell P)
          (IncrementalStokes.entry P fe (pv q) (pg q) q i) m) m) mat_zero.
Proof.
  unfold IncrementalStokes.volume.
  rewrite (for_loop_proj local_matrix (n_q P) _
    (fun q m => for_loop (dofs_per_cell P) (fun i m =>
       for_loop (dofs_per_cell P)
         (IncrementalStokes.entry P fe (pv q) (pg q) q i) m) m)).
  - reflexivity.
  - intros q s.
    apply (for_loop_proj local_matrix (dofs_per_cell P)). reflexivity.
Qed.

Lemma incremental_volume_rhs :
  local_rhs (IncrementalStokes.volume P c u_old)
  = for_loop (n_q P) (fun q v =>
      for_loop (dofs_per_cell P) (fun i v =>
        vec_add v i (picard_rhs_integrand P c u_old q i * JxW fe q)) v) vec_zero.
Proof.
  unfold IncrementalStokes.volume.
  rewrite (for_loop_proj local_rhs (n_q P) _
    (fun q v => for_loop (dofs_per_cell P) (fun i v =>
       vec_add v i (picard_rhs_integrand P c u_old q i * JxW fe q)) v)).
  - reflexivity.
  - intros q s.
    apply (for_loop_proj local_rhs (dofs_per_cell P)). reflexivity.
Qed.

Lemma incremental_matrix_entry (i j : nat) :
  (i < dofs_per_cell P)%nat -> (j < dofs_per_cell P)%nat ->
  local_matrix (IncrementalStokes.volume P c u_old) i j
  = Rsum (n_q P) (fun q => picard_matrix_integrand P c u_old q i j * JxW fe q).
Proof.
  intros Hi Hj. rewrite incremental_volume_matrix.
  rewrite (for_loop_mat_acc (n_q P) _ (fun q a b =>
    Rsum (dofs_per_cell P) (fun i' => Rsum (dofs_per_cell P) (fun j' =>
      if (Nat.eqb a i' && Nat.eqb b j')%bool
      then picard_matrix_integrand P c u_old q i' j' * JxW fe q else 0)))).
  - unfold mat_zero. rewrite Rplus_0_l. apply Rsum_ext. intros q _.
    apply (Rsum_pick2 (dofs_per_cell P) i j
             (fun i' j' => picard_matrix_integrand P c u_old q i' j' * JxW fe q));
      assumption.
  - intros q m a b.
    apply (for_loop_mat_acc (dofs_per_cell P) _ (fun i' a b =>
      Rsum (dofs_per_cell P) (fun j' =>
        if (Nat.eqb a i' && Nat.eqb b j')%bool
        then picard_matrix_integrand P c u_old q i' j' * JxW fe q else 0))).
    intros i' m' a' b'.
    apply (for_loop_mat_acc (dofs_per_cell P) _ (fun j' a b =>
        if (Nat.eqb a i' && Nat.eqb b j')%bool
        then picard_matrix_integrand P c u_old q i' j' * JxW fe q else 0)).
    intros. apply incremental_entry_at.
Qed.

Lemma incremental_rhs_entry (i : nat) :
  (i < dofs_per_cell P)%nat ->
  local_rhs (IncrementalStokes.volume P c u_old) i
  = Rsum (n_q P) (fun q => picard_rhs_integrand P c u_old q i * JxW fe q).
Proof.
  intros Hi. rewrite incremental_volume_rhs.
  rewrite (for_loop_vec_acc (n_q P) _ (fun q a =>
    Rsum (dofs_per_cell P) (fun i' =>
      if Nat.eqb a i' then picard_rhs_integrand P c u_old q i' * JxW fe q else 0))).
  - unfold vec_zero. rewrite Rplus_0_l. apply Rsum_ext. intros q _.
    rewrite Rsum_pick.
    replace (i <? dofs_per_cell P)%nat with true
      by (symmetry; apply Nat.ltb_lt; exact Hi).
    reflexivity.
  - intros q v a.
    apply (for_loop_vec_acc (dofs_per_cell P) _ (fun i' a =>
      if Nat.eqb a i' then picard_rhs_integrand P c u_old q i' * JxW fe q else 0)).
    intros. apply vec_add_at.
Qed.
End IncrementalElement.

(** ** The Neumann face loop *)

Section Neumann.
Variable P : Problem.

Lemma neumann_face_at (fv : FEFaceValues) (rhs : Vec) (a : nat) :
  neumann_face P fv rhs a
  = rhs a + (if Nat.ltb a (dofs_per_cell P) then neumann_integral P fv a else 0).
Proof.
  unfold neumann_face.
  rewrite (for_loop_vec_acc (n_q_face P) _ (fun q a =>
    if Nat.ltb a (dofs_per_cell P)
    then - p_out P * dot (dim P) (normal_vector fv q) (face_velocity_value fv a q)
         * face_JxW fv q
    else 0)).
  - f_equal. unfold neumann_integral.
    destruct (Nat.ltb a (dofs_per_cell P)); [reflexivity|].
    apply Rsum_zero. reflexivity.
  - intros q v b.
    rewrite (for_loop_vec_acc (dofs_per_cell P) _ (fun i b =>
      if Nat.eqb b i
      then - p_out P * dot (dim P) (normal_vector fv q) (face_velocity_value fv i q)
           * face_JxW fv q
      else 0)).
    + f_equal. apply (Rsum_pick (dofs_per_cell P) b (fun i =>
        - p_out P * dot (dim P) (normal_vector fv q) (face_velocity_value fv i q)
        * face_JxW fv q)).
    + intros. apply vec_add_at.
Qed.

Lemma neumann_faces_at (id : nat) (fs : list Face) (rhs : Vec) (a : nat) :
  for_each fs (fun f rhs =>
      if (face_at_boundary f && Nat.eqb (boundary_id f) id)%bool
      then neumann_face P (fe_face_values f) rhs else rhs) rhs a
  = rhs a + (if Nat.ltb a (dofs_per_cell P) then neumann_total P id fs a else 0).
Proof.
  unfold for_each. revert rhs.
  induction fs as [|f fs IH]; intros rhs; simpl.
  - destruct (Nat.ltb a (dofs_per_cell P)); lra.
  - rewrite IH.
    destruct (face_at_boundary f && Nat.eqb (boundary_id f) id)%bool.
    + rewrite neumann_face_at. destruct (Nat.ltb a (dofs_per_cell P)); lra.
    + destruct (Nat.ltb a (dofs_per_cell P)); lra.
Qed.

(** The face loop adds, to entry [a] of the element right-hand side, the
    Neumann integrals of the boundary faces whose tag is [id]. *)
Lemma neumann_loop_at (id : nat) (c : Cell) (rhs : Vec) (a : nat) :
  neumann_loop P id c rhs a
  = rhs a + (if (at_boundary c && Nat.ltb a (dofs_per_cell P))%bool
             then neumann_total P id (faces c) a else 0).
Proof.
  unfold neumann_loop. destruct (at_boundary c); simpl.
  - apply neumann_faces_at.
  - lra.
Qed.

Lemma neumann_integral_zero (fv : FEFaceValues) (i : nat) :
  p_out P = 0 -> neumann_integral P fv i = 0.
Proof.
  intros H0. unfold neumann_integral. apply Rsum_zero. intros q _.
  rewrite H0. lra.
Qed.

Lemma neumann_total_zero (id : nat) (fs : list Face) (i : nat) :
  p_out P = 0 -> neumann_total P id fs i = 0.
Proof.
  intros H0. induction fs as [|f fs IH]; simpl; [reflexivity|].
  rewrite IH, neumann_integral_zero by exact H0.
  destruct (face_at_boundary f && Nat.eqb (boundary_id f) id)%bool; lra.
Qed.

(** With a zero outlet pressure the face loop returns the vector it was
    given. *)
Lemma neumann_loop_zero (id : nat) (c : Cell) (rhs : Vec) :
  p_out P = 0 -> neumann_loop P id c rhs = rhs.
Proof.
  intros H0. apply functional_extensionality. intros a.
  rewrite neumann_loop_at, neumann_total_zero by exact H0.
  destruct (at_boundary c && Nat.ltb a (dofs_per_cell P))%bool; lra.
Qed.

End Neumann.

(** Entry [i] of the element right-hand side of the incremental variant:
    the frozen convective term, then the Neumann terms of the boundary
    faces tagged [2]. *)
Lemma incremental_element_rhs (P : Problem) (c : Cell) (u_old : Vec) (i : nat) :
  (i < dofs_per_cell P)%nat ->
  local_rhs (IncrementalStokes.element P c u_old) i
  = Rsum (n_q P) (fun q =>
      picard_rhs_integrand P c u_old q i * JxW (fe_values c) q)
    + (if at_boundary c then neumann_total P 2 (faces c) i else 0).
Proof.
  intros Hi. simpl. rewrite neumann_loop_at, incremental_rhs_entry by exact Hi.
  replace (i <? dofs_per_cell P)%nat with true
    by (symmetry; apply Nat.ltb_lt; exact Hi).
  rewrite andb_true_r. reflexivity.
Qed.

(** C4.  On an element of the incremental variant, entry [(i, j)] of the
    local matrix is the quadrature sum of the viscous term, the two
    convective terms [(v_j . grad u_old) . v_i] and [(u_old . grad v_j) . v_i]
    taken at the previous iterate's velocity and velocity gradient, and the
    two pressure couplings, each weighted by [JxW]; entry [i] of the local
    right-hand side is the quadrature sum of [(u_old . grad u_old) . v_i]
    weighted by [JxW], plus the Neumann face terms; and this is what a
    locally owned cell hands to the global insertion. *)
Theorem picard_linearisation_terms
    (P : Problem) (L : Library) (cs : BoundaryValues) (c : Cell) (u_old : Vec)
    (g : Mat * Vec) (i j : nat) :
  (i < dofs_per_cell P)%nat -> (j < dofs_per_cell P)%nat ->
  local_matrix (IncrementalStokes.element P c u_old) i j
  = Rsum (n_q P) (fun q =>
      picard_matrix_integrand P c u_old q i j * JxW (fe_values c) q)
  /\ local_rhs (IncrementalStokes.element P c u_old) i
     = Rsum (n_q P) (fun q =>
         picard_rhs_integrand P c u_old q i * JxW (fe_values c) q)
       + (if at_boundary c then neumann_total P 2 (faces c) i else 0)
  /\ (is_locally_owned c = true ->
      IncrementalStokes.cell_step P (IncrementalStokes.element P) L cs u_old c g
      = distribute_local_to_global L cs (dofs_per_cell P)
          (local_matrix (IncrementalStokes.element P c u_old))
          (local_rhs (IncrementalStokes.element P c u_old)) (dof_indices c) g).
Proof.
  intros Hi Hj. split; [|split].
  - simpl. apply incremental_matrix_entry; assumption.
  - apply incremental_element_rhs. exact Hi.
  - intros Ho. unfold IncrementalStokes.cell_step. rewrite Ho. reflexivity.
Qed.

(** ** The element loops of the Stokes variant *)

Section StokesElement.
Variable P : Problem.
Variable fe : FEValues.

Lemma stokes_volume_matrix :
  cell_matrix (Stokes.volume P fe)
  = for_loop (n_q P) (fun q m =>
      for_loop (dofs_per_cell P) (fun i m =>
        for_loop (dofs_per_cell P) (fun j m =>
          mat_add m i j (stokes_matrix_integrand P fe q i j * JxW fe q)) m) m) mat_zero.
Proof.
  unfold Stokes.volume.
  apply (for_loop_proj cell_matrix (n_q P)). intros q s.
  apply (for_loop_proj cell_matrix (dofs_per_cell P)). intros i s'.
  unfold Stokes.row. simpl.
  apply (for_loop_proj cell_matrix (dofs_per_cell P)). intros j s''.
  unfold Stokes.entry. simpl.
  apply functional_extensionality; intros a.
  apply functional_extensionality; intros b.
  rewrite !mat_add_at. unfold stokes_matrix_integrand.
  destruct (Nat.eqb a i && Nat.eqb b j)%bool; lra.
Qed.

Lemma stokes_volume_pressure_mass :
  cell_pressure_mass_matrix (Stokes.volume P fe)
  = for_loop (n_q P) (fun q m =>
      for_loop (dofs_per_cell P) (fun i m =>
        for_loop (dofs_per_cell P) (fun j m =>
          mat_add m i j
            (pressure_value fe i q * pressure_value fe j q / nu P * JxW fe q)) m) m)
      mat_zero.
Proof.
  unfold Stokes.volume.
  apply (for_loop_proj cell_pressure_mass_matrix (n_q P)). intros q s.
  apply (for_loop_proj cell_pressure_mass_matrix (dofs_per_cell P)). intros i s'.
  unfold Stokes.row. simpl.
  apply (for_loop_proj cell_pressure_mass_matrix (dofs_per_cell P)). reflexivity.
Qed.

Lemma stokes_volume_rhs :
  cell_rhs (Stokes.volume P fe)
  = for_loop (n_q P) (fun q v =>
      for_loop (dofs_per_cell P) (fun i v =>
        vec_add v i (dot (dim P) (forcing fe q) (velocity_value fe i q) * JxW fe q)) v)
      vec_zero.
Proof.
  unfold Stokes.volume.
  apply (for_loop_proj cell_rhs (n_q P)). intros q s.
  apply (for_loop_proj cell_rhs (dofs_per_cell P)). intros i s'.
  unfold Stokes.row. simpl. f_equal.
  rewrite (for_loop_proj cell_rhs (dofs_per_cell P) (Stokes.entry P fe q i)
             (fun _ v => v)) by reflexivity.
  generalize (cell_rhs s'). clear.
  induction (dofs_per_cell P); simpl; auto.
Qed.

(** A triple loop of [m(i, j) += t q i j], read at one entry. *)
Lemma triple_loop_at (t : nat -> nat -> nat -> R) (i j : nat) :
  (i < dofs_per_cell P)%nat -> (j < dofs_per_cell P)%nat ->
  for_loop (n_q P) (fun q m =>
    for_loop (dofs_per_cell P) (fun i m =>
      for_loop (dofs_per_cell P) (fun j m => mat_add m i j (t q i j)) m) m)
    mat_zero i j
  = Rsum (n_q P) (fun q => t q i j).
Proof.
  intros Hi Hj.
  rewrite (for_loop_mat_acc (n_q P) _ (fun q a b =>
    Rsum (dofs_per_cell P) (fun i' => Rsum (dofs_per_cell P) (fun j' =>
      if (Nat.eqb a i' && Nat.eqb b j')%bool then t q i' j' else 0)))).
  - unfold mat_zero. rewrite Rplus_0_l. apply Rsum_ext. intros q _.
    apply (Rsum_pick2 (dofs_per_cell P) i j (t q)); assumption.
  - intros q m a b.
    apply (for_loop_mat_acc (dofs_per_cell P) _ (fun i' a b =>
      Rsum (dofs_per_cell P) (fun j' =>
        if (Nat.eqb a i' && Nat.eqb b j')%bool then t q i' j' else 0))).
    intros i' m' a' b'.
    apply (for_loop_mat_acc (dofs_per_cell P) _ (fun j' a b =>
        if (Nat.eqb a i' && Nat.eqb b j')%bool then t q i' j' else 0)).
    intros. apply mat_add_at.
Qed.

Lemma stokes_matrix_entry (i j : nat) :
  (i < dofs_per_cell P)%nat -> (j < dofs_per_cell P)%nat ->
  cell_matrix (Stokes.volume P fe) i j
  = Rsum (n_q P) (fun q => stokes_matrix_integrand P fe q i j * JxW fe q).
Proof.
  intros Hi Hj. rewrite stokes_volume_matrix.
  apply (triple_loop_at (fun q i j => stokes_matrix_integrand P fe q i j * JxW fe q));
    assumption.
Qed.

(** The element pressure mass matrix is [(1/nu) (p_i, p_j)]. *)
Lemma stokes_pressure_mass_entry (i j : nat) :
  (i < dofs_per_cell P)%nat -> (j < dofs_per_cell P)%nat ->
  cell_pressure_mass_matrix (Stokes.volume P fe) i j = pressure_mass_entry P fe i j.
Proof.
  intros Hi Hj. rewrite stokes_volume_pressure_mass.
  rewrite (triple_loop_at (fun q i j =>
    pressure_value fe i q * pressure_value fe j q / nu P * JxW fe q)) by assumption.
  unfold pressure_mass_entry. apply Rsum_ext. intros q _.
  unfold Rdiv. ring.
Qed.
End StokesElement.

(** C4, at the small instance. *)
Lemma picard_linearisation_terms_witness :
  local_matrix (IncrementalStokes.element (sample_problem 0) corner_cell vec_zero)
               0%nat 0%nat
  = Rsum 1 (fun q =>
      picard_matrix_integrand (sample_problem 0) corner_cell vec_zero q 0 0
      * JxW sample_fe q)
  /\ local_rhs (IncrementalStokes.element (sample_problem 0) corner_cell vec_zero) 0%nat
     = Rsum 1 (fun q =>
         picard_rhs_integrand (sample_problem 0) corner_cell vec_zero q 0
         * JxW sample_fe q)
       + neumann_total (sample_problem 0) 2 [walls_face; outlet_face] 0.
Proof.
  destruct (picard_linearisation_terms (sample_problem 0)
              (sample_library converged 0) [] corner_cell vec_zero
              (mat_zero, vec_zero) 0%nat 0%nat) as (Hm & Hr & _).
  - simpl. lia.
  - simpl. lia.
  - split; [exact Hm | exact Hr].
Defined.

Lemma stokes_rhs_entry (P : Problem) (id : nat) (c : Cell) (i : nat) :
  (i < dofs_per_cell P)%nat ->
  cell_rhs (Stokes.element P id c) i
  = Rsum (n_q P) (fun q =>
      dot (dim P) (forcing (fe_values c) q) (velocity_value (fe_values c) i q)
      * JxW (fe_values c) q)
    + (if at_boundary c then neumann_total P id (faces c) i else 0).
Proof.
  intros Hi. simpl. rewrite neumann_loop_at, stokes_volume_rhs.
  replace (i <? dofs_per_cell P)%nat with true
    by (symmetry; apply Nat.ltb_lt; exact Hi).
  rewrite andb_true_r. f_equal.
  rewrite (for_loop_vec_acc (n_q P) _ (fun q a =>
    Rsum (dofs_per_cell P) (fun i' =>
      if Nat.eqb a i'
      then dot (dim P) (forcing (fe_values c) q) (velocity_value (fe_values c) i' q)
           * JxW (fe_values c) q
      else 0))).
  - unfold vec_zero. rewrite Rplus_0_l. apply Rsum_ext. intros q _.
    rewrite Rsum_pick.
    replace (i <? dofs_per_cell P)%nat with true
      by (symmetry; apply Nat.ltb_lt; exact Hi).
    reflexivity.
  - intros q v a.
    apply (for_loop_vec_acc (dofs_per_cell P) _ (fun i' a =>
      if Nat.eqb a i'
      then dot (dim P) (forcing (fe_values c) q) (velocity_value (fe_values c) i' q)
           * JxW (fe_values c) q
      else 0)).
    intros. apply vec_add_at.
Qed.

(** The face tests of the two variants read different tags.  On an
    element that touches the wall (tag 2) and the outlet (tag 1), for an
    outlet pressure [p]: the incremental variant adds the Neumann term of
    the wall face, [-p * 1], and nothing for the outlet face, while the
    Stokes variant adds the term of the outlet face, [-p * 2], and nothing
    for the wall face.  With the outlet pressure the header declares,
    [p = 0], the two terms are equal. *)
Theorem incremental_neumann_on_walls_tag (p : R) :
  local_rhs (IncrementalStokes.element (sample_problem p) corner_cell vec_zero) 0%nat
  = neumann_integral (sample_problem p) (fe_face_values walls_face) 0
  /\ neumann_integral (sample_problem p) (fe_face_values walls_face) 0 = - p
  /\ cell_rhs (Stokes.element (sample_problem p) 1 corner_cell) 0%nat
     = neumann_integral (sample_problem p) (fe_face_values outlet_face) 0
  /\ neumann_integral (sample_problem p) (fe_face_values outlet_face) 0 = - (2 * p).
Proof.
  assert (H0 : (0 < dofs_per_cell (sample_problem p))%nat) by (simpl; lia).
  pose proof (incremental_element_rhs (sample_problem p) corner_cell vec_zero 0%nat H0)
    as Hr.
  pose proof (stokes_rhs_entry (sample_problem p) 1 corner_cell 0%nat H0) as Hs.
  repeat split.
  - rewrite Hr. unfold picard_rhs_integrand, convective,
      IncrementalStokes.get_function_values, IncrementalStokes.get_function_gradients,
      vec_zero.
    simpl. unfold neumann_integral, dot. simpl. lra.
  - unfold neumann_integral, dot. simpl. lra.
  - rewrite Hs. simpl. unfold neumann_integral, dot. simpl. lra.
  - unfold neumann_integral, dot. simpl. lra.
Qed.

(** ** A zero outlet pressure *)

Lemma incremental_element_is_volume (P : Problem) :
  p_out P = 0 -> IncrementalStokes.element P = IncrementalStokes.volume P.
Proof.
  intros H0. apply functional_extensionality; intros c.
  apply functional_extensionality; intros u.
  unfold IncrementalStokes.element.
  rewrite neumann_loop_zero by exact H0.
  destruct (IncrementalStokes.volume P c u). reflexivity.
Qed.

Lemma stokes_element_is_volume (P : Problem) (id : nat) :
  p_out P = 0 -> Stokes.element P id = (fun c => Stokes.volume P (fe_values c)).
Proof.
  intros H0. apply functional_extensionality; intros c.
  unfold Stokes.element.
  rewrite neumann_loop_zero by exact H0.
  destruct (Stokes.volume P (fe_values c)). reflexivity.
Qed.



(** C10.  With the outlet pressure the header declares, [p_out = 0], every
    Neumann term is zero, the face loop returns the right-hand side it was
    given, and each [assemble] produces the state it would produce with
    the face loop removed (the element arrays being those of the
    quadrature loop alone). *)
Theorem zero_outlet_pressure_face_loop_adds_nothing
    (P : Problem) (L : Library) (W : World) (st : State) :
  p_out P = Incremental_stokes_hpp.p_out ->
  (forall fv i, neumann_integral P fv i = 0)
  /\ (forall id c rhs, neumann_loop P id c rhs = rhs)
  /\ IncrementalStokes.assemble P L W st
     = IncrementalStokes.assemble_with P (IncrementalStokes.volume P) L W st
  /\ SteadyToFix.assemble P L W st
     = Stokes.assemble_with P (fun c => Stokes.volume P (fe_values c)) L W st
  /\ Stokes.assemble P L W st
     = Stokes.assemble_with P (fun c => Stokes.volume P (fe_values c)) L W st.
Proof.
  unfold Incremental_stokes_hpp.p_out. intros H0. repeat split.
  - intros. apply neumann_integral_zero. exact H0.
  - intros. apply neumann_loop_zero. exact H0.
  - unfold IncrementalStokes.assemble.
    rewrite incremental_element_is_volume by exact H0. reflexivity.
  - unfold SteadyToFix.assemble.
    rewrite stokes_element_is_volume by exact H0. reflexivity.
  - unfold Stokes.assemble.
    rewrite stokes_element_is_volume by exact H0. reflexivity.
Qed.

Lemma zero_outlet_pressure_face_loop_adds_nothing_witness :
  IncrementalStokes.assemble (sample_problem Incremental_stokes_hpp.p_out)
    (sample_library converged 0) sample_world (sample_state vec_zero)
  = IncrementalStokes.assemble_with (sample_problem Incremental_stokes_hpp.p_out)
      (IncrementalStokes.volume (sample_problem Incremental_stokes_hpp.p_out))
      (sample_library converged 0) sample_world (sample_state vec_zero).
Proof.
  apply (zero_outlet_pressure_face_loop_adds_nothing
           (sample_problem Incremental_stokes_hpp.p_out)
           (sample_library converged 0) sample_world
           (sample_state vec_zero)).
  reflexivity.
Defined.

(** ** The pressure block *)

Lemma matrix_add_untouched (n : nat) (dof : nat -> nat) (cm m : Mat) (a b : nat) :
  (forall i j, (i < n)%nat -> (j < n)%nat -> dof i = a -> dof j = b -> cm i j = 0) ->
  matrix_add n dof cm m a b = m a b.
Proof.
  intros Hz. rewrite matrix_add_at.
  rewrite Rsum_zero; [lra|]. intros i Hi.
  apply Rsum_zero. intros j Hj.
  destruct (Nat.eqb_spec a (dof i)) as [Ea|]; [|reflexivity].
  destruct (Nat.eqb_spec b (dof j)) as [Eb|]; [|reflexivity].
  simpl. apply Hz; auto.
Qed.

Lemma for_each_invariant {A St : Type} (Inv : St -> Prop) (l : list A)
    (body : A -> St -> St) (s : St) :
  Inv s ->
  (forall a s, In a l -> Inv s -> Inv (body a s)) ->
  Inv (for_each l body s).
Proof.
  unfold for_each. revert s.
  induction l as [|a l IH]; intros s Hs Hb; simpl; [exact Hs|].
  apply IH.
  - apply Hb; [left; reflexivity | exact Hs].
  - intros a' s' Hin. apply Hb. right. exact Hin.
Qed.

Section PressureBlock.
Variable P : Problem.
Variable pressure_dof : nat -> bool.

Lemma scalar_product_zero_l (A B : Tensor2) :
  (forall k l, (k < dim P)%nat -> (l < dim P)%nat -> A k l = 0) ->
  scalar_product (dim P) A B = 0.
Proof.
  intros HA. unfold scalar_product.
  apply Rsum_zero. intros k Hk. apply Rsum_zero. intros l Hl.
  rewrite HA by assumption. lra.
Qed.

Lemma convective_zero_r (a : Tensor1) (G : Tensor2) (b : Tensor1) :
  (forall k, (k < dim P)%nat -> b k = 0) -> convective (dim P) a G b = 0.
Proof.
  intros Hb. unfold convective. apply Rsum_zero. intros k Hk.
  rewrite Hb by assumption. lra.
Qed.

Lemma stokes_cell_matrix_pp (fe : FEValues) (i j : nat) :
  primitive P pressure_dof fe ->
  (i < dofs_per_cell P)%nat -> (j < dofs_per_cell P)%nat ->
  pressure_dof i = true -> pressure_dof j = true ->
  cell_matrix (Stokes.volume P fe) i j = 0.
Proof.
  intros Hp Hi Hj Pi Pj. rewrite stokes_matrix_entry by assumption.
  apply Rsum_zero. intros q _. unfold stokes_matrix_integrand.
  destruct (Hp i q Hi) as [Hpi _]. destruct (Hpi Pi) as (_ & Gi & Di).
  destruct (Hp j q Hj) as [Hpj _]. destruct (Hpj Pj) as (_ & _ & Dj).
  rewrite scalar_product_zero_l by exact Gi. rewrite Di, Dj. lra.
Qed.

Lemma stokes_cell_pressure_mass_outside (fe : FEValues) (i j : nat) :
  primitive P pressure_dof fe ->
  (i < dofs_per_cell P)%nat -> (j < dofs_per_cell P)%nat ->
  pressure_dof i = false \/ pressure_dof j = false ->
  cell_pressure_mass_matrix (Stokes.volume P fe) i j = 0.
Proof.
  intros Hp Hi Hj Hij. rewrite stokes_pressure_mass_entry by assumption.
  unfold pressure_mass_entry. apply Rsum_zero. intros q _.
  destruct Hij as [Pi|Pj].
  - destruct (Hp i q Hi) as [_ Hv]. rewrite (Hv Pi). lra.
  - destruct (Hp j q Hj) as [_ Hv]. rewrite (Hv Pj). lra.
Qed.

Lemma incremental_local_matrix_pp (c : Cell) (u_old : Vec) (i j : nat) :
  primitive P pressure_dof (fe_values c) ->
  (i < dofs_per_cell P)%nat -> (j < dofs_per_cell P)%nat ->
  pressure_dof i = true -> pressure_dof j = true ->
  local_matrix (IncrementalStokes.element P c u_old) i j = 0.
Proof.
  intros Hp Hi Hj Pi Pj. simpl. rewrite incremental_matrix_entry by assumption.
  apply Rsum_zero. intros q _. unfold picard_matrix_integrand.
  destruct (Hp i q Hi) as [Hpi _]. destruct (Hpi Pi) as (Vi & Gi & Di).
  destruct (Hp j q Hj) as [Hpj _]. destruct (Hpj Pj) as (_ & _ & Dj).
  rewrite scalar_product_zero_l by exact Gi.
  rewrite !convective_zero_r by exact Vi.
  rewrite Di, Dj. lra.
Qed.
End PressureBlock.

Section GlobalBlocks.
Variable P : Problem.
Variable pressure_dof : nat -> bool.
Variable W : World.
Hypothesis Hspace : mixed_space P pressure_dof W.

Lemma stokes_cell_loops_blocks (id : nat) :
  (forall a b, (n_u P <= a)%nat -> (n_u P <= b)%nat ->
     system_matrix (Stokes.cell_loops P (Stokes.element P id) W) a b = 0)
  /\ (forall a b, (a < n_u P)%nat \/ (b < n_u P)%nat ->
        pressure_mass (Stokes.cell_loops P (Stokes.element P id) W) a b = 0).
Proof.
  unfold Stokes.cell_loops.
  apply (for_each_invariant (fun g =>
    (forall a b, (n_u P <= a)%nat -> (n_u P <= b)%nat -> system_matrix g a b = 0)
    /\ (forall a b, (a < n_u P)%nat \/ (b < n_u P)%nat -> pressure_mass g a b = 0))).
  - split; reflexivity.
  - intros w g Hw Hg.
    apply (for_each_invariant (fun g =>
      (forall a b, (n_u P <= a)%nat -> (n_u P <= b)%nat -> system_matrix g a b = 0)
      /\ (forall a b, (a < n_u P)%nat \/ (b < n_u P)%nat -> pressure_mass g a b = 0)));
      [exact Hg|].
    intros c g' Hc [Hm Hpm].
    destruct (Hspace w c Hw Hc) as [Hprim Hblock].
    unfold Stokes.cell_step. destruct (is_locally_owned c); simpl; [|split; assumption].
    split.
    + intros a b Ha Hb. rewrite matrix_add_untouched; [apply Hm; assumption|].
      intros i j Hi Hj Ei Ej.
      apply (stokes_cell_matrix_pp P pressure_dof); try assumption.
      * apply (Hblock i Hi). lia.
      * apply (Hblock j Hj). lia.
    + intros a b Hab. rewrite matrix_add_untouched; [apply Hpm; assumption|].
      intros i j Hi Hj Ei Ej.
      apply (stokes_cell_pressure_mass_outside P pressure_dof); try assumption.
      destruct Hab as [Ha|Hb]; [left|right].
      * destruct (pressure_dof i) eqn:E; [|reflexivity].
        apply (Hblock i Hi) in E. lia.
      * destruct (pressure_dof j) eqn:E; [|reflexivity].
        apply (Hblock j Hj) in E. lia.
Qed.

Lemma stokes_assemble_matrix (elem : Cell -> CellSystem) (L : Library) (st : State) :
  system_matrix (sys (Stokes.assemble_with P elem L W st))
  = fst (fst (apply_boundary_values L (dirichlet W)
                (system_matrix (Stokes.cell_loops P elem W)) (solution_owned st)
                (system_rhs (Stokes.cell_loops P elem W)) false))
  /\ pressure_mass (sys (Stokes.assemble_with P elem L W st))
     = pressure_mass (Stokes.cell_loops P elem W).
Proof.
  unfold Stokes.assemble_with.
  destruct (apply_boundary_values L (dirichlet W) _ _ _ false) as [[m x] b].
  split; reflexivity.
Qed.

Lemma incremental_assemble_pp (L : Library) (st : State) :
  velocity_only P (dirichlet W) -> inserts_free_entries L ->
  forall a b, (n_u P <= a)%nat -> (n_u P <= b)%nat ->
    system_matrix (sys (IncrementalStokes.assemble P L W st)) a b = 0.
Proof.
  intros Hv Hins. unfold IncrementalStokes.assemble, IncrementalStokes.assemble_with.
  simpl.
  apply (for_each_invariant (fun g : Mat * Vec =>
    forall a b, (n_u P <= a)%nat -> (n_u P <= b)%nat -> fst g a b = 0)).
  - reflexivity.
  - intros w g Hw Hg.
    apply (for_each_invariant (fun g : Mat * Vec =>
      forall a b, (n_u P <= a)%nat -> (n_u P <= b)%nat -> fst g a b = 0));
      [exact Hg|].
    intros c g' Hc Hm a b Ha Hb.
    destruct (Hspace w c Hw Hc) as [Hprim Hblock].
    unfold IncrementalStokes.cell_step.
    destruct (is_locally_owned c); simpl; [|apply Hm; assumption].
    rewrite Hins by (apply Hv; assumption).
    rewrite matrix_add_untouched; [apply Hm; assumption|].
    intros i j Hi Hj Ei Ej.
    apply (incremental_local_matrix_pp P pressure_dof); try assumption.
    + apply (Hblock i Hi). lia.
    + apply (Hblock j Hj). lia.
Qed.
End GlobalBlocks.

(** ** [pressure_mass] is not read by the incremental variant *)

Lemma incremental_assemble_pressure_mass
    (P : Problem) (L : Library) (W : World) (st : State) (pm : Mat) :
  IncrementalStokes.assemble P L W (with_pressure_mass st pm)
  = with_pressure_mass (IncrementalStokes.assemble P L W st) pm.
Proof. reflexivity. Qed.

Lemma incremental_linear_solve_pressure_mass
    (L : Library) (W : World) (st : State) (pm : Mat) :
  IncrementalStokes.linear_solve L W (with_pressure_mass st pm)
  = map_outcome (fun s => with_pressure_mass s pm)
      (IncrementalStokes.linear_solve L W st).
Proof.
  unfold IncrementalStokes.linear_solve.
  cbn [with_pressure_mass with_sys with_solution_owned sys system_matrix system_rhs
       solution_owned].
  destruct (SolverGMRES_solve _ _) as [r|e]; reflexivity.
Qed.

Lemma incremental_iteration_pressure_mass
    (P : Problem) (L : Library) (W : World) (st : State) (pm : Mat) :
  IncrementalStokes.iteration P L W (with_pressure_mass st pm)
  = map_outcome (fun b => (with_pressure_mass (fst b) pm, snd b))
      (IncrementalStokes.iteration P L W st).
Proof.
  unfold IncrementalStokes.iteration.
  change (IncrementalStokes.assemble_and_report P L W (with_pressure_mass st pm))
    with (with_pressure_mass (IncrementalStokes.assemble_and_report P L W st) pm).
  destruct (Rlt_dec (IncrementalStokes.update_tol + 1) IncrementalStokes.update_tol);
    [reflexivity|].
  rewrite incremental_linear_solve_pressure_mass.
  destruct (IncrementalStokes.linear_solve L W
              (IncrementalStokes.assemble_and_report P L W st))
    as [st'|e]; [|reflexivity].
  cbn [map_outcome bind].
  change (snd (IncrementalStokes.measure_update P W (with_pressure_mass st' pm)))
    with (snd (IncrementalStokes.measure_update P W st')).
  destruct (Rlt_dec (snd (IncrementalStokes.measure_update P W st'))
              IncrementalStokes.update_tol); reflexivity.
Qed.

Lemma incremental_iterations_pressure_mass
    (P : Problem) (L : Library) (W : World) (n : nat) (st : State) (pm : Mat) :
  IncrementalStokes.iterations P L W n (with_pressure_mass st pm)
  = map_outcome (fun s => with_pressure_mass s pm)
      (IncrementalStokes.iterations P L W n st).
Proof.
  revert st. induction n as [|n IH]; intros st; simpl; [reflexivity|].
  rewrite incremental_iteration_pressure_mass.
  destruct (IncrementalStokes.iteration P L W st) as [[st' stop]|e]; simpl;
    [|reflexivity].
  destruct stop; [reflexivity|].
  apply (IH (with_iter st' (S (iter st')))).
Qed.

(** ** The small instance meets the structural conditions *)

Lemma sample_library_keeps_free_rows (kr : nat -> Vec * R) (holder : nat) :
  keeps_free_rows (sample_library kr holder).
Proof. intros bv m x b r c Hr. simpl. rewrite Hr. reflexivity. Qed.

Lemma sample_library_inserts_free_entries (kr : nat -> Vec * R) (holder : nat) :
  inserts_free_entries (sample_library kr holder).
Proof. intros cs n lm lr dof g a b _ _. reflexivity. Qed.

Lemma sample_world_mixed_space (p : R) :
  mixed_space (sample_problem p) sample_pressure_dof sample_world.
Proof.
  intros w c Hw Hc. simpl in Hw. destruct Hw as [<-|[]].
  simpl in Hc. destruct Hc as [<-|[]].
  split.
  - intros i q Hi. simpl in Hi. unfold sample_pressure_dof.
    destruct i as [|[|i]]; simpl; try lia; split; intros H; try discriminate;
      repeat split; reflexivity.
  - intros i Hi. simpl in Hi. unfold sample_pressure_dof.
    destruct i as [|[|i]]; simpl; try lia; split; intros H; try discriminate; lia.
Qed.

Lemma sample_world_velocity_only (p : R) :
  velocity_only (sample_problem p) (dirichlet sample_world).
Proof. intros k _. reflexivity. Qed.

(** C6, as the code has it.  In an assembly pass of either variant the
    pressure-pressure block of the system matrix stays zero.  The Stokes
    pass assembles the pressure mass matrix next to the system: its element
    entries are [(1/nu) (p_i, p_j)] and nothing is written outside the
    pressure block.  The incremental pass leaves [pressure_mass] as it
    found it, and the whole incremental [solve] (iterates, update
    [new_res], printed norms) is the same whatever [pressure_mass]
    holds.  In the Stokes solve [pressure_mass] reaches the Krylov solver
    only as the pressure-pressure block inside the preconditioner; the
    system, the right-hand side, the guess and the tolerance do not
    depend on it. *)
Theorem pressure_block_and_pressure_mass
    (P : Problem) (pressure_dof : nat -> bool) (L : Library) (W : World) (st : State) :
  mixed_space P pressure_dof W ->
  velocity_only P (dirichlet W) ->
  keeps_free_rows L ->
  inserts_free_entries L ->
  (forall a b, (n_u P <= a)%nat -> (n_u P <= b)%nat ->
     system_matrix (sys (Stokes.assemble P L W st)) a b = 0
     /\ system_matrix (sys (IncrementalStokes.assemble P L W st)) a b = 0)
  /\ (forall c i j, (i < dofs_per_cell P)%nat -> (j < dofs_per_cell P)%nat ->
        cell_pressure_mass_matrix (Stokes.element P 1 c) i j
        = pressure_mass_entry P (fe_values c) i j)
  /\ (forall a b, (a < n_u P)%nat \/ (b < n_u P)%nat ->
        pressure_mass (sys (Stokes.assemble P L W st)) a b = 0)
  /\ pressure_mass (sys (IncrementalStokes.assemble P L W st)) = pressure_mass (sys st)
  /\ (forall pm,
        IncrementalStokes.solve P L W (with_pressure_mass st pm)
        = map_outcome (fun s => with_pressure_mass s pm)
            (IncrementalStokes.solve P L W st))
  /\ (forall pm,
        Stokes.solver_control P (with_pressure_mass st pm) = Stokes.solver_control P st
        /\ Stokes.iterates P L (with_pressure_mass st pm)
           = krylov L (system_matrix (sys st)) (solution_owned st) (system_rhs (sys st))
               (PreconditionBlockTriangularStokes
                  (block P (system_matrix (sys st)) 0 0)
                  (block P pm 1 1)
                  (block P (system_matrix (sys st)) 1 0))).
Proof.
  intros Hspace Hvel Hrows Hins.
  destruct (stokes_cell_loops_blocks P pressure_dof W Hspace 1) as [Hm Hpm].
  destruct (stokes_assemble_matrix P W (Stokes.element P 1) L st) as [Em Epm].
  repeat split.
  - unfold Stokes.assemble. rewrite Em, Hrows by (apply Hvel; assumption).
    apply Hm; assumption.
  - apply (incremental_assemble_pp P pressure_dof W Hspace L st Hvel Hins);
      assumption.
  - intros c i j Hi Hj. simpl. apply stokes_pressure_mass_entry; assumption.
  - intros a b Hab. unfold Stokes.assemble. rewrite Epm. apply Hpm. exact Hab.
  - intros pm. unfold IncrementalStokes.solve.
    apply (incremental_iterations_pressure_mass P L W IncrementalStokes.maxIter
             (with_iter st 0) pm).
Qed.

Lemma pressure_block_and_pressure_mass_witness :
  system_matrix
    (sys (Stokes.assemble (sample_problem 0) (sample_library converged 0)
            sample_world (sample_state vec_zero))) 1%nat 1%nat = 0
  /\ system_matrix
       (sys (IncrementalStokes.assemble (sample_problem 0)
               (sample_library converged 0)
               sample_world (sample_state vec_zero))) 1%nat 1%nat = 0.
Proof.
  apply (pressure_block_and_pressure_mass (sample_problem 0) sample_pressure_dof
           (sample_library converged 0) sample_world
           (sample_state vec_zero)
           (sample_world_mixed_space 0) (sample_world_velocity_only 0)
           (sample_library_keeps_free_rows _ _)
           (sample_library_inserts_free_entries _ _)); simpl; lia.
Defined.

(** C6, counterexample to the claim as stated: after an incremental
    assembly pass on the small instance the pressure-pressure entry of
    [pressure_mass] is not [(1/nu) (p_1, p_1)]. *)
Lemma incremental_pass_assembles_no_pressure_mass :
  pressure_mass
    (sys (IncrementalStokes.assemble (sample_problem 0)
            (sample_library converged 0)
            sample_world (sample_state vec_zero))) 1%nat 1%nat
  <> pressure_mass_entry (sample_problem 0) sample_fe 1 1.
Proof.
  unfold pressure_mass_entry. simpl. unfold mat_zero. lra.
Qed.

(** ** The Krylov solve and its control *)

Section Gmres.
Variable c : SolverControl.
Variable it : nat -> Vec * R.

(** The budget used up with every residual above the tolerance: the
    solver raises [NoConvergence] at step [max_steps]. *)
Lemma gmres_from_exhausted (budget step : nat) :
  (step + budget = max_steps c)%nat ->
  (forall k, (step <= k <= max_steps c)%nat -> tolerance c < snd (it k)) ->
  gmres_from c it budget step
  = Thrown (NoConvergence (max_steps c) (snd (it (max_steps c)))).
Proof.
  revert step. induction budget as [|b IH]; intros step Hsum Hres.
  - assert (step = max_steps c) by lia. subst step.
    simpl. unfold check.
    destruct (Rle_dec (snd (it (max_steps c))) (tolerance c)) as [Hle|_].
    + specialize (Hres (max_steps c)). lapply Hres; [lra|lia].
    + rewrite Nat.leb_refl. reflexivity.
  - simpl. unfold check.
    destruct (Rle_dec (snd (it step)) (tolerance c)) as [Hle|_].
    + specialize (Hres step). lapply Hres; [lra|lia].
    + replace (max_steps c <=? step)%nat with false
        by (symmetry; apply Nat.leb_gt; lia).
      apply IH; [lia|]. intros k Hk. apply Hres. lia.
Qed.

(** The first step [k] within the budget whose residual is within the
    tolerance: the solver returns the iterate of that step and [k]. *)
Lemma gmres_from_converged (budget step k : nat) :
  (step + budget = max_steps c)%nat ->
  (step <= k <= max_steps c)%nat ->
  snd (it k) <= tolerance c ->
  (forall j, (step <= j < k)%nat -> tolerance c < snd (it j)) ->
  gmres_from c it budget step = Returned (fst (it k), k).
Proof.
  revert step. induction budget as [|b IH]; intros step Hsum Hk Hle Hbefore.
  - assert (step = k) by lia. subst step.
    simpl. unfold check.
    destruct (Rle_dec (snd (it k)) (tolerance c)) as [_|Hn]; [reflexivity|lra].
  - simpl. unfold check.
    destruct (Rle_dec (snd (it step)) (tolerance c)) as [Hs|Hs].
    + destruct (Nat.eq_dec step k) as [->|Hne]; [reflexivity|].
      specialize (Hbefore step). lapply Hbefore; [lra|lia].
    + assert (step <> k) by (intros ->; lra).
      replace (max_steps c <=? step)%nat with false
        by (symmetry; apply Nat.leb_gt; lia).
      apply IH; try lia; try assumption.
      intros j Hj. apply Hbefore. lia.
Qed.

(** The solve never takes more than [max_steps] steps, whichever way it
    ends. *)
Lemma gmres_from_bounded (budget step : nat) :
  (step + budget = max_steps c)%nat ->
  (exists x k, gmres_from c it budget step = Returned (x, k)
               /\ (k <= max_steps c)%nat /\ snd (it k) <= tolerance c)
  \/ (exists k r, gmres_from c it budget step = Thrown (NoConvergence k r)
                  /\ (k <= max_steps c)%nat /\ tolerance c < r).
Proof.
  revert step. induction budget as [|b IH]; intros step Hsum; simpl; unfold check.
  - destruct (Rle_dec (snd (it step)) (tolerance c)) as [Hs|Hs].
    + left. exists (fst (it step)), step. repeat split; [lia|exact Hs].
    + replace (max_steps c <=? step)%nat with true
        by (symmetry; apply Nat.leb_le; lia).
      right. exists step, (snd (it step)). repeat split; [lia|lra].
  - destruct (Rle_dec (snd (it step)) (tolerance c)) as [Hs|Hs].
    + left. exists (fst (it step)), step. repeat split; [lia|exact Hs].
    + replace (max_steps c <=? step)%nat with false
        by (symmetry; apply Nat.leb_gt; lia).
      apply IH. lia.
Qed.
End Gmres.

Lemma SolverGMRES_exhausted (c : SolverControl) (it : nat -> Vec * R) :
  (forall k, (k <= max_steps c)%nat -> tolerance c < snd (it k)) ->
  SolverGMRES_solve c it = Thrown (NoConvergence (max_steps c) (snd (it (max_steps c)))).
Proof.
  intros H. apply gmres_from_exhausted; [lia|]. intros k Hk. apply H. lia.
Qed.

Lemma SolverGMRES_converged (c : SolverControl) (it : nat -> Vec * R) (k : nat) :
  (k <= max_steps c)%nat ->
  snd (it k) <= tolerance c ->
  (forall j, (j < k)%nat -> tolerance c < snd (it j)) ->
  SolverGMRES_solve c it = Returned (fst (it k), k).
Proof.
  intros Hk Hle Hb. apply gmres_from_converged; try lia; try assumption.
  intros j Hj. apply Hb. lia.
Qed.

(** ** The two solves around the Krylov solver *)

Lemma stokes_solve_exhausted (P : Problem) (L : Library) (st : State) :
  (forall k, (k <= 2000)%nat ->
     tolerance (Stokes.solver_control P st) < snd (Stokes.iterates P L st k)) ->
  Stokes.solve P L st
  = Thrown (NoConvergence 2000 (snd (Stokes.iterates P L st 2000))).
Proof.
  intros H. unfold Stokes.solve.
  rewrite (SolverGMRES_exhausted (Stokes.solver_control P st) (Stokes.iterates P L st) H).
  reflexivity.
Qed.

Lemma stokes_solve_converged (P : Problem) (L : Library) (st : State) (k : nat) :
  (k <= 2000)%nat ->
  snd (Stokes.iterates P L st k) <= tolerance (Stokes.solver_control P st) ->
  (forall j, (j < k)%nat ->
     tolerance (Stokes.solver_control P st) < snd (Stokes.iterates P L st j)) ->
  Stokes.solve P L st
  = Returned (with_solution
                (print (with_solution_owned st (fst (Stokes.iterates P L st k)))
                       (GmresIterations k))
                (fst (Stokes.iterates P L st k))).
Proof.
  intros Hk Hle Hb. unfold Stokes.solve.
  rewrite (SolverGMRES_converged (Stokes.solver_control P st) (Stokes.iterates P L st) k
             Hk Hle Hb).
  reflexivity.
Qed.

Lemma linear_solve_exhausted (L : Library) (W : World) (st : State) :
  (forall k, (k <= max_steps IncrementalStokes.solver_control)%nat ->
     tolerance IncrementalStokes.solver_control
     < snd (IncrementalStokes.iterates L W st k)) ->
  IncrementalStokes.linear_solve L W st
  = Thrown (NoConvergence (max_steps IncrementalStokes.solver_control)
              (snd (IncrementalStokes.iterates L W st
                      (max_steps IncrementalStokes.solver_control)))).
Proof.
  intros H. unfold IncrementalStokes.linear_solve.
  cbn [with_solution_owned sys solution_owned].
  fold (IncrementalStokes.iterates L W st).
  rewrite (SolverGMRES_exhausted IncrementalStokes.solver_control
             (IncrementalStokes.iterates L W st) H).
  reflexivity.
Qed.

Lemma linear_solve_converged (L : Library) (W : World) (st : State) (k : nat) :
  (k <= max_steps IncrementalStokes.solver_control)%nat ->
  snd (IncrementalStokes.iterates L W st k)
  <= tolerance IncrementalStokes.solver_control ->
  (forall j, (j < k)%nat ->
     tolerance IncrementalStokes.solver_control
     < snd (IncrementalStokes.iterates L W st j)) ->
  IncrementalStokes.linear_solve L W st
  = Returned
      (with_solution
         (print (with_solution_owned st
                   (distribute (dirichlet W) (fst (IncrementalStokes.iterates L W st k))))
                (GmresIterations k))
         (distribute (dirichlet W) (fst (IncrementalStokes.iterates L W st k)))).
Proof.
  intros Hk Hle Hb. unfold IncrementalStokes.linear_solve.
  cbn [with_solution_owned sys solution_owned].
  fold (IncrementalStokes.iterates L W st).
  rewrite (SolverGMRES_converged IncrementalStokes.solver_control
             (IncrementalStokes.iterates L W st) k Hk Hle Hb).
  reflexivity.
Qed.

(** The test before the solve compares [update_tol + 1.0] with
    [update_tol]. *)
Lemma update_tol_plus_one :
  ~ (IncrementalStokes.update_tol + 1 < IncrementalStokes.update_tol).
Proof. lra. Qed.

(** The loop body with the test before the solve resolved. *)
Lemma iteration_unfold (P : Problem) (L : Library) (W : World) (st : State) :
  IncrementalStokes.iteration P L W st
  = (st1 <- IncrementalStokes.linear_solve L W
              (IncrementalStokes.assemble_and_report P L W st) ;;
     Returned (fst (IncrementalStokes.measure_update P W st1),
               if Rlt_dec (snd (IncrementalStokes.measure_update P W st1))
                          IncrementalStokes.update_tol
               then true else false)).
Proof.
  unfold IncrementalStokes.iteration.
  destruct (Rlt_dec (IncrementalStokes.update_tol + 1) IncrementalStokes.update_tol)
    as [Habs|_]; [destruct (update_tol_plus_one Habs)|].
  destruct (IncrementalStokes.linear_solve L W _) as [st1|e]; [|reflexivity].
  cbn [bind]. destruct (Rlt_dec _ _); reflexivity.
Qed.

Lemma l2_norm_zero (n : nat) : l2_norm n vec_zero = 0.
Proof.
  unfold l2_norm. rewrite Rsum_zero; [apply sqrt_0|].
  intros. unfold vec_zero. lra.
Qed.

Lemma measure_update_cout (P : Problem) (W : World) (st : State) :
  cout (fst (IncrementalStokes.measure_update P W st))
  = cout st ++ [UpdateNorm (snd (IncrementalStokes.measure_update P W st));
                IterationCompleted (iter st)].
Proof. simpl. rewrite <- app_assoc. reflexivity. Qed.

Lemma iteration_exhausted (P : Problem) (L : Library) (W : World) (st : State) :
  (forall k, (k <= max_steps IncrementalStokes.solver_control)%nat ->
     tolerance IncrementalStokes.solver_control
     < snd (IncrementalStokes.iterates L W
              (IncrementalStokes.assemble_and_report P L W st) k)) ->
  IncrementalStokes.iteration P L W st
  = Thrown (NoConvergence (max_steps IncrementalStokes.solver_control)
              (snd (IncrementalStokes.iterates L W
                      (IncrementalStokes.assemble_and_report P L W st)
                      (max_steps IncrementalStokes.solver_control)))).
Proof.
  intros H. rewrite iteration_unfold.
  rewrite (linear_solve_exhausted L W _ H). reflexivity.
Qed.

Lemma iterations_step (P : Problem) (L : Library) (W : World) (r : nat) (st : State) :
  IncrementalStokes.iterations P L W (S r) st
  = (b <- IncrementalStokes.iteration P L W st ;;
     if snd b then Returned (fst b)
     else IncrementalStokes.iterations P L W r (with_iter (fst b) (S (iter (fst b))))).
Proof. reflexivity. Qed.

(** C1, as the code has it.  Neither solve handles the solver's
    exception.  When every residual up to the step budget stays above the
    tolerance, the Krylov solver raises [NoConvergence] at the last step
    and the exception leaves [Stokes<dim>::solve()], the loop body and the
    loop of [IncrementalStokes<dim>::solve()].  When some step within the
    budget meets the tolerance, the solve returns with the iterate of the
    first such step and prints its number.  In both cases the solver stops
    within its budget. *)
Theorem krylov_exhaustion_is_raised
    (P : Problem) (L : Library) (W : World) (st : State) :
  let tol_s := tolerance (Stokes.solver_control P st) in
  let res_s := fun k => snd (Stokes.iterates P L st k) in
  let st_a := IncrementalStokes.assemble_and_report P L W st in
  let budget := max_steps IncrementalStokes.solver_control in
  let tol_i := tolerance IncrementalStokes.solver_control in
  let res_i := fun k => snd (IncrementalStokes.iterates L W st_a k) in
  ((forall k, (k <= 2000)%nat -> tol_s < res_s k) ->
     Stokes.solve P L st = Thrown (NoConvergence 2000 (res_s 2000%nat)))
  /\ (forall k, (k <= 2000)%nat -> res_s k <= tol_s ->
        (forall j, (j < k)%nat -> tol_s < res_s j) ->
        exists s, Stokes.solve P L st = Returned s
                  /\ solution s = fst (Stokes.iterates P L st k)
                  /\ cout s = cout st ++ [GmresIterations k])
  /\ ((forall k, (k <= budget)%nat -> tol_i < res_i k) ->
        IncrementalStokes.iteration P L W st
        = Thrown (NoConvergence budget (res_i budget))
        /\ forall r, IncrementalStokes.iterations P L W (S r) st
                     = Thrown (NoConvergence budget (res_i budget)))
  /\ (forall k, (k <= budget)%nat -> res_i k <= tol_i ->
        (forall j, (j < k)%nat -> tol_i < res_i j) ->
        exists s stop, IncrementalStokes.iteration P L W st = Returned (s, stop)
                       /\ solution s
                          = distribute (dirichlet W)
                              (fst (IncrementalStokes.iterates L W st_a k))
                       /\ In (GmresIterations k) (cout s))
  /\ ((exists s, Stokes.solve P L st = Returned s)
      \/ (exists k r, Stokes.solve P L st = Thrown (NoConvergence k r)
                      /\ (k <= 2000)%nat))
  /\ ((exists b, IncrementalStokes.iteration P L W st = Returned b)
      \/ (exists k r, IncrementalStokes.iteration P L W st = Thrown (NoConvergence k r)
                      /\ (k <= budget)%nat)).
Proof.
  intros tol_s res_s st_a budget tol_i res_i.
  split; [|split; [|split; [|split; [|split]]]].
  - apply stokes_solve_exhausted.
  - intros k Hk Hle Hb.
    rewrite (stokes_solve_converged P L st k Hk Hle Hb).
    eexists. split; [reflexivity|]. split; reflexivity.
  - intros H. pose proof (iteration_exhausted P L W st H) as E.
    split; [exact E|]. intros r.
    rewrite iterations_step, E. reflexivity.
  - intros k Hk Hle Hb.
    rewrite iteration_unfold. fold st_a.
    rewrite (linear_solve_converged L W st_a k Hk Hle Hb).
    cbn [bind]. eexists. eexists. split; [reflexivity|].
    split; [reflexivity|].
    cbn [fst]. rewrite measure_update_cout. apply in_or_app. left.
    simpl. apply in_or_app. right. left. reflexivity.
  - unfold Stokes.solve, SolverGMRES_solve.
    destruct (gmres_from_bounded (Stokes.solver_control P st) (Stokes.iterates P L st)
                (max_steps (Stokes.solver_control P st)) 0 (Nat.add_0_l _))
      as [(x & k & E & _)|(k & r & E & Hk & _)]; rewrite E.
    + left. eexists. reflexivity.
    + right. exists k, r. split; [reflexivity|exact Hk].
  - rewrite iteration_unfold. fold st_a.
    unfold IncrementalStokes.linear_solve, SolverGMRES_solve.
    cbn [with_solution_owned sys solution_owned].
    fold (IncrementalStokes.iterates L W st_a).
    destruct (gmres_from_bounded IncrementalStokes.solver_control
                (IncrementalStokes.iterates L W st_a)
                (max_steps IncrementalStokes.solver_control) 0 (Nat.add_0_l _))
      as [(x & k & E & _)|(k & r & E & Hk & _)]; rewrite E.
    + left. eexists. reflexivity.
    + right. exists k, r. split; [reflexivity|exact Hk].
Qed.

Lemma stalled_stokes_residuals (k : nat) :
  tolerance (Stokes.solver_control (sample_problem 0) singular_state)
  < snd (Stokes.iterates (sample_problem 0) (sample_library stalled 0)
           singular_state k).
Proof.
  unfold Stokes.solver_control, Stokes.iterates.
  cbn [tolerance singular_state sys system_rhs krylov sample_library stalled snd].
  unfold l2_norm, unit_rhs. simpl.
  replace (0 + 1 * 1 + 0 * 0) with 1 by lra. rewrite sqrt_1. lra.
Qed.

Lemma stalled_picard_residuals (W : World) (st : State) (k : nat) :
  tolerance IncrementalStokes.solver_control
  < snd (IncrementalStokes.iterates (sample_library stalled 0) W st k).
Proof.
  unfold IncrementalStokes.solver_control, IncrementalStokes.iterates.
  cbn [tolerance krylov sample_library stalled snd]. lra.
Qed.

Lemma krylov_exhaustion_is_raised_witness :
  Stokes.solve (sample_problem 0) (sample_library stalled 0) singular_state
  = Thrown (NoConvergence 2000
              (snd (Stokes.iterates (sample_problem 0) (sample_library stalled 0)
                      singular_state 2000))).
Proof.
  apply (krylov_exhaustion_is_raised (sample_problem 0) (sample_library stalled 0)
           sample_world singular_state).
  intros k _. apply stalled_stokes_residuals.
Defined.

(** C1, counterexample to the claim as stated: on a system that no vector
    solves the Krylov iteration makes no progress, and neither the Stokes
    solve nor the linear solve of a Picard pass returns. *)
Lemma exhausted_budget_does_not_return :
  (forall s, Stokes.solve (sample_problem 0) (sample_library stalled 0)
               singular_state <> Returned s)
  /\ (forall s, IncrementalStokes.linear_solve (sample_library stalled 0)
                  sample_world singular_state <> Returned s).
Proof.
  split; intros s.
  - rewrite stokes_solve_exhausted by (intros k _; apply stalled_stokes_residuals).
    discriminate.
  - rewrite linear_solve_exhausted by (intros k _; apply stalled_picard_residuals).
    discriminate.
Qed.

(** ** The measured norm *)

Lemma local_sum_eq (P : Problem) (w : Worker) (v : Vec) :
  IncrementalStokes.local_sum P w v
  = Rsum (n_dofs P) (fun k => IncrementalStokes.el w v k * IncrementalStokes.el w v k).
Proof.
  unfold IncrementalStokes.local_sum.
  induction (n_dofs P) as [|n IH]; simpl; [reflexivity|].
  rewrite IH. reflexivity.
Qed.

Lemma fold_left_Rplus (l : list R) (a : R) :
  fold_left Rplus l a = a + fold_left Rplus l 0.
Proof.
  revert a. induction l as [|x l IH]; intros a; simpl; [lra|].
  rewrite (IH (a + x)), (IH (0 + x)). lra.
Qed.

(** The reduced sum counts the square of every entry at least once per
    process that holds the entry, whatever the reads of entries that are
    not held find. *)
Lemma global_sum_at_least_holders (P : Problem) (W : World) (v : Vec) :
  Rsum (n_dofs P) (fun k => INR (holders W k) * (v k * v k))
  <= MPI_SUM (map (fun w => IncrementalStokes.local_sum P w v) (workers W)).
Proof.
  assert (Hle : forall n (f g : nat -> R),
            (forall k, (k < n)%nat -> f k <= g k) -> Rsum n f <= Rsum n g).
  { induction n as [|n IH]; intros f g H; simpl; [lra|].
    pose proof (H n (Nat.lt_succ_diag_r n)).
    assert (Rsum n f <= Rsum n g) by (apply IH; intros; apply H; lia).
    lra. }
  unfold MPI_SUM, holders. induction (workers W) as [|w ws IH]; simpl.
  - rewrite Rsum_zero; [lra|]. intros. lra.
  - rewrite fold_left_Rplus, local_sum_eq, Rplus_0_l.
    apply Rle_trans with
      (Rsum (n_dofs P) (fun k =>
         IncrementalStokes.el w v k * IncrementalStokes.el w v k)
       + Rsum (n_dofs P) (fun k =>
           INR (length (filter (fun w0 => locally_relevant_dofs w0 k) ws))
           * (v k * v k))); [|lra].
    rewrite <- Rsum_plus. apply Hle. intros k _.
    unfold IncrementalStokes.el.
    destruct (locally_relevant_dofs w k).
    + change (length (w :: filter (fun w0 => locally_relevant_dofs w0 k) ws))
        with (S (length (filter (fun w0 => locally_relevant_dofs w0 k) ws))).
      rewrite S_INR. lra.
    + pose proof (Rle_0_sqr (non_local_element w v k)) as Hsq.
      unfold Rsqr in Hsq. lra.
Qed.

(** When every process holds every unknown, the reduced sum counts the
    square of every entry once per process that holds the entry. *)
Lemma global_sum_counts_holders (P : Problem) (W : World) (v : Vec) :
  holds_every_unknown P W ->
  MPI_SUM (map (fun w => IncrementalStokes.local_sum P w v) (workers W))
  = Rsum (n_dofs P) (fun k => INR (holders W k) * (v k * v k)).
Proof.
  unfold holds_every_unknown, MPI_SUM, holders.
  induction (workers W) as [|w ws IH]; intros Hheld; simpl.
  - symmetry. apply Rsum_zero. intros. lra.
  - rewrite fold_left_Rplus, IH, local_sum_eq, Rplus_0_l, <- Rsum_plus.
    + apply Rsum_ext. intros k Hk. unfold IncrementalStokes.el.
      rewrite (Hheld w k (or_introl eq_refl) Hk).
      change (length (w :: filter (fun w0 => locally_relevant_dofs w0 k) ws))
        with (S (length (filter (fun w0 => locally_relevant_dofs w0 k) ws))).
      rewrite S_INR. lra.
    + intros w' k Hw'. apply Hheld. right. exact Hw'.
Qed.

(** With every unknown held by exactly one process, which reads nothing
    else, the measured norm is the norm of the whole vector. *)
Lemma measure_without_ghosts (P : Problem) (W : World) (v : Vec) :
  holds_every_unknown P W ->
  (forall k, (k < n_dofs P)%nat -> holders W k = 1%nat) ->
  IncrementalStokes.measure P W v = l2_norm (n_dofs P) v.
Proof.
  intros Hheld H1. unfold IncrementalStokes.measure, l2_norm.
  rewrite global_sum_counts_holders by exact Hheld. f_equal.
  apply Rsum_ext. intros k Hk. rewrite (H1 k Hk). simpl. lra.
Qed.

Lemma measure_of_zero (P : Problem) (W : World) (v : Vec) :
  holds_every_unknown P W ->
  (forall k, (k < n_dofs P)%nat -> v k = 0) ->
  IncrementalStokes.measure P W v = 0.
Proof.
  intros Hheld Hz. unfold IncrementalStokes.measure.
  rewrite global_sum_counts_holders by exact Hheld.
  rewrite Rsum_zero; [apply sqrt_0|].
  intros k Hk. rewrite (Hz k Hk). lra.
Qed.

Lemma sample_world_holds_every_unknown (p : R) :
  holds_every_unknown (sample_problem p) sample_world.
Proof. intros w k [<-|[]] _. reflexivity. Qed.

Lemma two_process_world_holds_every_unknown (p : R) :
  holds_every_unknown (sample_problem p) two_process_world.
Proof. intros w k [<-|[<-|[]]] _; reflexivity. Qed.

(** ** The Picard loop *)

Lemma update_norms_app (l1 l2 : list Line) :
  update_norms (l1 ++ l2) = update_norms l1 ++ update_norms l2.
Proof.
  induction l1 as [|[i v|k|v|i] l1 IH]; simpl; rewrite ?IH; reflexivity.
Qed.

Lemma linear_solve_returned (L : Library) (W : World) (st st1 : State) :
  IncrementalStokes.linear_solve L W st = Returned st1 ->
  exists x k,
    st1 = with_solution
            (print (with_solution_owned st (distribute (dirichlet W) x))
                   (GmresIterations k))
            (distribute (dirichlet W) x).
Proof.
  unfold IncrementalStokes.linear_solve.
  destruct (SolverGMRES_solve _ _) as [[x k]|e]; cbn [bind]; intros E;
    [|discriminate].
  injection E as <-. exists x, k. reflexivity.
Qed.

Lemma linear_solve_keeps (L : Library) (W : World) (st st1 : State) :
  IncrementalStokes.linear_solve L W st = Returned st1 ->
  iter st1 = iter st
  /\ update_norms (cout st1) = update_norms (cout st)
  /\ solution_old st1 = solution_old st.
Proof.
  intros E. destruct (linear_solve_returned L W st st1 E) as (x & k & ->).
  cbn [iter cout solution_old with_solution print with_solution_owned].
  rewrite update_norms_app. simpl. rewrite app_nil_r. repeat split; reflexivity.
Qed.

Lemma assemble_and_report_keeps (P : Problem) (L : Library) (W : World) (st : State) :
  iter (IncrementalStokes.assemble_and_report P L W st) = iter st
  /\ update_norms (cout (IncrementalStokes.assemble_and_report P L W st))
     = update_norms (cout st)
  /\ solution_old (IncrementalStokes.assemble_and_report P L W st) = solution_old st.
Proof.
  unfold IncrementalStokes.assemble_and_report.
  cbn [iter cout solution_old print].
  rewrite update_norms_app. simpl. rewrite app_nil_r. repeat split; reflexivity.
Qed.

Lemma measure_update_keeps (P : Problem) (W : World) (st : State) :
  iter (fst (IncrementalStokes.measure_update P W st)) = iter st
  /\ solution (fst (IncrementalStokes.measure_update P W st)) = solution st
  /\ solution_old (fst (IncrementalStokes.measure_update P W st)) = solution st.
Proof. repeat split; reflexivity. Qed.

(** What one pass that returns has done. *)
Lemma iteration_returned (P : Problem) (L : Library) (W : World)
    (st s : State) (stop : bool) :
  IncrementalStokes.iteration P L W st = Returned (s, stop) ->
  exists st1,
    IncrementalStokes.linear_solve L W (IncrementalStokes.assemble_and_report P L W st)
    = Returned st1
    /\ s = fst (IncrementalStokes.measure_update P W st1)
    /\ (stop = true <->
        snd (IncrementalStokes.measure_update P W st1) < IncrementalStokes.update_tol)
    /\ update_norms (cout s)
       = update_norms (cout st) ++ [snd (IncrementalStokes.measure_update P W st1)]
    /\ iter s = iter st
    /\ solution_old s = solution s.
Proof.
  rewrite iteration_unfold.
  destruct (IncrementalStokes.linear_solve L W _) as [st1|e] eqn:E; cbn [bind];
    intros H; [|discriminate].
  injection H as <- <-. exists st1. split; [reflexivity|].
  split; [reflexivity|]. split.
  { destruct (Rlt_dec _ _); split; intros; try assumption; try reflexivity;
      try discriminate; contradiction. }
  destruct (linear_solve_keeps L W _ st1 E) as (Hi & Hc & _).
  destruct (assemble_and_report_keeps P L W st) as (Hi' & Hc' & _).
  destruct (measure_update_keeps P W st1) as (Hi'' & Hs & Ho).
  split; [|split].
  - cbn [cout print with_solution_old with_new_res].
    rewrite !update_norms_app, Hc, Hc'. simpl. rewrite app_nil_r. reflexivity.
  - change (iter st1 = iter st). rewrite Hi, Hi'. reflexivity.
  - reflexivity.
Qed.

(** How a run of the loop that returns has ended: through the [break]
    after the norm test, or through the loop test. *)
Lemma iterations_trace (P : Problem) (L : Library) (W : World) (n : nat) :
  forall st s,
    IncrementalStokes.iterations P L W n st = Returned s ->
    exists norms,
      update_norms (cout s) = update_norms (cout st) ++ norms
      /\ ((norms <> []
           /\ (iter s + 1 = iter st + length norms)%nat
           /\ (length norms <= n)%nat
           /\ last norms 0 < IncrementalStokes.update_tol
           /\ Forall (fun v => ~ v < IncrementalStokes.update_tol) (removelast norms))
          \/ (iter s = iter st + n)%nat
             /\ length norms = n
             /\ Forall (fun v => ~ v < IncrementalStokes.update_tol) norms).
Proof.
  induction n as [|r IH]; intros st s.
  - simpl. intros E. injection E as <-. exists []. split.
    + rewrite app_nil_r. reflexivity.
    + right. repeat split; [lia|constructor].
  - rewrite iterations_step.
    destruct (IncrementalStokes.iteration P L W st) as [[s' stop]|e] eqn:E;
      cbn [bind fst snd]; [|discriminate].
    destruct (iteration_returned P L W st s' stop E)
      as (st1 & _ & _ & Hstop & Hn & Hi & _).
    set (v := snd (IncrementalStokes.measure_update P W st1)) in *.
    destruct stop.
    + intros H. injection H as <-. exists [v]. split; [exact Hn|].
      left. simpl. repeat split; try lia; try discriminate.
      * apply Hstop. reflexivity.
      * constructor.
    + intros H. destruct (IH _ _ H) as (norms & Hc & Hcase).
      assert (Hv : ~ v < IncrementalStokes.update_tol).
      { intros Hlt. apply Hstop in Hlt. discriminate. }
      cbn [cout iter with_iter] in Hc, Hcase.
      exists (v :: norms). split.
      * rewrite Hc, Hn, <- app_assoc. reflexivity.
      * destruct Hcase as [(Hne & Hit & Hlen & Hlast & Hall)|(Hit & Hlen & Hall)].
        -- left. destruct norms as [|w norms]; [contradiction|].
           repeat split; try discriminate.
           ++ simpl in *. lia.
           ++ simpl in *. lia.
           ++ exact Hlast.
           ++ change (removelast (v :: w :: norms)) with (v :: removelast (w :: norms)).
              constructor; assumption.
        -- right. repeat split.
           ++ lia.
           ++ simpl. lia.
           ++ constructor; assumption.
Qed.

Lemma iterations_previous_is_current (P : Problem) (L : Library) (W : World) (n : nat) :
  forall st s,
    solution_old st = solution st \/ (0 < n)%nat ->
    IncrementalStokes.iterations P L W n st = Returned s ->
    solution_old s = solution s.
Proof.
  induction n as [|r IH]; intros st s Hst.
  - simpl. intros E. injection E as <-. destruct Hst as [H|H]; [exact H|lia].
  - rewrite iterations_step.
    destruct (IncrementalStokes.iteration P L W st) as [[s' stop]|e] eqn:E;
      cbn [bind fst snd]; [|discriminate].
    destruct (iteration_returned P L W st s' stop E) as (st1 & _ & _ & _ & _ & _ & Ho).
    destruct stop.
    + intros H. injection H as <-. exact Ho.
    + apply IH. left. exact Ho.
Qed.

(** When every linear solve returns, so does the loop. *)
Lemma iterations_returns (P : Problem) (L : Library) (W : World) :
  (forall st0, exists st1, IncrementalStokes.linear_solve L W st0 = Returned st1) ->
  forall n st, exists s, IncrementalStokes.iterations P L W n st = Returned s.
Proof.
  intros Hls. induction n as [|r IH]; intros st.
  - exists st. reflexivity.
  - rewrite iterations_step, iteration_unfold.
    destruct (Hls (IncrementalStokes.assemble_and_report P L W st)) as [st1 E].
    rewrite E. cbn [bind fst snd].
    destruct (Rlt_dec _ _).
    + eexists. reflexivity.
    + apply IH.
Qed.

Lemma last_indep {A : Type} (l : list A) (d d' : A) :
  l <> [] -> last l d = last l d'.
Proof.
  induction l as [|a [|b l] IH]; intros Hne; [contradiction|reflexivity|].
  change (last (b :: l) d = last (b :: l) d'). apply IH. discriminate.
Qed.

Lemma last_In {A : Type} (l : list A) (d : A) :
  l <> [] -> In (last l d) l.
Proof.
  induction l as [|a [|b l] IH]; intros Hne; [contradiction|left; reflexivity|].
  right. change (In (last (b :: l) d) (b :: l)). apply IH. discriminate.
Qed.

Lemma last_cons_default {A : Type} (l : list A) (a d : A) :
  last (a :: l) d = last l a.
Proof.
  destruct l as [|b l]; [reflexivity|].
  change (last (b :: l) d = last (b :: l) a). apply last_indep. discriminate.
Qed.

Lemma update_measures_length (P : Problem) (W : World) (currents : list Vec) :
  forall previous,
    length (update_measures P W previous currents) = length currents.
Proof.
  induction currents as [|u currents IH]; intros previous; simpl;
    [|rewrite IH]; reflexivity.
Qed.

(** One pass that returns: the iterate it leaves is the one its linear
    solve returned for the system assembled about the previous iterate, the
    norm it prints and tests is the measure of current - previous, and the
    current iterate has become the previous one. *)
Lemma iteration_pass (P : Problem) (L : Library) (W : World)
    (st s : State) (stop : bool) :
  IncrementalStokes.iteration P L W st = Returned (s, stop) ->
  (exists st1,
     IncrementalStokes.linear_solve L W (IncrementalStokes.assemble_and_report P L W st)
     = Returned st1
     /\ solution s = solution st1)
  /\ solution_old s = solution s
  /\ iter s = iter st
  /\ update_norms (cout s)
     = update_norms (cout st)
       ++ [IncrementalStokes.measure P W (fun k => solution s k - solution_old st k)]
  /\ (stop = true <->
      IncrementalStokes.measure P W (fun k => solution s k - solution_old st k)
      < IncrementalStokes.update_tol).
Proof.
  intros E.
  destruct (iteration_returned P L W st s stop E)
    as (st1 & E1 & Hs & Hstop & Hn & Hi & Ho).
  destruct (linear_solve_keeps L W _ st1 E1) as (_ & _ & Hold).
  destruct (assemble_and_report_keeps P L W st) as (_ & _ & Hold').
  destruct (measure_update_keeps P W st1) as (_ & Hsol & _).
  assert (Hm : snd (IncrementalStokes.measure_update P W st1)
               = IncrementalStokes.measure P W
                   (fun k => solution s k - solution_old st k)).
  { cbn [snd IncrementalStokes.measure_update new_res with_new_res solution
         solution_old].
    f_equal. apply functional_extensionality. intros k.
    rewrite Hs, Hsol, Hold, Hold'. lra. }
  split; [exists st1; split; [exact E1|rewrite Hs; exact Hsol]|].
  split; [exact Ho|]. split; [exact Hi|].
  rewrite <- Hm. split; [exact Hn | exact Hstop].
Qed.

(** The iterates of a run that returns, pass after pass, and the norms it
    printed: the measures of current - previous along them. *)
Lemma iterations_passes (P : Problem) (L : Library) (W : World) (n : nat) :
  forall st s,
    IncrementalStokes.iterations P L W n st = Returned s ->
    exists currents,
      update_norms (cout s)
      = update_norms (cout st) ++ update_measures P W (solution_old st) currents
      /\ solution_old s = last currents (solution_old st).
Proof.
  induction n as [|r IH]; intros st s.
  - simpl. intros E. injection E as <-. exists []. split.
    + simpl. rewrite app_nil_r. reflexivity.
    + reflexivity.
  - rewrite iterations_step.
    destruct (IncrementalStokes.iteration P L W st) as [[s' stop]|e] eqn:E;
      cbn [bind fst snd]; [|discriminate].
    destruct (iteration_pass P L W st s' stop E) as (_ & Ho & _ & Hn & _).
    destruct stop.
    + intros H. injection H as <-. exists [solution s']. split.
      * exact Hn.
      * exact Ho.
    + intros H. destruct (IH _ _ H) as (currents & Hc & Hl).
      cbn [cout solution_old with_iter] in Hc, Hl.
      exists (solution s' :: currents). split.
      * rewrite Hc, Hn, <- app_assoc, Ho. reflexivity.
      * rewrite last_cons_default, <- Ho. exact Hl.
Qed.

(** C5.  Each pass of the loop that returns tests the measure of
    current - previous, current being what the linear solve returned for the
    system assembled about the previous iterate, and leaves the current
    iterate as the previous one.  A run of [solve()] that returns has made
    at least one and at most [maxIter = 10] passes; the norms it printed are
    the measures of current - previous along the iterates of its passes;
    it ends below the cap ([iter < maxIter]) exactly when the norm measured
    last is below [update_tol = 1e-7], every earlier norm being not below
    it, and otherwise with [iter = maxIter] after ten passes none of whose
    norms is below the tolerance; at the end the previous iterate is the
    solution.  On one process that holds every unknown the measure is the
    Euclidean norm.  And the loop does return whenever its linear solves
    do. *)
Theorem picard_loop_stops (P : Problem) (L : Library) (W : World) (st : State) :
  IncrementalStokes.maxIter = 10%nat
  /\ IncrementalStokes.update_tol = 1 / 10000000
  /\ (forall st0 s stop,
        IncrementalStokes.iteration P L W st0 = Returned (s, stop) ->
        (exists st1,
           IncrementalStokes.linear_solve L W
             (IncrementalStokes.assemble_and_report P L W st0) = Returned st1
           /\ solution s = solution st1)
        /\ solution_old s = solution s
        /\ iter s = iter st0
        /\ (stop = true <->
            IncrementalStokes.measure P W (fun k => solution s k - solution_old st0 k)
            < IncrementalStokes.update_tol))
  /\ (forall s, IncrementalStokes.solve P L W st = Returned s ->
        exists currents,
          currents <> []
          /\ (length currents <= IncrementalStokes.maxIter)%nat
          /\ solution s = last currents (solution_old st)
          /\ solution_old s = solution s
          /\ update_norms (cout s)
             = update_norms (cout st)
               ++ update_measures P W (solution_old st) currents
          /\ (stopped_by_norm s (update_measures P W (solution_old st) currents)
              \/ stopped_by_cap s (update_measures P W (solution_old st) currents))
          /\ ((iter s < IncrementalStokes.maxIter)%nat
              <-> last (update_measures P W (solution_old st) currents)
                       IncrementalStokes.update_tol
                  < IncrementalStokes.update_tol))
  /\ (forall w v, workers W = [w] -> holds_every_unknown P W ->
        IncrementalStokes.measure P W v = l2_norm (n_dofs P) v)
  /\ ((forall st0, exists st1, IncrementalStokes.linear_solve L W st0 = Returned st1) ->
      exists s, IncrementalStokes.solve P L W st = Returned s).
Proof.
  split; [reflexivity|]. split; [reflexivity|]. split; [|split; [|split]].
  - intros st0 s stop E.
    destruct (iteration_pass P L W st0 s stop E) as (H1 & H2 & H3 & _ & H5).
    repeat split; try assumption; apply H5.
  - intros s E. unfold IncrementalStokes.solve in E.
    assert (Hpos : (0 < IncrementalStokes.maxIter)%nat)
      by (unfold IncrementalStokes.maxIter, Incremental_stokes_hpp.maxIter; lia).
    pose proof (iterations_previous_is_current P L W _ _ _ (or_intror Hpos) E) as Hold.
    destruct (iterations_passes P L W _ _ _ E) as (currents & Hc' & Hl).
    destruct (iterations_trace P L W _ _ _ E) as (norms & Hc & Hcase).
    cbn [cout iter solution_old with_iter] in Hc, Hcase, Hc', Hl.
    assert (Hnorms : norms = update_measures P W (solution_old st) currents).
    { rewrite Hc in Hc'. apply app_inv_head in Hc'. exact Hc'. }
    assert (Hlen : length currents = length norms).
    { rewrite Hnorms. symmetry. apply update_measures_length. }
    assert (Hne : norms <> []).
    { destruct Hcase as [(Hne & _)|(_ & Hlen' & _)]; [exact Hne|].
      intros ->. unfold IncrementalStokes.maxIter, Incremental_stokes_hpp.maxIter in Hlen'.
      discriminate. }
    exists currents. rewrite <- Hnorms.
    split; [intros ->; destruct norms; [contradiction|discriminate]|].
    split.
    { rewrite Hlen.
      destruct Hcase as [(_ & _ & Hle & _)|(_ & Hle & _)]; [exact Hle|lia]. }
    split; [rewrite <- Hold; exact Hl|]. split; [exact Hold|].
    split; [exact Hc|].
    destruct Hcase as [(_ & Hit & Hle & Hlast & Hall)|(Hit & Hle & Hall)].
    + split.
      * left. unfold stopped_by_norm. repeat split; try assumption; lia.
      * split; intros _; [|lia].
        rewrite (last_indep norms _ 0 Hne). exact Hlast.
    + split.
      * right. unfold stopped_by_cap. repeat split; assumption.
      * split; intros H; [lia|]. exfalso.
        rewrite Forall_forall in Hall.
        apply (Hall (last norms IncrementalStokes.update_tol)); [|exact H].
        apply last_In. exact Hne.
  - intros w v Hw Hheld. apply measure_without_ghosts; [exact Hheld|].
    intros k Hk. unfold holders. rewrite Hw. simpl.
    rewrite (Hheld w k); [reflexivity| rewrite Hw; left; reflexivity | exact Hk].
  - intros Hls. apply (iterations_returns P L W Hls).
Qed.

Lemma converged_linear_solve_returns (W : World) (st0 : State) :
  exists st1,
    IncrementalStokes.linear_solve (sample_library converged 0) W st0 = Returned st1.
Proof.
  eexists. apply (linear_solve_converged (sample_library converged 0) W st0 0).
  - lia.
  - unfold IncrementalStokes.iterates, IncrementalStokes.solver_control.
    cbn [krylov sample_library converged snd tolerance]. lra.
  - intros j Hj. lia.
Qed.

Lemma picard_loop_stops_witness :
  exists s,
    IncrementalStokes.solve (sample_problem 0) (sample_library converged 0)
      sample_world (sample_state vec_zero) = Returned s.
Proof.
  apply (picard_loop_stops (sample_problem 0) (sample_library converged 0)
           sample_world (sample_state vec_zero)).
  intros st0. apply converged_linear_solve_returns.
Defined.

(** C9.  The test before the solve compares [update_tol + 1.0] with
    [update_tol] and never succeeds.  So every pass of the loop is: the
    assembly, the linear solve, the measure of the update; its [break] flag
    is the outcome of the norm test after the solve; and a run that returns
    has ended either at that test or at the cap [iter = maxIter]. *)
Theorem presolve_break_is_unreachable
    (P : Problem) (L : Library) (W : World) (st : State) :
  ~ (IncrementalStokes.update_tol + 1 < IncrementalStokes.update_tol)
  /\ IncrementalStokes.iteration P L W st
     = (st1 <- IncrementalStokes.linear_solve L W
                 (IncrementalStokes.assemble_and_report P L W st) ;;
        Returned (fst (IncrementalStokes.measure_update P W st1),
                  if Rlt_dec (snd (IncrementalStokes.measure_update P W st1))
                             IncrementalStokes.update_tol
                  then true else false))
  /\ (forall s stop,
        IncrementalStokes.iteration P L W st = Returned (s, stop) ->
        exists st1,
          IncrementalStokes.linear_solve L W
            (IncrementalStokes.assemble_and_report P L W st) = Returned st1
          /\ s = fst (IncrementalStokes.measure_update P W st1)
          /\ (stop = true <->
              snd (IncrementalStokes.measure_update P W st1)
              < IncrementalStokes.update_tol))
  /\ (forall s, IncrementalStokes.solve P L W st = Returned s ->
        exists norms,
          update_norms (cout s) = update_norms (cout st) ++ norms
          /\ (stopped_by_norm s norms \/ stopped_by_cap s norms)).
Proof.
  split; [exact update_tol_plus_one|]. split; [apply iteration_unfold|]. split.
  - intros s stop E.
    destruct (iteration_returned P L W st s stop E) as (st1 & E1 & Es & Hstop & _).
    exists st1. repeat split; try assumption; apply Hstop.
  - intros s E. unfold IncrementalStokes.solve in E.
    destruct (iterations_trace P L W _ _ _ E) as (norms & Hc & Hcase).
    cbn [cout iter with_iter] in Hc, Hcase.
    exists norms. split; [exact Hc|].
    destruct Hcase as [(Hne & Hit & Hlen & Hlast & Hall)|(Hit & Hlen & Hall)].
    + left. unfold stopped_by_norm. repeat split; try assumption; lia.
    + right. unfold stopped_by_cap. repeat split; assumption.
Qed.

Lemma presolve_break_is_unreachable_witness :
  exists s norms,
    IncrementalStokes.solve (sample_problem 0) (sample_library converged 0)
      sample_world (sample_state vec_zero) = Returned s
    /\ update_norms (cout s) = norms
    /\ (stopped_by_norm s norms \/ stopped_by_cap s norms).
Proof.
  destruct (iterations_returns (sample_problem 0) (sample_library converged 0)
              sample_world (converged_linear_solve_returns sample_world)
              IncrementalStokes.maxIter (with_iter (sample_state vec_zero) 0))
    as [s E].
  destruct (presolve_break_is_unreachable (sample_problem 0)
              (sample_library converged 0) sample_world (sample_state vec_zero))
    as (_ & _ & _ & Hrun).
  destruct (Hrun s E) as (norms & Hc & Hcase).
  exists s, norms. split; [exact E|]. split; [exact Hc|exact Hcase].
Defined.

(** ** The measured norm on two processes *)

(** C2, the code at two processes that each hold the other's unknown as a
    ghost: for the update [(3, 4)] the measured norm is [sqrt 50], while
    the norm of the update is [5]. *)
Theorem ghost_entries_are_counted_per_holder :
  IncrementalStokes.measure (sample_problem 0) two_process_world three_four = sqrt 50
  /\ l2_norm (n_dofs (sample_problem 0)) three_four = 5
  /\ IncrementalStokes.measure (sample_problem 0) two_process_world three_four
     <> l2_norm (n_dofs (sample_problem 0)) three_four.
Proof.
  assert (Hm : IncrementalStokes.measure (sample_problem 0) two_process_world three_four
               = sqrt 50).
  { unfold IncrementalStokes.measure.
    rewrite global_sum_counts_holders
      by apply two_process_world_holds_every_unknown.
    f_equal. unfold holders, three_four. simpl. lra. }
  assert (Hl : l2_norm (n_dofs (sample_problem 0)) three_four = 5).
  { unfold l2_norm, three_four. simpl.
    replace (0 + 3 * 3 + 4 * 4) with (5 * 5) by lra.
    apply sqrt_square. lra. }
  split; [exact Hm|]. split; [exact Hl|].
  rewrite Hm, Hl. intros E.
  assert (Hlt : sqrt (5 * 5) < sqrt 50) by (apply sqrt_lt_1; lra).
  rewrite sqrt_square in Hlt by lra. lra.
Qed.






(** *** An instance with a fixed point *)










(** ** The point pressure *)

Lemma fold_left_Rmax_ge (l : list R) (a : R) :
  a <= fold_left Rmax l a /\ forall x, In x l -> x <= fold_left Rmax l a.
Proof.
  revert a. induction l as [|y l IH]; intros a; simpl.
  - split; [lra|intros x []].
  - destruct (IH (Rmax a y)) as [Ha Hl]. split.
    + pose proof (Rmax_l a y). lra.
    + intros x [<-|Hx]; [|apply Hl; exact Hx].
      pose proof (Rmax_r a y). lra.
Qed.

Lemma fold_left_Rmax_in (l : list R) (a : R) :
  fold_left Rmax l a = a \/ In (fold_left Rmax l a) l.
Proof.
  revert a. induction l as [|y l IH]; intros a; simpl; [left; reflexivity|].
  destruct (IH (Rmax a y)) as [E|Hin]; [|right; right; exact Hin].
  rewrite E. unfold Rmax. destruct (Rle_dec a y); [right; left|left]; reflexivity.
Qed.

(** [MPI_MAX] returns the greatest of the values it is given. *)
Lemma MPI_MAX_is_greatest (l : list R) :
  l <> [] ->
  In (MPI_MAX l) l /\ forall x, In x l -> x <= MPI_MAX l.
Proof.
  destruct l as [|a l]; [contradiction|]. intros _. unfold MPI_MAX. split.
  - destruct (fold_left_Rmax_in l a) as [E|Hin]; [left; symmetry; exact E|right; exact Hin].
  - destruct (fold_left_Rmax_ge l a) as [Ha Hl].
    intros x [<-|Hx]; [exact Ha|apply Hl; exact Hx].
Qed.

(** When one process contributes the value [v] and every other process
    contributes zero, rank 0 receives the larger of [v] and [0]. *)
Lemma pick_maximum_of_value_and_zeros (l : list R) (v : R) :
  In v l -> In 0 l -> (forall x, In x l -> x = v \/ x = 0) ->
  MPI_MAX l = Rmax v 0.
Proof.
  intros Hv H0 Hall.
  assert (Hne : l <> []) by (intros ->; destruct Hv).
  destruct (MPI_MAX_is_greatest l Hne) as [Hin Hge].
  pose proof (Hge v Hv). pose proof (Hge 0 H0).
  unfold Rmax. destruct (Rle_dec v 0); destruct (Hall _ Hin); lra.
Qed.

(** When no process can evaluate the point, rank 0 receives zero. *)
Lemma pick_maximum_of_zeros (l : list R) :
  (forall x, In x l -> x = 0) -> MPI_MAX l = 0.
Proof.
  intros Hall. destruct l as [|a l]; [reflexivity|].
  apply Hall. apply MPI_MAX_is_greatest. discriminate.
Qed.

(** C7, the code at two processes of which only rank 0 can evaluate the
    point, where the pressure is [-1]: rank 0 contributes [-1], rank 1
    contributes [0], and the reduction leaves [0] on rank 0. *)
Theorem negative_point_pressure_is_lost :
  let P := sample_problem 0 in
  let L := sample_library converged 0 in
  let st := sample_state negative_pressure in
  map (fun w => IncrementalStokes.pres_point P L st w 0) (workers two_process_world)
  = [-1; 0]
  /\ IncrementalStokes.global_pres_point P L two_process_world st 0 = 0
  /\ IncrementalStokes.global_pres_point P L two_process_world st 0 <> -1.
Proof.
  intros P L st.
  assert (E : IncrementalStokes.global_pres_point P L two_process_world st 0 = 0).
  { unfold IncrementalStokes.global_pres_point, IncrementalStokes.pres_point.
    simpl. unfold negative_pressure. simpl.
    unfold Rmax. destruct (Rle_dec (-1) 0); lra. }
  split; [reflexivity|]. split; [exact E|]. rewrite E. lra.
Qed.

(* ================================================================== *)
(** * Further properties of the code *)

(** ** Which cells an assembly depends on *)

Lemma for_each_app {A St : Type} (l1 l2 : list A) (body : A -> St -> St) (s : St) :
  for_each (l1 ++ l2) body s = for_each l2 body (for_each l1 body s).
Proof. unfold for_each. apply fold_left_app. Qed.

Lemma for_each_flat_map {A B St : Type} (f : A -> list B) (l : list A)
    (body : B -> St -> St) (s : St) :
  for_each l (fun a s => for_each (f a) body s) s = for_each (flat_map f l) body s.
Proof.
  revert s. induction l as [|a l IH]; intros s; [reflexivity|].
  simpl. rewrite for_each_app. unfold for_each in *. simpl. apply IH.
Qed.

(** A loop whose body skips the elements failing a test is the loop over
    the elements that pass it. *)
Lemma for_each_filter {A St : Type} (keep : A -> bool) (l : list A)
    (body : A -> St -> St) (s : St) :
  (forall a s, keep a = false -> body a s = s) ->
  for_each l body s = for_each (filter keep l) body s.
Proof.
  intros Hskip. unfold for_each. revert s.
  induction l as [|a l IH]; intros s; simpl; [reflexivity|].
  destruct (keep a) eqn:E; simpl.
  - apply IH.
  - rewrite (Hskip a s E). apply IH.
Qed.

(** A loop whose passes commute gives the same result in any order. *)
Lemma for_each_permutation {A St : Type} (l1 l2 : list A) (body : A -> St -> St) :
  (forall a b s, body a (body b s) = body b (body a s)) ->
  Permutation l1 l2 ->
  forall s, for_each l1 body s = for_each l2 body s.
Proof.
  intros Hcomm Hperm. unfold for_each.
  induction Hperm as [|a l1 l2 _ IH|a b l|l1 l2 l3 _ IH1 _ IH2]; intros s; simpl.
  - reflexivity.
  - apply IH.
  - rewrite Hcomm. reflexivity.
  - rewrite IH1. apply IH2.
Qed.

Lemma matrix_add_comm (n1 n2 : nat) (dof1 dof2 : nat -> nat) (cm1 cm2 m : Mat) :
  matrix_add n1 dof1 cm1 (matrix_add n2 dof2 cm2 m)
  = matrix_add n2 dof2 cm2 (matrix_add n1 dof1 cm1 m).
Proof.
  apply functional_extensionality; intros a.
  apply functional_extensionality; intros b.
  rewrite !matrix_add_at. lra.
Qed.

Lemma vector_add_comm (n1 n2 : nat) (dof1 dof2 : nat -> nat) (cv1 cv2 v : Vec) :
  vector_add n1 dof1 cv1 (vector_add n2 dof2 cv2 v)
  = vector_add n2 dof2 cv2 (vector_add n1 dof1 cv1 v).
Proof.
  apply functional_extensionality; intros a.
  rewrite !vector_add_at. lra.
Qed.

Lemma stokes_cell_step_comm (P : Problem) (elem : Cell -> CellSystem)
    (c1 c2 : Cell) (g : System) :
  Stokes.cell_step P elem c1 (Stokes.cell_step P elem c2 g)
  = Stokes.cell_step P elem c2 (Stokes.cell_step P elem c1 g).
Proof.
  unfold Stokes.cell_step.
  destruct (is_locally_owned c1), (is_locally_owned c2); simpl; try reflexivity.
  f_equal; [apply matrix_add_comm | apply vector_add_comm | apply matrix_add_comm].
Qed.

Lemma stokes_cell_loops_owned (P : Problem) (elem : Cell -> CellSystem) (W : World) :
  Stokes.cell_loops P elem W
  = for_each (owned_cells W) (Stokes.cell_step P elem) zero_system.
Proof.
  unfold Stokes.cell_loops, owned_cells, all_cells.
  rewrite (for_each_flat_map cells (workers W) (Stokes.cell_step P elem)).
  apply for_each_filter. intros c g Hc. unfold Stokes.cell_step. rewrite Hc.
  reflexivity.
Qed.

(** X1.  The system the Stokes cell loops build depends on the run only
    through the collection of locally owned cells: cells a process does not
    own are skipped, and neither the split of the owned cells among the
    processes nor the order of traversal matters. *)
Theorem stokes_assembly_ignores_partition
    (P : Problem) (elem : Cell -> CellSystem) (W1 W2 : World) :
  Permutation (owned_cells W1) (owned_cells W2) ->
  Stokes.cell_loops P elem W1 = Stokes.cell_loops P elem W2.
Proof.
  intros Hperm. rewrite !stokes_cell_loops_owned.
  apply for_each_permutation; [|exact Hperm].
  intros. apply stokes_cell_step_comm.
Qed.

Lemma stokes_assembly_ignores_partition_witness :
  Stokes.cell_loops (sample_problem 0) (Stokes.element (sample_problem 0) 1)
    one_process_world
  = Stokes.cell_loops (sample_problem 0) (Stokes.element (sample_problem 0) 1)
      split_world.
Proof.
  apply stokes_assembly_ignores_partition.
  apply perm_swap.
Defined.

Lemma for_each_ext {A St : Type} (l : list A) (body1 body2 : A -> St -> St) :
  (forall a s, In a l -> body1 a s = body2 a s) ->
  forall s, for_each l body1 s = for_each l body2 s.
Proof.
  unfold for_each. induction l as [|a l IH]; intros H s; [reflexivity|].
  simpl. rewrite (H a s (or_introl eq_refl)).
  apply IH. intros a' s' Ha'. apply H. right. exact Ha'.
Qed.

(** The element arrays read the previous iterate only at the unknowns of
    the element. *)
Lemma incremental_element_reads_its_unknowns
    (P : Problem) (c : Cell) (u1 u2 : Vec) :
  (forall i, (i < dofs_per_cell P)%nat ->
     u1 (dof_indices c i) = u2 (dof_indices c i)) ->
  IncrementalStokes.element P c u1 = IncrementalStokes.element P c u2.
Proof.
  intros Hu.
  assert (Hv : IncrementalStokes.get_function_values P c u1
               = IncrementalStokes.get_function_values P c u2).
  { apply functional_extensionality; intros q.
    apply functional_extensionality; intros k.
    unfold IncrementalStokes.get_function_values. apply Rsum_ext.
    intros i Hi. rewrite (Hu i Hi). reflexivity. }
  assert (Hg : IncrementalStokes.get_function_gradients P c u1
               = IncrementalStokes.get_function_gradients P c u2).
  { apply functional_extensionality; intros q.
    apply functional_extensionality; intros k.
    apply functional_extensionality; intros l.
    unfold IncrementalStokes.get_function_gradients. apply Rsum_ext.
    intros i Hi. rewrite (Hu i Hi). reflexivity. }
  unfold IncrementalStokes.element, IncrementalStokes.volume.
  rewrite Hv, Hg. reflexivity.
Qed.

Lemma incremental_cell_loops_owned
    (P : Problem) (L : Library) (W : World) (u_old : Vec) :
  for_each (workers W)
    (fun w g => for_each (cells w)
       (IncrementalStokes.cell_step P (IncrementalStokes.element P) L
          (dirichlet W) u_old) g) (mat_zero, vec_zero)
  = for_each (owned_cells W)
      (IncrementalStokes.cell_step P (IncrementalStokes.element P) L
         (dirichlet W) u_old) (mat_zero, vec_zero).
Proof.
  unfold owned_cells, all_cells.
  rewrite (for_each_flat_map cells (workers W)
             (IncrementalStokes.cell_step P (IncrementalStokes.element P) L
                (dirichlet W) u_old)).
  apply for_each_filter. intros c g Hc.
  unfold IncrementalStokes.cell_step. rewrite Hc. reflexivity.
Qed.

(** X2.  An incremental assembly pass replaces the system matrix and the
    right-hand side and leaves every other member as it was; and the matrix
    and right-hand side it builds depend only on the values of the previous
    iterate [solution_old] at the unknowns of the locally owned cells, on
    the Dirichlet data and on the sequence of locally owned cells: ghost
    cells, the process boundaries and the rest of the state, the current
    solution included, play no part. *)
Theorem incremental_assembly_ignores_ghost_cells
    (P : Problem) (L : Library) (W1 W2 : World) (st1 st2 : State) :
  owned_cells W1 = owned_cells W2 ->
  dirichlet W1 = dirichlet W2 ->
  (forall c i, In c (owned_cells W1) -> (i < dofs_per_cell P)%nat ->
     solution_old st1 (dof_indices c i) = solution_old st2 (dof_indices c i)) ->
  IncrementalStokes.assemble P L W1 st1
  = with_sys st1
      {| system_matrix := system_matrix (sys (IncrementalStokes.assemble P L W2 st2));
         system_rhs := system_rhs (sys (IncrementalStokes.assemble P L W2 st2));
         pressure_mass := pressure_mass (sys st1) |}.
Proof.
  intros Hcells Hd Hu.
  unfold IncrementalStokes.assemble, IncrementalStokes.assemble_with.
  cbn [sys with_sys system_matrix system_rhs].
  rewrite !incremental_cell_loops_owned, <- Hcells, <- Hd.
  rewrite (for_each_ext (owned_cells W1)
             (IncrementalStokes.cell_step P (IncrementalStokes.element P) L
                (dirichlet W1) (solution_old st1))
             (IncrementalStokes.cell_step P (IncrementalStokes.element P) L
                (dirichlet W1) (solution_old st2))).
  - reflexivity.
  - intros c g Hc. unfold IncrementalStokes.cell_step.
    destruct (is_locally_owned c); [|reflexivity]. cbn [negb].
    rewrite (incremental_element_reads_its_unknowns P c
               (solution_old st1) (solution_old st2) (fun i Hi => Hu c i Hc Hi)).
    reflexivity.
Qed.

Lemma incremental_assembly_ignores_ghost_cells_witness :
  IncrementalStokes.assemble (sample_problem 0) (sample_library converged 0)
    sample_world (sample_state three_four)
  = with_sys (sample_state three_four)
      {| system_matrix :=
           system_matrix (sys (IncrementalStokes.assemble (sample_problem 0)
             (sample_library converged 0) split_corner_world other_state));
         system_rhs :=
           system_rhs (sys (IncrementalStokes.assemble (sample_problem 0)
             (sample_library converged 0) split_corner_world other_state));
         pressure_mass := mat_zero |}.
Proof.
  apply (incremental_assembly_ignores_ghost_cells (sample_problem 0)
           (sample_library converged 0) sample_world split_corner_world
           (sample_state three_four) other_state).
  - reflexivity.
  - reflexivity.
  - intros c i [<-|[]] Hi. simpl in Hi. unfold other_state, three_four. simpl.
    destruct i as [|[|i]]; [reflexivity|reflexivity|lia].
Defined.

(** ** Symmetry of the Stokes system *)

Lemma Rsum_swap (n m : nat) (f : nat -> nat -> R) :
  Rsum n (fun i => Rsum m (fun j => f i j)) = Rsum m (fun j => Rsum n (fun i => f i j)).
Proof.
  induction n as [|n IH]; simpl.
  - symmetry. apply Rsum_zero. reflexivity.
  - rewrite IH, <- Rsum_plus. reflexivity.
Qed.

Lemma scalar_product_sym (d : nat) (A B : Tensor2) :
  scalar_product d A B = scalar_product d B A.
Proof.
  unfold scalar_product. apply Rsum_ext. intros k _.
  apply Rsum_ext. intros l _. lra.
Qed.

Lemma matrix_add_symmetric (n : nat) (dof : nat -> nat) (cm m : Mat) :
  (forall i j, (i < n)%nat -> (j < n)%nat -> cm i j = cm j i) ->
  (forall a b, m a b = m b a) ->
  forall a b, matrix_add n dof cm m a b = matrix_add n dof cm m b a.
Proof.
  intros Hcm Hm a b. rewrite !matrix_add_at, (Hm a b). f_equal.
  rewrite Rsum_swap. apply Rsum_ext. intros j Hj.
  apply Rsum_ext. intros i Hi.
  rewrite andb_comm, (Hcm i j Hi Hj). reflexivity.
Qed.

(** X3.  Before the Dirichlet values are applied, the Stokes system is
    symmetric: the element matrix and the element pressure mass matrix are
    symmetric, and so are the assembled system matrix and pressure mass
    matrix. *)
Theorem stokes_system_is_symmetric (P : Problem) (id : nat) (W : World) :
  (forall c i j, (i < dofs_per_cell P)%nat -> (j < dofs_per_cell P)%nat ->
     cell_matrix (Stokes.element P id c) i j = cell_matrix (Stokes.element P id c) j i
     /\ cell_pressure_mass_matrix (Stokes.element P id c) i j
        = cell_pressure_mass_matrix (Stokes.element P id c) j i)
  /\ (forall a b,
        system_matrix (Stokes.cell_loops P (Stokes.element P id) W) a b
        = system_matrix (Stokes.cell_loops P (Stokes.element P id) W) b a
        /\ pressure_mass (Stokes.cell_loops P (Stokes.element P id) W) a b
           = pressure_mass (Stokes.cell_loops P (Stokes.element P id) W) b a).
Proof.
  assert (Hel : forall c i j,
    (i < dofs_per_cell P)%nat -> (j < dofs_per_cell P)%nat ->
    cell_matrix (Stokes.element P id c) i j = cell_matrix (Stokes.element P id c) j i
    /\ cell_pressure_mass_matrix (Stokes.element P id c) i j
       = cell_pressure_mass_matrix (Stokes.element P id c) j i).
  { intros c i j Hi Hj. simpl. split.
    - rewrite !stokes_matrix_entry by assumption.
      apply Rsum_ext. intros q _. unfold stokes_matrix_integrand.
      rewrite (scalar_product_sym (dim P) (velocity_gradient (fe_values c) i q)). lra.
    - rewrite !stokes_pressure_mass_entry by assumption.
      unfold pressure_mass_entry. apply Rsum_ext. intros q _. lra. }
  split; [exact Hel|].
  unfold Stokes.cell_loops.
  apply (for_each_invariant (fun g =>
    forall a b, system_matrix g a b = system_matrix g b a
                /\ pressure_mass g a b = pressure_mass g b a)).
  - intros a b. split; reflexivity.
  - intros w g _ Hg.
    apply (for_each_invariant (fun g =>
      forall a b, system_matrix g a b = system_matrix g b a
                  /\ pressure_mass g a b = pressure_mass g b a)); [exact Hg|].
    intros c g' _ Hg' a b. unfold Stokes.cell_step.
    destruct (is_locally_owned c); simpl; [|apply Hg'].
    split; apply matrix_add_symmetric;
      try (intros i j Hi Hj; apply (Hel c i j Hi Hj));
      intros a' b'; apply Hg'.
Qed.

(** ** The incremental element about a zero iterate *)

Lemma convective_zero_gradient (d : nat) (a : Tensor1) (G : Tensor2) (b : Tensor1) :
  (forall k l, (k < d)%nat -> (l < d)%nat -> G k l = 0) -> convective d a G b = 0.
Proof.
  intros HG. unfold convective. apply Rsum_zero. intros k Hk.
  rewrite (Rsum_zero d (fun l => a l * G k l)); [lra|].
  intros l Hl. rewrite (HG k l Hk Hl). lra.
Qed.

Lemma convective_zero_velocity (d : nat) (a : Tensor1) (G : Tensor2) (b : Tensor1) :
  (forall l, (l < d)%nat -> a l = 0) -> convective d a G b = 0.
Proof.
  intros Ha. unfold convective. apply Rsum_zero. intros k Hk.
  rewrite (Rsum_zero d (fun l => a l * G k l)); [lra|].
  intros l Hl. rewrite (Ha l Hl). lra.
Qed.

Section ZeroIterate.
Variable P : Problem.
Variable c : Cell.
Variable u_old : Vec.
Hypothesis at_rest : forall k, (k < dofs_per_cell P)%nat -> u_old (dof_indices c k) = 0.

Lemma zero_iterate_values (q k : nat) :
  IncrementalStokes.get_function_values P c u_old q k = 0.
Proof.
  unfold IncrementalStokes.get_function_values. apply Rsum_zero.
  intros i Hi. rewrite (at_rest i Hi). lra.
Qed.

Lemma zero_iterate_gradients (q k l : nat) :
  IncrementalStokes.get_function_gradients P c u_old q k l = 0.
Proof.
  unfold IncrementalStokes.get_function_gradients. apply Rsum_zero.
  intros i Hi. rewrite (at_rest i Hi). lra.
Qed.

Lemma zero_iterate_matrix_integrand (q i j : nat) :
  picard_matrix_integrand P c u_old q i j
  = stokes_matrix_integrand P (fe_values c) q i j.
Proof.
  unfold picard_matrix_integrand, stokes_matrix_integrand. cbv zeta.
  rewrite convective_zero_gradient
    by (intros; apply zero_iterate_gradients).
  rewrite convective_zero_velocity
    by (intros; apply zero_iterate_values).
  lra.
Qed.

Lemma zero_iterate_rhs_integrand (q i : nat) :
  picard_rhs_integrand P c u_old q i = 0.
Proof.
  unfold picard_rhs_integrand. apply convective_zero_velocity.
  intros. apply zero_iterate_values.
Qed.
End ZeroIterate.

(** X4.  On an element where the previous iterate vanishes (the first
    Picard pass from a zero initial guess), the element matrix of the
    incremental variant is the element matrix of the Stokes variant, the
    convective terms being zero, and the element right-hand side holds the
    Neumann terms of the boundary faces tagged [2] and nothing else. *)
Theorem incremental_element_about_zero_is_stokes
    (P : Problem) (c : Cell) (u_old : Vec) (id i j : nat) :
  (forall k, (k < dofs_per_cell P)%nat -> u_old (dof_indices c k) = 0) ->
  (i < dofs_per_cell P)%nat -> (j < dofs_per_cell P)%nat ->
  local_matrix (IncrementalStokes.element P c u_old) i j
  = cell_matrix (Stokes.element P id c) i j
  /\ local_rhs (IncrementalStokes.element P c u_old) i
     = (if at_boundary c then neumann_total P 2 (faces c) i else 0).
Proof.
  intros Hz Hi Hj. split.
  - change (local_matrix (IncrementalStokes.volume P c u_old) i j
            = cell_matrix (Stokes.volume P (fe_values c)) i j).
    rewrite incremental_matrix_entry, stokes_matrix_entry by assumption.
    apply Rsum_ext. intros q _.
    rewrite (zero_iterate_matrix_integrand P c u_old Hz). reflexivity.
  - rewrite incremental_element_rhs by exact Hi.
    rewrite Rsum_zero; [lra|].
    intros q _. rewrite (zero_iterate_rhs_integrand P c u_old Hz). lra.
Qed.

Lemma incremental_element_about_zero_is_stokes_witness :
  local_matrix (IncrementalStokes.element (sample_problem 0) corner_cell vec_zero)
               0%nat 1%nat
  = cell_matrix (Stokes.element (sample_problem 0) 1 corner_cell) 0%nat 1%nat
  /\ local_rhs (IncrementalStokes.element (sample_problem 0) corner_cell vec_zero) 0%nat
     = neumann_total (sample_problem 0) 2 [walls_face; outlet_face] 0.
Proof.
  apply (incremental_element_about_zero_is_stokes (sample_problem 0) corner_cell
           vec_zero 1 0 1).
  - intros k _. reflexivity.
  - simpl. lia.
  - simpl. lia.
Defined.

(** ** The right-hand side of the Stokes system *)

(** X5.  With the forcing term of [Incremental_stokes.hpp], which writes
    zeros, and a zero outlet pressure, the cell loops of the Stokes variant
    leave the right-hand side zero: whatever the right-hand side of the
    Stokes system holds comes from the Dirichlet values applied after the
    loops. *)
Theorem stokes_rhs_is_zero_before_boundary_values
    (P : Problem) (id : nat) (W : World) :
  p_out P = 0 ->
  (forall c q, In c (owned_cells W) ->
     exists p loc, forall d, (d < dim P)%nat ->
       forcing (fe_values c) q d = ForcingTerm.vector_value (dim P) p loc d) ->
  forall a, system_rhs (Stokes.cell_loops P (Stokes.element P id) W) a = 0.
Proof.
  intros H0 Hf.
  assert (Hzero : forall n p loc d, (d < n)%nat ->
            ForcingTerm.vector_value n p loc d = 0).
  { intros n p loc d. unfold ForcingTerm.vector_value.
    induction n as [|n IH]; intros Hd; [lia|]. simpl. unfold vec_set.
    destruct (Nat.eqb_spec d n) as [_|Hne]; [reflexivity|]. apply IH. lia. }
  rewrite stokes_cell_loops_owned.
  apply (for_each_invariant (fun g => forall a, system_rhs g a = 0)).
  - reflexivity.
  - intros c g Hc Hg a. unfold Stokes.cell_step.
    destruct (is_locally_owned c); cbn [negb system_rhs]; [|apply Hg].
    rewrite vector_add_at, Hg, Rsum_zero; [lra|].
    intros i Hi. destruct (Nat.eqb a (dof_indices c i)); [|reflexivity].
    rewrite stokes_rhs_entry by exact Hi.
    rewrite neumann_total_zero by exact H0.
    rewrite Rsum_zero; [destruct (at_boundary c); lra|].
    intros q _. destruct (Hf c q Hc) as (p & loc & Hfq).
    unfold dot. rewrite Rsum_zero; [lra|].
    intros d Hd. rewrite (Hfq d Hd), (Hzero _ p loc d Hd). lra.
Qed.

Lemma stokes_rhs_is_zero_before_boundary_values_witness :
  system_rhs (Stokes.cell_loops (sample_problem 0)
                (Stokes.element (sample_problem 0) 1) sample_world) 0%nat = 0.
Proof.
  apply (stokes_rhs_is_zero_before_boundary_values (sample_problem 0) 1 sample_world).
  - reflexivity.
  - intros c q [<-|[]]. exists (fun _ => 0), vec_zero. intros d Hd.
    assert (d = 0%nat) by (simpl in Hd; lia). subst d. reflexivity.
Defined.

(** ** What a returned Picard run leaves behind *)

(** The iterate a pass returns, and the update it measured. *)
Lemma iteration_result (P : Problem) (L : Library) (W : World)
    (st s : State) (stop : bool) :
  IncrementalStokes.iteration P L W st = Returned (s, stop) ->
  (exists x, solution s = distribute (dirichlet W) x)
  /\ solution_owned s = solution s
  /\ iter s = iter st
  /\ (stop = true <->
      IncrementalStokes.measure P W (new_res s) < IncrementalStokes.update_tol).
Proof.
  intros E.
  destruct (iteration_returned P L W st s stop E)
    as (st1 & E1 & -> & Hstop & _ & Hi & _).
  destruct (linear_solve_returned L W _ st1 E1) as (x & k & ->).
  split; [exists x; reflexivity|]. split; [reflexivity|].
  split; [exact Hi | exact Hstop].
Qed.

Lemma iterations_result (P : Problem) (L : Library) (W : World) (n : nat) :
  forall st s,
    IncrementalStokes.iterations P L W n st = Returned s ->
    ((exists x, solution st = distribute (dirichlet W) x)
     /\ solution_owned st = solution st) \/ (0 < n)%nat ->
    (exists x, solution s = distribute (dirichlet W) x)
    /\ solution_owned s = solution s.
Proof.
  induction n as [|r IH]; intros st s.
  - simpl. intros E [H|H]; [|lia]. injection E as <-. exact H.
  - rewrite iterations_step.
    destruct (IncrementalStokes.iteration P L W st) as [[s' stop]|e] eqn:E;
      cbn [bind fst snd]; [|discriminate].
    destruct (iteration_result P L W st s' stop E) as (Hx & Ho & _ & _).
    destruct stop.
    + intros H _. injection H as <-. split; assumption.
    + intros H _. apply (IH _ _ H). left. split; assumption.
Qed.

Lemma distribute_at (cs : BoundaryValues) (x : Vec) (k : nat) (g : R) :
  lookup cs k = Some g -> distribute cs x k = g.
Proof. intros E. unfold distribute. rewrite E. reflexivity. Qed.

(** X6.  When [solve()] of the incremental variant returns, the solution
    carries every Dirichlet value exactly, the ghosted and the owned
    solution vectors agree, and the previous iterate is the solution. *)
Theorem picard_result_carries_dirichlet_values
    (P : Problem) (L : Library) (W : World) (st s : State) :
  IncrementalStokes.solve P L W st = Returned s ->
  (forall k g, lookup (dirichlet W) k = Some g -> solution s k = g)
  /\ solution_owned s = solution s
  /\ solution_old s = solution s.
Proof.
  intros E. unfold IncrementalStokes.solve in E.
  assert (Hpos : (0 < IncrementalStokes.maxIter)%nat)
    by (unfold IncrementalStokes.maxIter, Incremental_stokes_hpp.maxIter; lia).
  destruct (iterations_result P L W _ _ _ E (or_intror Hpos)) as ((x & Hx) & Ho).
  split; [|split].
  - intros k g Hk. rewrite Hx. apply distribute_at. exact Hk.
  - exact Ho.
  - apply (iterations_previous_is_current P L W _ _ _ (or_intror Hpos) E).
Qed.

(** ** The measured norm and the norm of the update *)

Lemma Rsum_le (n : nat) (f g : nat -> R) :
  (forall k, (k < n)%nat -> f k <= g k) -> Rsum n f <= Rsum n g.
Proof.
  induction n as [|n IH]; intros H; simpl; [lra|].
  pose proof (H n (Nat.lt_succ_diag_r n)).
  assert (Rsum n f <= Rsum n g) by (apply IH; intros; apply H; lia).
  lra.
Qed.

Lemma Rsum_scal (n : nat) (a : R) (f : nat -> R) :
  Rsum n (fun k => a * f k) = a * Rsum n f.
Proof. induction n as [|n IH]; simpl; [|rewrite IH]; lra. Qed.

Lemma Rsum_nonneg (n : nat) (f : nat -> R) :
  (forall k, (k < n)%nat -> 0 <= f k) -> 0 <= Rsum n f.
Proof.
  intros H. rewrite <- (Rsum_zero n (fun _ => 0)) by reflexivity.
  apply Rsum_le. exact H.
Qed.

Lemma holders_le (W : World) (k : nat) : (holders W k <= length (workers W))%nat.
Proof.
  unfold holders. induction (workers W) as [|w ws IH]; simpl; [lia|].
  destruct (locally_relevant_dofs w k); simpl; lia.
Qed.

Lemma holders_when_all_hold (P : Problem) (W : World) (k : nat) :
  holds_every_unknown P W -> (k < n_dofs P)%nat ->
  holders W k = length (workers W).
Proof.
  unfold holds_every_unknown, holders.
  induction (workers W) as [|w ws IH]; intros Hheld Hk; [reflexivity|].
  simpl. rewrite (Hheld w k (or_introl eq_refl) Hk). simpl. f_equal.
  apply IH; [|exact Hk]. intros w' k' Hw'. apply Hheld. right. exact Hw'.
Qed.

(** Every unknown held by some process is counted at least once. *)
Lemma measure_at_least_norm (P : Problem) (W : World) (v : Vec) :
  (forall k, (k < n_dofs P)%nat -> (1 <= holders W k)%nat) ->
  l2_norm (n_dofs P) v <= IncrementalStokes.measure P W v.
Proof.
  intros Hheld. unfold IncrementalStokes.measure, l2_norm.
  apply sqrt_le_1_alt.
  apply Rle_trans with
    (Rsum (n_dofs P) (fun k => INR (holders W k) * (v k * v k)));
    [|apply global_sum_at_least_holders].
  apply Rsum_le. intros k Hk.
  pose proof (le_INR _ _ (Hheld k Hk)) as H1. simpl in H1.
  pose proof (Rle_0_sqr (v k)) as H2. unfold Rsqr in H2. nra.
Qed.

(** When every process holds every unknown, each of them adds the whole
    sum of squares. *)
Lemma measure_when_all_hold (P : Problem) (W : World) (v : Vec) :
  holds_every_unknown P W ->
  IncrementalStokes.measure P W v
  = sqrt (INR (length (workers W))) * l2_norm (n_dofs P) v.
Proof.
  intros Hheld. unfold IncrementalStokes.measure, l2_norm.
  rewrite global_sum_counts_holders by exact Hheld.
  rewrite <- sqrt_mult_alt by apply pos_INR. f_equal.
  rewrite <- Rsum_scal. apply Rsum_ext. intros k Hk.
  rewrite (holders_when_all_hold P W k Hheld Hk). reflexivity.
Qed.

(** X7.  The norm [solve()] measures against the Euclidean norm of the
    update.  When every unknown is held by some process, the measured norm
    is never smaller, whatever the reads of entries a process does not hold
    find.  When every process holds every unknown, so that no such read
    occurs, the measured norm is the Euclidean norm times the square root
    of the number of processes. *)
Theorem measured_norm_bounds (P : Problem) (W : World) (v : Vec) :
  ((forall k, (k < n_dofs P)%nat -> (1 <= holders W k)%nat) ->
   l2_norm (n_dofs P) v <= IncrementalStokes.measure P W v)
  /\ (holds_every_unknown P W ->
      IncrementalStokes.measure P W v
      = sqrt (INR (length (workers W))) * l2_norm (n_dofs P) v).
Proof.
  split.
  - apply measure_at_least_norm.
  - apply measure_when_all_hold.
Qed.

Lemma measured_norm_bounds_witness :
  l2_norm (n_dofs (sample_problem 0)) three_four
  <= IncrementalStokes.measure (sample_problem 0) two_process_world three_four
  /\ IncrementalStokes.measure (sample_problem 0) two_process_world three_four
     = sqrt (INR 2) * l2_norm (n_dofs (sample_problem 0)) three_four.
Proof.
  destruct (measured_norm_bounds (sample_problem 0) two_process_world three_four)
    as [Hlow Hall].
  split.
  - apply Hlow. intros k _. unfold holders. simpl. lia.
  - apply Hall. intros w k [<-|[<-|[]]] _; reflexivity.
Defined.

Lemma iterations_break (P : Problem) (L : Library) (W : World) (n : nat) :
  forall st s,
    IncrementalStokes.iterations P L W n st = Returned s ->
    (iter s < iter st + n)%nat ->
    IncrementalStokes.measure P W (new_res s) < IncrementalStokes.update_tol.
Proof.
  induction n as [|r IH]; intros st s.
  - simpl. intros E. injection E as <-. lia.
  - rewrite iterations_step.
    destruct (IncrementalStokes.iteration P L W st) as [[s' stop]|e] eqn:E;
      cbn [bind fst snd]; [|discriminate].
    destruct (iteration_result P L W st s' stop E) as (_ & _ & Hi & Hstop).
    destruct stop.
    + intros H _. injection H as <-. apply Hstop. reflexivity.
    + intros H Hlt. apply (IH _ _ H). cbn [iter with_iter]. lia.
Qed.

(** X8.  When every unknown is held by some process and [solve()] returns
    before the iteration cap, the Euclidean norm of the last update, the
    vector left in [new_res], is below [update_tol]: counting ghost entries
    more than once can delay the stop, it cannot cause an early one. *)
Theorem early_stop_means_small_update
    (P : Problem) (L : Library) (W : World) (st s : State) :
  (forall k, (k < n_dofs P)%nat -> (1 <= holders W k)%nat) ->
  IncrementalStokes.solve P L W st = Returned s ->
  (iter s < IncrementalStokes.maxIter)%nat ->
  l2_norm (n_dofs P) (new_res s) < IncrementalStokes.update_tol.
Proof.
  intros Hheld E Hlt. unfold IncrementalStokes.solve in E.
  pose proof (iterations_break P L W _ _ _ E Hlt) as Hm.
  pose proof (measure_at_least_norm P W (new_res s) Hheld) as Hle.
  lra.
Qed.

(** The run of the small instance: the first pass returns the zero vector
    it started from, and the loop stops there. *)
Lemma sample_run_stops_at_once :
  exists s,
    IncrementalStokes.solve (sample_problem 0) (sample_library converged 0)
      sample_world (sample_state vec_zero) = Returned s
    /\ iter s = 0%nat.
Proof.
  set (P := sample_problem 0). set (L := sample_library converged 0).
  set (st_a := IncrementalStokes.assemble_and_report P L sample_world
                 (with_iter (sample_state vec_zero) 0)).
  assert (E : exists st1,
            IncrementalStokes.linear_solve L sample_world st_a = Returned st1
            /\ iter st1 = 0%nat
            /\ forall k, solution st1 k = 0 /\ solution_old st1 k = 0).
  { eexists. split.
    - apply (linear_solve_converged L sample_world st_a 0).
      + lia.
      + unfold IncrementalStokes.iterates, IncrementalStokes.solver_control.
        cbn [krylov L sample_library converged snd tolerance]. lra.
      + intros j Hj. lia.
    - split; [reflexivity|]. intros k. split; reflexivity. }
  destruct E as (st1 & E & Hi & Hz).
  assert (Hm : snd (IncrementalStokes.measure_update P sample_world st1) = 0).
  { cbn [snd IncrementalStokes.measure_update new_res with_new_res solution
         solution_old].
    apply measure_of_zero; [apply sample_world_holds_every_unknown|].
    intros k _. destruct (Hz k) as [-> ->]. lra. }
  exists (fst (IncrementalStokes.measure_update P sample_world st1)). split.
  - unfold IncrementalStokes.solve.
    change IncrementalStokes.maxIter with (S 9).
    rewrite iterations_step, iteration_unfold. fold P L st_a. rewrite E.
    cbn [bind]. rewrite Hm.
    destruct (Rlt_dec 0 IncrementalStokes.update_tol) as [_|Hn]; [reflexivity|].
    exfalso. apply Hn.
    unfold IncrementalStokes.update_tol, Incremental_stokes_hpp.update_tol. lra.
  - exact Hi.
Qed.

Lemma picard_result_carries_dirichlet_values_witness :
  exists s,
    IncrementalStokes.solve (sample_problem 0) (sample_library converged 0)
      inlet_world (sample_state vec_zero) = Returned s
    /\ solution s 0%nat = 1
    /\ solution_owned s = solution s
    /\ solution_old s = solution s.
Proof.
  destruct (iterations_returns (sample_problem 0) (sample_library converged 0)
              inlet_world (converged_linear_solve_returns inlet_world)
              IncrementalStokes.maxIter (with_iter (sample_state vec_zero) 0))
    as [s E].
  destruct (picard_result_carries_dirichlet_values (sample_problem 0)
              (sample_library converged 0) inlet_world (sample_state vec_zero) s E)
    as (Hd & Ho & Hp).
  exists s. split; [exact E|]. split; [|split; [exact Ho | exact Hp]].
  apply Hd. reflexivity.
Defined.

Lemma early_stop_means_small_update_witness :
  exists s,
    IncrementalStokes.solve (sample_problem 0) (sample_library converged 0)
      sample_world (sample_state vec_zero) = Returned s
    /\ l2_norm (n_dofs (sample_problem 0)) (new_res s) < IncrementalStokes.update_tol.
Proof.
  destruct sample_run_stops_at_once as (s & E & Hi).
  exists s. split; [exact E|].
  apply (early_stop_means_small_update (sample_problem 0)
           (sample_library converged 0) sample_world (sample_state vec_zero) s).
  - intros k _. unfold holders. simpl. lia.
  - exact E.
  - rewrite Hi. unfold IncrementalStokes.maxIter, Incremental_stokes_hpp.maxIter. lia.
Defined.

(** ** The force integral of [compute_lift_drag()] *)

Lemma Rlist_sum_app {A : Type} (l1 l2 : list A) (f : A -> R) :
  Rlist_sum (l1 ++ l2) f = Rlist_sum l1 f + Rlist_sum l2 f.
Proof. induction l1 as [|a l1 IH]; simpl; [|rewrite IH]; lra. Qed.

Lemma Rlist_sum_ext {A : Type} (l : list A) (f g : A -> R) :
  (forall a, In a l -> f a = g a) -> Rlist_sum l f = Rlist_sum l g.
Proof.
  induction l as [|a l IH]; intros E; simpl; [reflexivity|].
  rewrite IH, (E a) by (intros; try apply E; simpl; auto). reflexivity.
Qed.

Lemma Rlist_sum_flat_map {A B : Type} (f : A -> list B) (l : list A) (g : B -> R) :
  Rlist_sum (flat_map f l) g = Rlist_sum l (fun a => Rlist_sum (f a) g).
Proof.
  induction l as [|a l IH]; simpl; [reflexivity|].
  rewrite Rlist_sum_app, IH. reflexivity.
Qed.

Lemma Rlist_sum_filter {A : Type} (keep : A -> bool) (l : list A) (f : A -> R) :
  (forall a, keep a = false -> f a = 0) ->
  Rlist_sum l f = Rlist_sum (filter keep l) f.
Proof.
  intros Hskip. induction l as [|a l IH]; simpl; [reflexivity|].
  destruct (keep a) eqn:E; simpl; rewrite IH; [reflexivity|].
  rewrite (Hskip a E). lra.
Qed.

Lemma Rlist_sum_permutation {A : Type} (l1 l2 : list A) (f : A -> R) :
  Permutation l1 l2 -> Rlist_sum l1 f = Rlist_sum l2 f.
Proof.
  intros Hperm.
  induction Hperm as [|a l1 l2 _ IH|a b l|l1 l2 l3 _ IH1 _ IH2]; simpl.
  - reflexivity.
  - rewrite IH. reflexivity.
  - lra.
  - rewrite IH1. exact IH2.
Qed.

Lemma MPI_SUM_map {A : Type} (l : list A) (g : A -> R) :
  MPI_SUM (map g l) = Rlist_sum l g.
Proof.
  unfold MPI_SUM. induction l as [|a l IH]; simpl; [reflexivity|].
  rewrite fold_left_Rplus, IH. lra.
Qed.

(** Loops that add to a pair of accumulators. *)
Lemma for_loop_pair_acc (n : nat) (body : nat -> R * R -> R * R) :
  (forall k acc, body k acc
                 = (fst acc + fst (body k (0, 0)), snd acc + snd (body k (0, 0)))) ->
  forall acc,
    for_loop n body acc
    = (fst acc + Rsum n (fun k => fst (body k (0, 0))),
       snd acc + Rsum n (fun k => snd (body k (0, 0)))).
Proof.
  intros Hb acc. induction n as [|n IH]; simpl.
  - destruct acc; simpl; f_equal; lra.
  - rewrite Hb, IH. cbn [fst snd]. f_equal; lra.
Qed.

Lemma for_each_pair_acc {A : Type} (l : list A) (body : A -> R * R -> R * R) :
  (forall a acc, body a acc
                 = (fst acc + fst (body a (0, 0)), snd acc + snd (body a (0, 0)))) ->
  forall acc,
    for_each l body acc
    = (fst acc + Rlist_sum l (fun a => fst (body a (0, 0))),
       snd acc + Rlist_sum l (fun a => snd (body a (0, 0)))).
Proof.
  intros Hb. unfold for_each.
  induction l as [|a l IH]; intros acc; simpl.
  - destruct acc; simpl; f_equal; lra.
  - rewrite IH, Hb. cbn [fst snd]. f_equal; lra.
Qed.

Lemma pair_plus_zero (acc : R * R) :
  acc = (fst acc + fst (0, 0), snd acc + snd (0, 0)).
Proof. destruct acc; simpl; f_equal; lra. Qed.

Section ForceIntegral.
Variable P : Problem.
Variable F : ForceSetup.

Lemma lift_drag_point_acc (c : Cell) (fv : ForceFaceValues) (u : Vec) (q : nat)
    (acc : R * R) :
  LiftDrag.point P F c fv u q acc
  = (fst acc + fst (LiftDrag.point P F c fv u q (0, 0)),
     snd acc + snd (LiftDrag.point P F c fv u q (0, 0))).
Proof. unfold LiftDrag.point. cbn [fst snd]. f_equal; lra. Qed.

Lemma lift_drag_face_acc (c : Cell) (u : Vec) (nf : nat * Face) (acc : R * R) :
  LiftDrag.face P F c u nf acc
  = (fst acc + fst (LiftDrag.face P F c u nf (0, 0)),
     snd acc + snd (LiftDrag.face P F c u nf (0, 0))).
Proof.
  unfold LiftDrag.face.
  destruct (negb (face_at_boundary (snd nf))); [apply pair_plus_zero|].
  destruct (Nat.eqb (boundary_id (snd nf)) 3); [|apply pair_plus_zero].
  rewrite !(for_loop_pair_acc (n_q_points F) _
              (lift_drag_point_acc c (force_reinit F c (fst nf)) u)).
  cbn [fst snd]. f_equal; lra.
Qed.

Lemma lift_drag_cell_acc (u : Vec) (c : Cell) (acc : R * R) :
  LiftDrag.cell P F u c acc
  = (fst acc + fst (LiftDrag.cell P F u c (0, 0)),
     snd acc + snd (LiftDrag.cell P F u c (0, 0))).
Proof.
  unfold LiftDrag.cell.
  destruct (negb (is_locally_owned c)); [apply pair_plus_zero|].
  destruct (negb (at_boundary c)); [apply pair_plus_zero|].
  rewrite !(for_each_pair_acc (numbered_faces c) _ (lift_drag_face_acc c u)).
  cbn [fst snd]. f_equal; lra.
Qed.

Lemma local_forces_sum (cs : list Cell) (u : Vec) :
  LiftDrag.local_forces P F cs u
  = (Rlist_sum cs (fun c => fst (LiftDrag.cell P F u c (0, 0))),
     Rlist_sum cs (fun c => snd (LiftDrag.cell P F u c (0, 0)))).
Proof.
  unfold LiftDrag.local_forces.
  rewrite (for_each_pair_acc cs _ (lift_drag_cell_acc u)).
  cbn [fst snd]. f_equal; lra.
Qed.

(** The two reductions give the sums over the cells of all processes. *)
Lemma total_forces_sum (W : World) (st : State) :
  LiftDrag.total_forces P F W st
  = (Rlist_sum (all_cells W) (fun c => fst (LiftDrag.cell P F (solution st) c (0, 0))),
     Rlist_sum (all_cells W) (fun c => snd (LiftDrag.cell P F (solution st) c (0, 0)))).
Proof.
  unfold LiftDrag.total_forces, all_cells.
  rewrite !MPI_SUM_map, !Rlist_sum_flat_map.
  f_equal; apply Rlist_sum_ext; intros w _; rewrite local_forces_sum; reflexivity.
Qed.

Lemma lift_drag_cell_not_owned (u : Vec) (c : Cell) :
  is_locally_owned c = false -> LiftDrag.cell P F u c (0, 0) = (0, 0).
Proof. intros E. unfold LiftDrag.cell. rewrite E. reflexivity. Qed.

(** The stress applied to the reversed normal, component [k]. *)
Lemma stress_on_normal (G : Tensor2) (p : R) (n : Tensor1) (k : nat) :
  (k < dim P)%nat ->
  apply_tensor (dim P)
    (fun a b => nu P * G a b
                - (if (Nat.eqb a b && Nat.ltb a (dim P))%bool then p else 0))
    (fun l => - n l) k
  = p * n k - nu P * apply_tensor (dim P) G n k.
Proof.
  intros Hk. unfold apply_tensor.
  rewrite (Rsum_ext (dim P) _
             (fun l => (- nu P) * (G k l * n l)
                       + (if Nat.eqb k l then p * n l else 0))).
  - rewrite Rsum_plus, Rsum_scal, (Rsum_pick (dim P) k (fun l => p * n l)).
    replace (k <? dim P)%nat with true by (symmetry; apply Nat.ltb_lt; exact Hk).
    lra.
  - intros l _.
    replace (k <? dim P)%nat with true by (symmetry; apply Nat.ltb_lt; exact Hk).
    rewrite andb_true_r. destruct (Nat.eqb k l); lra.
Qed.

Lemma lift_drag_point_closed (c : Cell) (fv : ForceFaceValues) (u : Vec) (q : nat) :
  (1 < dim P)%nat ->
  LiftDrag.point P F c fv u q (0, 0)
  = (scaling_factor F
     * ((LiftDrag.pressure_values P c fv u q * force_normal_vector fv q 0%nat
         - nu P * apply_tensor (dim P) (LiftDrag.velocity_gradients P c fv u q)
                    (force_normal_vector fv q) 0%nat)
        * force_JxW fv q),
     scaling_factor F
     * ((LiftDrag.pressure_values P c fv u q * force_normal_vector fv q 1%nat
         - nu P * apply_tensor (dim P) (LiftDrag.velocity_gradients P c fv u q)
                    (force_normal_vector fv q) 1%nat)
        * force_JxW fv q)).
Proof.
  intros Hd. unfold LiftDrag.point. cbn [fst snd].
  rewrite !stress_on_normal by lia. f_equal; lra.
Qed.

Lemma lift_drag_face_closed (c : Cell) (u : Vec) (nf : nat * Face) :
  (1 < dim P)%nat ->
  LiftDrag.face P F c u nf (0, 0)
  = (if (face_at_boundary (snd nf) && Nat.eqb (boundary_id (snd nf)) Tag.obstacle)%bool
     then (face_force P F c u 0 nf, face_force P F c u 1 nf) else (0, 0)).
Proof.
  intros Hd. unfold LiftDrag.face, Tag.obstacle.
  destruct (face_at_boundary (snd nf)); cbn [negb andb]; [|reflexivity].
  destruct (Nat.eqb (boundary_id (snd nf)) 3); [|reflexivity].
  rewrite (for_loop_pair_acc (n_q_points F) _
             (lift_drag_point_acc c (force_reinit F c (fst nf)) u)).
  cbn [fst snd]. unfold face_force.
  f_equal; rewrite Rplus_0_l; apply Rsum_ext; intros q _;
    rewrite lift_drag_point_closed by exact Hd; reflexivity.
Qed.

Lemma lift_drag_cell_closed (u : Vec) (c : Cell) :
  (1 < dim P)%nat ->
  LiftDrag.cell P F u c (0, 0)
  = (obstacle_force P F u 0 c, obstacle_force P F u 1 c).
Proof.
  intros Hd. unfold LiftDrag.cell, obstacle_force.
  destruct (is_locally_owned c); cbn [negb andb]; [|reflexivity].
  destruct (at_boundary c); cbn [negb]; [|reflexivity].
  rewrite (for_each_pair_acc (numbered_faces c) _ (lift_drag_face_acc c u)).
  cbn [fst snd].
  f_equal; rewrite Rplus_0_l; apply Rlist_sum_ext; intros nf _;
    rewrite lift_drag_face_closed by exact Hd;
    destruct (face_at_boundary (snd nf) && Nat.eqb (boundary_id (snd nf)) Tag.obstacle)%bool;
    reflexivity.
Qed.
End ForceIntegral.

(** X9.  In two or more space dimensions the drag and the lift that rank 0
    receives are the first and the second component of
    [scaling_factor * (p n - nu grad(u) n)] integrated over the boundary
    faces tagged [3] of the owned boundary cells of all processes, [n]
    being the normal that points out of the fluid. *)
Theorem lift_drag_is_the_obstacle_integral
    (P : Problem) (F : ForceSetup) (W : World) (st : State) :
  (1 < dim P)%nat ->
  LiftDrag.total_forces P F W st
  = (Rlist_sum (all_cells W) (obstacle_force P F (solution st) 0),
     Rlist_sum (all_cells W) (obstacle_force P F (solution st) 1)).
Proof.
  intros Hd. rewrite total_forces_sum.
  f_equal; apply Rlist_sum_ext; intros c _;
    rewrite lift_drag_cell_closed by exact Hd; reflexivity.
Qed.

Lemma lift_drag_is_the_obstacle_integral_witness :
  LiftDrag.total_forces plane_problem plane_force_setup obstacle_world
    (sample_state three_four)
  = (Rlist_sum [obstacle_cell; inner_cell]
       (obstacle_force plane_problem plane_force_setup three_four 0),
     Rlist_sum [obstacle_cell; inner_cell]
       (obstacle_force plane_problem plane_force_setup three_four 1)).
Proof.
  apply (lift_drag_is_the_obstacle_integral plane_problem plane_force_setup
           obstacle_world (sample_state three_four)).
  simpl. lia.
Defined.

(** X10.  The drag and the lift depend on the run only through the
    collection of locally owned cells: cells a process does not own add
    nothing, and neither the split among the processes nor the order of
    the cells changes the two sums. *)
Theorem lift_drag_ignores_partition
    (P : Problem) (F : ForceSetup) (W1 W2 : World) (st : State) :
  Permutation (owned_cells W1) (owned_cells W2) ->
  LiftDrag.total_forces P F W1 st = LiftDrag.total_forces P F W2 st.
Proof.
  intros Hperm. rewrite !total_forces_sum. unfold owned_cells in Hperm.
  f_equal.
  - rewrite (Rlist_sum_filter is_locally_owned (all_cells W1)),
            (Rlist_sum_filter is_locally_owned (all_cells W2)).
    + apply Rlist_sum_permutation. exact Hperm.
    + intros c E. rewrite lift_drag_cell_not_owned by exact E. reflexivity.
    + intros c E. rewrite lift_drag_cell_not_owned by exact E. reflexivity.
  - rewrite (Rlist_sum_filter is_locally_owned (all_cells W1)),
            (Rlist_sum_filter is_locally_owned (all_cells W2)).
    + apply Rlist_sum_permutation. exact Hperm.
    + intros c E. rewrite lift_drag_cell_not_owned by exact E. reflexivity.
    + intros c E. rewrite lift_drag_cell_not_owned by exact E. reflexivity.
Qed.

Lemma lift_drag_ignores_partition_witness :
  LiftDrag.total_forces plane_problem plane_force_setup obstacle_world
    (sample_state three_four)
  = LiftDrag.total_forces plane_problem plane_force_setup obstacle_split_world
      (sample_state three_four).
Proof.
  apply lift_drag_ignores_partition. apply perm_swap.
Defined.

(** ** The point pressure that reaches rank 0 *)

(** X11.  When the processes that can evaluate the point all read the
    pressure [v] there, and at least one can: rank 0 receives [v] itself if
    every process can evaluate the point (as in a run on one process), and
    the larger of [v] and [0] otherwise.  So the gathered value is the
    pressure at the point exactly when that pressure is not negative or no
    process contributes the placeholder [0]. *)
Theorem point_pressure_gather
    (P : Problem) (L : Library) (W : World) (st : State) (p : nat) (v : R) :
  (exists w, In w (workers W)
             /\ point_value L (mpi_rank w) (solution st) p <> None) ->
  (forall w vals, In w (workers W) ->
     point_value L (mpi_rank w) (solution st) p = Some vals -> vals (dim P) = v) ->
  IncrementalStokes.global_pres_point P L W st p
  = if forallb (fun w => match point_value L (mpi_rank w) (solution st) p with
                         | Some _ => true
                         | None => false
                         end) (workers W)
    then v else Rmax v 0.
Proof.
  intros (w0 & Hw0 & Hsome) Hsame.
  unfold IncrementalStokes.global_pres_point.
  set (pp := fun w => IncrementalStokes.pres_point P L st w p).
  assert (Hv : In v (map pp (workers W))).
  { apply in_map_iff. exists w0. split; [|exact Hw0].
    unfold pp, IncrementalStokes.pres_point.
    destruct (point_value L (mpi_rank w0) (solution st) p) as [vals|] eqn:E;
      [apply (Hsame w0 vals Hw0 E)|contradiction]. }
  assert (Hall : forall x, In x (map pp (workers W)) -> x = v \/ x = 0).
  { intros x Hx. apply in_map_iff in Hx. destruct Hx as (w & <- & Hw).
    unfold pp, IncrementalStokes.pres_point.
    destruct (point_value L (mpi_rank w) (solution st) p) as [vals|] eqn:E;
      [left; apply (Hsame w vals Hw E)|right; reflexivity]. }
  destruct (forallb _ (workers W)) eqn:Hfa.
  - assert (Hne : map pp (workers W) <> []) by (intros E; rewrite E in Hv; destruct Hv).
    destruct (MPI_MAX_is_greatest _ Hne) as [Hin _].
    apply in_map_iff in Hin. destruct Hin as (w & Hw & Hin).
    rewrite <- Hw. unfold pp, IncrementalStokes.pres_point.
    rewrite forallb_forall in Hfa. specialize (Hfa w Hin).
    destruct (point_value L (mpi_rank w) (solution st) p) as [vals|] eqn:E;
      [apply (Hsame w vals Hin E)|discriminate].
  - apply pick_maximum_of_value_and_zeros; [exact Hv| |exact Hall].
    assert (Hex : exists w, In w (workers W)
                            /\ point_value L (mpi_rank w) (solution st) p = None).
    { clear -Hfa. induction (workers W) as [|w ws IH]; [discriminate|].
      simpl in Hfa.
      destruct (point_value L (mpi_rank w) (solution st) p) eqn:E.
      - destruct (IH Hfa) as (w' & Hw' & E'). exists w'. split; [right|]; assumption.
      - exists w. split; [left; reflexivity|exact E]. }
    destruct Hex as (w & Hw & E).
    apply in_map_iff. exists w. split; [|exact Hw].
    unfold pp, IncrementalStokes.pres_point. rewrite E. reflexivity.
Qed.

Lemma point_pressure_gather_witness :
  IncrementalStokes.global_pres_point (sample_problem 0) (sample_library converged 0)
    sample_world (sample_state negative_pressure) 0 = -1
  /\ IncrementalStokes.global_pres_point (sample_problem 0) (sample_library converged 0)
       two_process_world (sample_state three_four) 0 = Rmax 4 0.
Proof.
  split.
  - apply (point_pressure_gather (sample_problem 0) (sample_library converged 0)
             sample_world (sample_state negative_pressure) 0 (-1)).
    + eexists. split; [left; reflexivity|]. simpl. discriminate.
    + intros w vals [<-|[]] E. simpl in E. injection E as <-. 
      unfold negative_pressure. simpl. reflexivity.
  - apply (point_pressure_gather (sample_problem 0) (sample_library converged 0)
             two_process_world (sample_state three_four) 0 4).
    + eexists. split; [left; reflexivity|]. simpl. discriminate.
    + intros w vals [<-|[<-|[]]] E; simpl in E; [|discriminate].
      injection E as <-. unfold three_four. simpl. reflexivity.
Defined.

(** ** The functions of [Incremental_stokes.hpp] *)

(** X12.  The inlet profile of [Incremental_stokes.hpp] for a channel of
    height [H > 0]: the first component vanishes at the two walls [y = 0]
    and [y = H], lies between [0] and [uM = 0.3] across the channel, and
    reaches [uM] at mid-height; every other component is zero. *)
Theorem inlet_profile (H : R) (p : nat -> R) :
  0 < H ->
  (p 1%nat = 0 \/ p 1%nat = H -> InletVelocity.value H p 0 = 0)
  /\ (0 <= p 1%nat <= H ->
      0 <= InletVelocity.value H p 0 <= InletVelocity.uM)
  /\ (p 1%nat = H / 2 -> InletVelocity.value H p 0 = InletVelocity.uM)
  /\ InletVelocity.uM = 3 / 10
  /\ (forall component, component <> 0%nat -> InletVelocity.value H p component = 0).
Proof.
  intros HH. unfold InletVelocity.value, InletVelocity.uM. simpl.
  set (y := p 1%nat).
  assert (HH2 : 0 < H * H) by nra.
  assert (Hinv : 0 < / (H * H)) by (apply Rinv_0_lt_compat; exact HH2).
  assert (Hcancel : forall x, x / (H * H) * (H * H) = x) by (intros; field; lra).
  split; [|split; [|split; [|split]]].
  - intros [E|E]; rewrite E; field; lra.
  - intros [Hlo Hhi]. split.
    + apply Rmult_le_pos; [nra|lra].
    + apply (Rmult_le_reg_r (H * H)); [exact HH2|].
      rewrite Hcancel.
      pose proof (Rle_0_sqr (H - 2 * y)) as Hsq. unfold Rsqr in Hsq. lra.
  - intros E. rewrite E. field. lra.
  - reflexivity.
  - intros component Hc.
    destruct (Nat.eqb_spec component 0) as [->|_]; [contradiction|reflexivity].
Qed.

Lemma inlet_profile_witness :
  InletVelocity.value (41 / 100) (fun _ => 41 / 200) 0 = InletVelocity.uM.
Proof.
  apply (inlet_profile (41 / 100) (fun _ => 41 / 200)); lra.
Defined.

Lemma vec_set_loop_at (n : nat) (slot : nat -> nat) (values : Vec) (a : nat) :
  for_loop n (fun i values => vec_set values (slot i) 0) values a
  = if existsb (fun i => Nat.eqb a (slot i)) (seq 0 n) then 0 else values a.
Proof.
  induction n as [|n IH]; [reflexivity|].
  rewrite seq_S, existsb_app. simpl. unfold vec_set at 1. rewrite IH.
  rewrite orb_false_r.
  destruct (Nat.eqb a (slot n)); [rewrite orb_true_r; reflexivity|].
  rewrite orb_false_r. reflexivity.
Qed.

Lemma existsb_seq_index (n a : nat) (slot : nat -> nat) (inside : bool) :
  (inside = true <-> exists i, (i < n)%nat /\ a = slot i) ->
  existsb (fun i => Nat.eqb a (slot i)) (seq 0 n) = inside.
Proof.
  intros H. destruct inside.
  - apply existsb_exists. destruct (proj1 H eq_refl) as (i & Hi & ->).
    exists i. split; [apply in_seq; lia|apply Nat.eqb_refl].
  - destruct (existsb _ _) eqn:E; [|reflexivity].
    apply existsb_exists in E. destruct E as (i & Hi & Ei).
    apply in_seq in Hi. apply Nat.eqb_eq in Ei.
    symmetry. apply H. exists i. split; [lia|exact Ei].
Qed.

(** X13.  For the two functions of [Incremental_stokes.hpp] the vector
    form agrees with the component form: [vector_value] of the inlet profile
    writes [value(p, i)] into the entries [0 .. dim], the pressure slot
    included, [vector_value] of the forcing term writes [value(p, i) = 0]
    into the entries [0 .. dim - 1], and neither touches any other entry. *)
Theorem vector_value_agrees_with_value
    (d : nat) (H : R) (p : nat -> R) (values : Vec) (i : nat) :
  InletVelocity.vector_value d H p values i
  = (if Nat.leb i d then InletVelocity.value H p i else values i)
  /\ ForcingTerm.vector_value d p values i
     = (if Nat.ltb i d then ForcingTerm.value p i else values i).
Proof.
  split.
  - unfold InletVelocity.vector_value, InletVelocity.value. cbv zeta.
    rewrite vec_set_loop_at.
    rewrite (existsb_seq_index d i S (negb (Nat.eqb i 0) && Nat.leb i d)%bool).
    + unfold vec_set. destruct (Nat.eqb_spec i 0) as [->|Hne]; simpl.
      * reflexivity.
      * destruct (Nat.leb i d); reflexivity.
    + split.
      * intros E. apply andb_prop in E. destruct E as [E1 E2].
        apply Nat.leb_le in E2. destruct i as [|j]; [discriminate|].
        exists j. split; [lia|reflexivity].
      * intros (j & Hj & ->). apply andb_true_intro.
        split; [reflexivity | apply Nat.leb_le; lia].
  - unfold ForcingTerm.vector_value, ForcingTerm.value.
    rewrite vec_set_loop_at.
    rewrite (existsb_seq_index d i (fun k => k) (Nat.ltb i d)); [reflexivity|].
    split.
    + intros E. apply Nat.ltb_lt in E. exists i. split; [exact E|reflexivity].
    + intros (j & Hj & ->). apply Nat.ltb_lt. exact Hj.
Qed.

(** ** The coupling tables *)

Lemma table_loops_at (m n : nat) (f : nat -> nat -> Coupling) (t : Table) (a b : nat) :
  for_loop m (fun c t => for_loop n (fun d t => table_set t c d (f c d)) t) t a b
  = if (Nat.ltb a m && Nat.ltb b n)%bool then Some (f a b) else t a b.
Proof.
  assert (Hin : forall c k t',
    for_loop k (fun d t => table_set t c d (f c d)) t' a b
    = if (Nat.eqb a c && Nat.ltb b k)%bool then Some (f a b) else t' a b).
  { intros c k t'. induction k as [|k IH]; simpl.
    - rewrite andb_false_r. reflexivity.
    - unfold table_set at 1. rewrite IH.
      destruct (Nat.eqb_spec a c) as [->|Hac]; simpl; [|reflexivity].
      destruct (Nat.eqb_spec b k) as [->|Hbk].
      + replace (k <? S k)%nat with true by (symmetry; apply Nat.ltb_lt; lia).
        reflexivity.
      + destruct (Nat.ltb_spec b k), (Nat.ltb_spec b (S k)); try lia; reflexivity. }
  induction m as [|m IH].
  - reflexivity.
  - cbn [for_loop]. rewrite Hin, IH.
    destruct (Nat.eqb_spec a m) as [->|Ham].
    + replace (m <? S m)%nat with true by (symmetry; apply Nat.ltb_lt; lia).
      rewrite Nat.ltb_irrefl. simpl. reflexivity.
    + simpl.
      destruct (Nat.ltb_spec a m), (Nat.ltb_spec a (S m)); try lia; reflexivity.
Qed.

Lemma stokes_system_coupling_eq (d : nat) (t : Table) :
  Setup.stokes_system_coupling d t
  = for_loop (d + 1) (fun c t => for_loop (d + 1) (fun e t =>
      table_set t c e (if (Nat.eqb c d && Nat.eqb e d)%bool then none else always)) t) t.
Proof.
  unfold Setup.stokes_system_coupling.
  f_equal. apply functional_extensionality; intros c.
  apply functional_extensionality; intros t'.
  f_equal. apply functional_extensionality; intros e.
  apply functional_extensionality; intros t''.
  destruct (Nat.eqb c d && Nat.eqb e d)%bool; reflexivity.
Qed.

Lemma pressure_mass_coupling_eq (d : nat) (t : Table) :
  Setup.pressure_mass_coupling d t
  = for_loop (d + 1) (fun c t => for_loop (d + 1) (fun e t =>
      table_set t c e (if (Nat.eqb c d && Nat.eqb e d)%bool then always else none)) t) t.
Proof.
  unfold Setup.pressure_mass_coupling.
  f_equal. apply functional_extensionality; intros c.
  apply functional_extensionality; intros t'.
  f_equal. apply functional_extensionality; intros e.
  apply functional_extensionality; intros t''.
  destruct (Nat.eqb c d && Nat.eqb e d)%bool; reflexivity.
Qed.

(** X14.  The coupling tables the two [setup()] hand to
    [make_sparsity_pattern], for components [c, e <= dim]: the pattern of
    the Stokes system matrix couples every pair except pressure with
    pressure; the pattern of the pressure mass matrix, written into the same
    table afterwards, couples pressure with pressure and nothing else,
    whatever the table held before; the pattern of the incremental system
    matrix couples every pair, pressure with pressure included. *)
Theorem coupling_tables (d : nat) (t : Table) (c e : nat) :
  (c <= d)%nat -> (e <= d)%nat ->
  Setup.stokes_system_coupling d t c e
  = Some (if (Nat.eqb c d && Nat.eqb e d)%bool then none else always)
  /\ Setup.pressure_mass_coupling d (Setup.stokes_system_coupling d t) c e
     = Some (if (Nat.eqb c d && Nat.eqb e d)%bool then always else none)
  /\ Setup.pressure_mass_coupling d (Setup.incremental_system_coupling d t) c e
     = Some (if (Nat.eqb c d && Nat.eqb e d)%bool then always else none)
  /\ Setup.incremental_system_coupling d t c e = Some always.
Proof.
  intros Hc He.
  assert (Hlt : (Nat.ltb c (d + 1) && Nat.ltb e (d + 1))%bool = true).
  { apply andb_true_intro. split; apply Nat.ltb_lt; lia. }
  rewrite !pressure_mass_coupling_eq, stokes_system_coupling_eq.
  unfold Setup.incremental_system_coupling.
  rewrite !table_loops_at, !Hlt.
  repeat split; reflexivity.
Qed.

Lemma coupling_tables_witness :
  Setup.stokes_system_coupling 2 empty_table 2%nat 2%nat = Some none
  /\ Setup.pressure_mass_coupling 2 (Setup.stokes_system_coupling 2 empty_table) 2%nat 2%nat
     = Some always
  /\ Setup.pressure_mass_coupling 2 (Setup.incremental_system_coupling 2 empty_table) 2%nat 2%nat
     = Some always
  /\ Setup.incremental_system_coupling 2 empty_table 2%nat 2%nat = Some always.
Proof.
  apply (coupling_tables 2 empty_table 2 2); lia.
Defined.

(** ** The output directories *)

Section OutputDirectories.
Import Filesystem.

Lemma path_eqb_eq (p q : Path) : path_eqb p q = true <-> p = q.
Proof.
  unfold path_eqb. destruct (list_eq_dec String.string_dec p q); split;
    intros; try assumption; try reflexivity; try discriminate; contradiction.
Qed.

Lemma path_eqb_refl (p : Path) : path_eqb p p = true.
Proof. apply path_eqb_eq. reflexivity. Qed.

Lemma parent_path_differs (p : Path) : p <> [] -> parent_path p <> p.
Proof.
  intros Hne E. unfold parent_path in E.
  assert (Hlen : forall l : Path, l <> [] -> S (length (removelast l)) = length l).
  { induction l as [|a [|b l] IH]; intros H; [contradiction|reflexivity|].
    change (S (S (length (removelast (b :: l)))) = S (length (b :: l))).
    rewrite IH by discriminate. reflexivity. }
  specialize (Hlen p Hne). rewrite E in Hlen. lia.
Qed.

(** One step: either the name exists and nothing changes, or it does not
    exist, lies in a directory, and becomes a directory. *)
Lemma ensure_some (p : Path) (f f' : Files) :
  ensure p f = Some f' ->
  (f p <> None /\ f' = f)
  \/ (f p = None /\ is_directory f (parent_path p) = true
      /\ f' = fun q => if path_eqb q p then Some directory else f q).
Proof.
  unfold ensure, exists_, create_directory.
  destruct (f p) as [k|] eqn:E.
  - intros H. injection H as <-. left. split; [discriminate|reflexivity].
  - destruct (is_directory f (parent_path p)); [|discriminate].
    intros H. injection H as <-. right. repeat split; reflexivity.
Qed.

Lemma ensure_none (p : Path) (f : Files) :
  ensure p f = None <-> f p = None /\ is_directory f (parent_path p) = false.
Proof.
  unfold ensure, exists_, create_directory.
  destruct (f p) as [k|].
  - split; [discriminate|intros [H _]; discriminate].
  - destruct (is_directory f (parent_path p)); split;
      try discriminate; try (intros [_ H]; discriminate); auto.
Qed.

Lemma ensure_all_cons (p : Path) (ps : list Path) (f : Files) :
  ensure_all (p :: ps) f = and_then (ensure p f) (ensure_all ps).
Proof.
  unfold ensure_all. simpl. destruct (ensure p f) as [f1|]; [reflexivity|].
  simpl. induction ps as [|q ps IH]; [reflexivity|exact IH].
Qed.

(** What a step leaves as it was. *)
Lemma ensure_keeps (p : Path) (f f' : Files) :
  ensure p f = Some f' ->
  f' p <> None
  /\ (forall q k, f q = Some k -> f' q = Some k)
  /\ (forall q, f q = None -> f' q = None \/ (f' q = Some directory /\ q = p))
  /\ (forall q, f' q = Some regular_file <-> f q = Some regular_file).
Proof.
  intros E. destruct (ensure_some p f f' E) as [[Hp ->]|(Hp & _ & ->)].
  - split; [exact Hp|]. split; [auto|]. split; [auto|]. intros q. reflexivity.
  - split; [rewrite path_eqb_refl; discriminate|]. split; [|split].
    + intros q k Hq. destruct (path_eqb q p) eqn:Eq; [|exact Hq].
      apply path_eqb_eq in Eq. subst q. rewrite Hp in Hq. discriminate.
    + intros q Hq. destruct (path_eqb q p) eqn:Eq.
      * right. split; [reflexivity|apply path_eqb_eq; exact Eq].
      * left. exact Hq.
    + intros q. destruct (path_eqb q p) eqn:Eq; [|reflexivity].
      apply path_eqb_eq in Eq. subst q. rewrite Hp.
      split; discriminate.
Qed.

Lemma ensure_all_keeps (ps : list Path) :
  forall f f',
    ensure_all ps f = Some f' ->
    (forall p, In p ps -> f' p <> None)
    /\ (forall q k, f q = Some k -> f' q = Some k)
    /\ (forall q, f q = None -> f' q = None \/ (f' q = Some directory /\ In q ps)).
Proof.
  induction ps as [|p ps IH]; intros f f'.
  - intros E. injection E as <-. split; [intros p []|]. split; auto.
  - rewrite ensure_all_cons.
    destruct (ensure p f) as [f1|] eqn:E1; [|discriminate].
    cbn [and_then]. intros E.
    destruct (ensure_keeps p f f1 E1) as (Hp & Hkeep & Hnew & _).
    destruct (IH f1 f' E) as (Hin & Hkeep' & Hnew').
    split; [|split].
    + intros q [<-|Hq]; [|apply Hin; exact Hq].
      destruct (f1 p) as [k|] eqn:Ek; [|contradiction].
      rewrite (Hkeep' p k Ek). discriminate.
    + intros q k Hq. apply Hkeep', Hkeep, Hq.
    + intros q Hq. destruct (Hnew q Hq) as [Hq1|[Hq1 ->]].
      * destruct (Hnew' q Hq1) as [H|[H Hi]]; [left; exact H|].
        right. split; [exact H|right; exact Hi].
      * right. split; [apply Hkeep'; exact Hq1|left; reflexivity].
Qed.

Lemma ensure_all_again (ps : list Path) (f : Files) :
  (forall p, In p ps -> f p <> None) -> ensure_all ps f = Some f.
Proof.
  induction ps as [|p ps IH]; intros H; [reflexivity|].
  rewrite ensure_all_cons.
  assert (E : ensure p f = Some f).
  { unfold ensure, exists_. destruct (f p) eqn:Ep; [reflexivity|].
    exfalso. apply (H p); [left; reflexivity|exact Ep]. }
  rewrite E. cbn [and_then]. apply IH. intros q Hq. apply H. right. exact Hq.
Qed.

Lemma is_directory_false (f : Files) (d : Path) :
  d = [] \/ f d <> None ->
  (is_directory f d = false <-> d <> [] /\ f d = Some regular_file).
Proof.
  intros Hd. unfold is_directory. destruct d as [|a d].
  - split; [discriminate|intros [H _]; contradiction].
  - destruct Hd as [Hd|Hd]; [discriminate|].
    destruct (f (a :: d)) as [[|]|].
    + split; [intros _; split; [discriminate|reflexivity]|reflexivity].
    + split; [discriminate|intros [_ H]; discriminate].
    + contradiction.
Qed.

Lemma ensure_well_formed (p : Path) (f f' : Files) :
  p <> [] -> well_formed f -> ensure p f = Some f' -> well_formed f'.
Proof.
  intros Hne Hwf E. destruct (ensure_some p f f' E) as [[_ ->]|(Hp & Hdir & ->)];
    [exact Hwf|].
  assert (Hmono : forall d, is_directory f d = true ->
            is_directory (fun q => if path_eqb q p then Some directory else f q) d
            = true).
  { intros d. unfold is_directory. destruct d as [|a d]; [reflexivity|].
    destruct (path_eqb (a :: d) p); [reflexivity|auto]. }
  intros q Hq. destruct (path_eqb q p) eqn:Eq.
  - apply path_eqb_eq in Eq. subst q. apply Hmono. exact Hdir.
  - apply Hmono. apply Hwf. exact Hq.
Qed.

(** The steps along a chain of directories fail exactly when one of the
    directories above the last one is a regular file. *)
Lemma ensure_all_fails (ps : list Path) :
  forall d f,
    well_formed f -> chain d ps -> d = [] \/ f d <> None ->
    (ensure_all ps f = None
     <-> (ps <> [] /\ d <> [] /\ f d = Some regular_file)
         \/ exists q, In q (removelast ps) /\ f q = Some regular_file).
Proof.
  induction ps as [|p ps IH]; intros d f Hwf Hch Hd.
  - split; [discriminate|].
    intros [(H & _)|(q & [] & _)]. contradiction.
  - destruct Hch as (Hne & Hpar & Hch). rewrite ensure_all_cons.
    destruct (ensure p f) as [f1|] eqn:E1; cbn [and_then].
    + assert (Hd1 : ~ (d <> [] /\ f d = Some regular_file)).
      { intros Hfile. apply (is_directory_false f d Hd) in Hfile.
        destruct (ensure_some p f f1 E1) as [[Hp _]|(_ & Hdir & _)].
        - pose proof (Hwf p Hp) as Hw. rewrite Hpar in Hw. congruence.
        - rewrite Hpar in Hdir. congruence. }
      destruct (ensure_keeps p f f1 E1) as (Hp1 & _ & _ & Hfiles).
      rewrite (IH p f1 (ensure_well_formed p f f1 Hne Hwf E1) Hch (or_intror Hp1)).
      split.
      * intros [(Hps & _ & Hf)|(q & Hq & Hf)].
        -- right. exists p. split; [|apply Hfiles; exact Hf].
           destruct ps; [contradiction|left; reflexivity].
        -- right. exists q. split; [|apply Hfiles; exact Hf].
           destruct ps; [destruct Hq|right; exact Hq].
      * intros [(_ & H1 & H2)|(q & Hq & Hf)]; [exfalso; apply Hd1; split; assumption|].
        destruct ps as [|p' ps]; [destruct Hq|].
        destruct Hq as [<-|Hq].
        -- left. split; [discriminate|]. split; [exact Hne|apply Hfiles; exact Hf].
        -- right. exists q. split; [exact Hq|apply Hfiles; exact Hf].
    + split; [intros _|reflexivity].
      apply ensure_none in E1. destruct E1 as [_ Hdir]. rewrite Hpar in Hdir.
      apply (is_directory_false f d Hd) in Hdir.
      left. split; [discriminate|exact Hdir].
Qed.

Lemma get_output_directory_steps (incremental : bool) (Re : Z) (f : Files) :
  get_output_directory incremental Re f
  = option_map (fun f' => (f', sub_dir_path incremental Re))
      (ensure_all (ancestors incremental ++ [sub_dir_path incremental Re]) f).
Proof.
  destruct incremental;
    unfold get_output_directory, IncrementalStokes_get_output_directory,
           Stokes_get_output_directory, ancestors, sub_dir_path, class_name;
    cbv zeta; cbn [app];
    rewrite !ensure_all_cons;
    (destruct (ensure _ f) as [f1|]; cbn [and_then option_map]; [|reflexivity]);
    rewrite !ensure_all_cons;
    (destruct (ensure _ f1) as [f2|]; cbn [and_then option_map]; [|reflexivity]);
    rewrite !ensure_all_cons;
    (destruct (ensure _ f2) as [f3|]; cbn [and_then option_map]; [|reflexivity]);
    rewrite !ensure_all_cons;
    (destruct (ensure _ f3) as [f4|]; cbn [and_then option_map]; reflexivity).
Qed.

Lemma output_directories_chain (incremental : bool) (Re : Z) :
  chain [] (ancestors incremental ++ [sub_dir_path incremental Re]).
Proof.
  unfold ancestors, sub_dir_path. cbn [app chain].
  repeat split; try discriminate.
Qed.

Lemma ancestors_removelast (incremental : bool) (Re : Z) :
  removelast (ancestors incremental ++ [sub_dir_path incremental Re])
  = ancestors incremental.
Proof. apply removelast_last. Qed.
End OutputDirectories.

(** X15.  [get_output_directory()] of either class, in a working directory
    where every name lies inside a directory.  It raises the library's
    [filesystem_error] exactly when [outputs], [outputs/SteadyNavierStokes]
    or the class directory exists as a regular file.  When it returns, it
    returns the path [outputs/SteadyNavierStokes/<class>/outputs_reynolds_<Re>],
    that path exists, nothing that existed before has been removed or
    changed, whatever is new is a directory on that path, and a second call
    returns the same path and changes nothing. *)
Theorem output_directory_is_made
    (incremental : bool) (Re : Z) (f : Filesystem.Files) :
  Filesystem.well_formed f ->
  (Filesystem.get_output_directory incremental Re f = None
   <-> exists p, In p (Filesystem.ancestors incremental)
                 /\ f p = Some Filesystem.regular_file)
  /\ (forall f' p,
        Filesystem.get_output_directory incremental Re f = Some (f', p) ->
        p = Filesystem.sub_dir_path incremental Re
        /\ Filesystem.exists_ f' p = true
        /\ (forall q k, f q = Some k -> f' q = Some k)
        /\ (forall q, f q = None ->
              f' q = None
              \/ (f' q = Some Filesystem.directory
                  /\ In q (Filesystem.ancestors incremental ++ [p])))
        /\ Filesystem.get_output_directory incremental Re f' = Some (f', p)).
Proof.
  intros Hwf. split.
  - rewrite get_output_directory_steps.
    pose proof (ensure_all_fails _ [] f Hwf
                  (output_directories_chain incremental Re) (or_introl eq_refl))
      as Hfail.
    rewrite ancestors_removelast in Hfail.
    destruct (Filesystem.ensure_all _ f) as [f'|]; cbn [option_map].
    + split; [discriminate|]. intros Hex.
      assert (Hnone : @None Filesystem.Files = None) by reflexivity.
      destruct Hfail as [_ Hfail].
      lapply Hfail; [discriminate|]. right. exact Hex.
    + split; [intros _|reflexivity].
      destruct Hfail as [Hfail _].
      destruct (Hfail eq_refl) as [(_ & H & _)|Hex]; [contradiction|exact Hex].
  - intros f' p. rewrite !get_output_directory_steps.
    destruct (Filesystem.ensure_all _ f) as [f1|] eqn:E; cbn [option_map];
      [|discriminate].
    intros H. injection H as <- <-.
    destruct (ensure_all_keeps _ f f1 E) as (Hin & Hkeep & Hnew).
    split; [reflexivity|]. split; [|split; [exact Hkeep|split; [exact Hnew|]]].
    + unfold Filesystem.exists_.
      destruct (f1 (Filesystem.sub_dir_path incremental Re)) eqn:Ep; [reflexivity|].
      exfalso. apply (Hin (Filesystem.sub_dir_path incremental Re));
        [apply in_or_app; right; left; reflexivity|exact Ep].
    + rewrite (ensure_all_again _ f1 Hin). reflexivity.
Qed.

Lemma empty_files_well_formed : Filesystem.well_formed Filesystem.empty_files.
Proof. intros q Hq. exfalso. apply Hq. reflexivity. Qed.

Lemma blocked_files_well_formed : Filesystem.well_formed Filesystem.blocked_files.
Proof.
  intros q Hq. unfold Filesystem.blocked_files in Hq.
  destruct (Filesystem.path_eqb q _) eqn:E; [|exfalso; apply Hq; reflexivity].
  apply path_eqb_eq in E. subst q. reflexivity.
Qed.

Lemma output_directory_is_made_witness :
  Filesystem.get_output_directory false 20 Filesystem.empty_files <> None
  /\ Filesystem.get_output_directory true 20 Filesystem.blocked_files = None.
Proof.
  split.
  - intros E.
    apply (output_directory_is_made false 20 Filesystem.empty_files
             empty_files_well_formed) in E.
    destruct E as (p & _ & Hp). discriminate.
  - apply (output_directory_is_made true 20 Filesystem.blocked_files
             blocked_files_well_formed).
    eexists. split; [left; reflexivity|reflexivity].
Defined.

(** ** The menu of [main()] *)

Lemma menu_valid_start (fuel : nat) (cin : Menu.Cin) (choice : Z) (printed : nat) :
  Menu.invalid choice = false ->
  Menu.menu (S fuel) cin choice printed = Some (choice, cin, printed).
Proof. intros H. simpl. rewrite H. reflexivity. Qed.

Lemma menu_returns_valid (fuel : nat) :
  forall cin choice printed r,
    Menu.menu fuel cin choice printed = Some r -> Menu.invalid (fst (fst r)) = false.
Proof.
  induction fuel as [|fuel IH]; intros cin choice printed r; [discriminate|].
  simpl. destruct (Menu.invalid choice) eqn:E.
  - destruct (Menu.extract cin choice) as [cin' choice']. apply IH.
  - intros H. injection H as <-. exact E.
Qed.

Lemma invalid_bounds (z : Z) :
  Menu.invalid z = false <-> (1 <= z <= 8)%Z.
Proof.
  unfold Menu.invalid. rewrite orb_false_iff, !Z.ltb_ge.
  split; intros [Hlo Hhi]; split; assumption.
Qed.

Lemma menu_failed_stream (fuel : nat) :
  forall cin choice printed,
    Menu.fail cin = true -> Menu.invalid choice = true ->
    Menu.menu fuel cin choice printed = None.
Proof.
  induction fuel as [|fuel IH]; intros cin choice printed Hf Hi; [reflexivity|].
  simpl. rewrite Hi. unfold Menu.extract. rewrite Hf, Hi.
  apply IH; assumption.
Qed.

Lemma menu_hopeless (fuel : nat) :
  forall l choice printed,
    Menu.hopeless l = true -> Menu.invalid choice = true ->
    Menu.menu fuel {| Menu.fail := false; Menu.pending := l |} choice printed = None.
Proof.
  induction fuel as [|fuel IH]; intros l choice printed Hl Hi; [reflexivity|].
  simpl. rewrite Hi. unfold Menu.extract. cbn [Menu.fail Menu.pending].
  destruct l as [|[z|] rest].
  - rewrite Hi. apply menu_failed_stream; [reflexivity|exact Hi].
  - simpl in Hl.
    destruct (z <? Menu.INT_MIN)%Z eqn:Elo.
    + apply menu_failed_stream; reflexivity.
    + destruct (Menu.INT_MAX <? z)%Z eqn:Ehi.
      * apply menu_failed_stream; reflexivity.
      * simpl in Hl. apply andb_prop in Hl. destruct Hl as [Hz Hrest].
        rewrite Hz. apply IH; assumption.
  - apply menu_failed_stream; reflexivity.
Qed.

(** X16.  The menu loop of [main()] on rank 0.  [choice] has no initial
    value: when what it holds happens to lie in [1 .. 8], the loop body
    never runs, nothing is read and the program goes on with that value.
    Whenever the loop ends, the choice lies in [1 .. 8].  And when the
    input has no valid choice before its end, before a token that is not an
    integer or before an integer out of the range of [int], the loop never
    ends: the failed stream is never cleared. *)
Theorem menu_loop_behaviour (cin : Menu.Cin) (choice : Z) (printed : nat) :
  ((1 <= choice <= 8)%Z ->
     forall fuel, Menu.menu (S fuel) cin choice printed = Some (choice, cin, printed))
  /\ (forall fuel c cin' printed',
        Menu.menu fuel cin choice printed = Some (c, cin', printed') ->
        (1 <= c <= 8)%Z)
  /\ (~ (1 <= choice <= 8)%Z ->
      Menu.fail cin = true \/ Menu.hopeless (Menu.pending cin) = true ->
      forall fuel, Menu.menu fuel cin choice printed = None).
Proof.
  split; [|split].
  - intros Hc fuel. apply menu_valid_start. apply invalid_bounds. exact Hc.
  - intros fuel c cin' printed' E.
    apply invalid_bounds. apply (menu_returns_valid _ _ _ _ _ E).
  - intros Hc Hin fuel.
    assert (Hi : Menu.invalid choice = true).
    { destruct (Menu.invalid choice) eqn:E; [reflexivity|].
      apply invalid_bounds in E. contradiction. }
    destruct Hin as [Hf|Hh]; [apply menu_failed_stream; assumption|].
    destruct cin as [[|] l]; [apply menu_failed_stream; [reflexivity|exact Hi]|].
    apply menu_hopeless; assumption.
Qed.

(** X17.  When the loop starts from a value outside [1 .. 8] and the input
    begins with integers in the range of [int] that are not choices,
    followed by a choice [v] in [1 .. 8], the loop ends with [v], having
    read up to [v] and printed [Invalid choice] once for each of the
    integers before it. *)
Theorem menu_takes_first_valid_number
    (bad : list Z) (v : Z) (rest : list Menu.Token) (choice : Z) (printed : nat) :
  ~ (1 <= choice <= 8)%Z ->
  Forall (fun z => (Menu.INT_MIN <= z <= Menu.INT_MAX)%Z /\ ~ (1 <= z <= 8)%Z) bad ->
  (1 <= v <= 8)%Z ->
  Menu.menu (length bad + 2)
    {| Menu.fail := false;
       Menu.pending := map Menu.number bad ++ Menu.number v :: rest |}
    choice printed
  = Some (v, {| Menu.fail := false; Menu.pending := rest |},
          (printed + length bad)%nat).
Proof.
  intros Hc Hbad Hv. revert choice printed Hc.
  assert (Hrange : forall z, (Menu.INT_MIN <= z <= Menu.INT_MAX)%Z ->
            (z <? Menu.INT_MIN)%Z = false /\ (Menu.INT_MAX <? z)%Z = false).
  { intros z Hz. split; apply Z.ltb_ge; lia. }
  assert (Hinv : forall z, ~ (1 <= z <= 8)%Z -> Menu.invalid z = true).
  { intros z Hz. destruct (Menu.invalid z) eqn:E; [reflexivity|].
    apply invalid_bounds in E. contradiction. }
  induction Hbad as [|z bad [Hz Hzc] _ IH]; intros choice printed Hc.
  - cbn [length Nat.add map app Menu.menu]. rewrite (Hinv choice Hc).
    unfold Menu.extract. cbn [Menu.fail Menu.pending].
    assert (Hvr : (Menu.INT_MIN <= v <= Menu.INT_MAX)%Z)
      by (unfold Menu.INT_MIN, Menu.INT_MAX; lia).
    destruct (Hrange v Hvr) as [-> ->].
    assert (Hvi : Menu.invalid v = false) by (apply invalid_bounds; exact Hv).
    rewrite !Hvi. rewrite Nat.add_0_r. reflexivity.
  - cbn [length Nat.add map app Menu.menu]. rewrite (Hinv choice Hc).
    unfold Menu.extract at 1. cbn [Menu.fail Menu.pending].
    destruct (Hrange z Hz) as [-> ->]. rewrite (Hinv z Hzc).
    change (Menu.menu (length bad + 2)
              {| Menu.fail := false;
                 Menu.pending := map Menu.number bad ++ Menu.number v :: rest |}
              z (S printed)
            = Some (v, {| Menu.fail := false; Menu.pending := rest |},
                    (printed + S (length bad))%nat)).
    rewrite (IH z (S printed) Hzc), Nat.add_succ_r. reflexivity.
Qed.

Lemma menu_loop_behaviour_witness :
  Menu.menu 1 {| Menu.fail := false; Menu.pending := [Menu.number 3] |} 5 0
  = Some (5%Z, {| Menu.fail := false; Menu.pending := [Menu.number 3] |}, 0%nat)
  /\ Menu.menu 7 {| Menu.fail := false; Menu.pending := [Menu.number 9; Menu.garbage] |}
       0 0 = None.
Proof.
  split.
  - apply (menu_loop_behaviour
             {| Menu.fail := false; Menu.pending := [Menu.number 3] |} 5 0).
    lia.
  - apply (menu_loop_behaviour
             {| Menu.fail := false; Menu.pending := [Menu.number 9; Menu.garbage] |}
             0 0); [lia|right; reflexivity].
Defined.

Lemma menu_takes_first_valid_number_witness :
  Menu.menu 4
    {| Menu.fail := false;
       Menu.pending := [Menu.number 0; Menu.number 9; Menu.number 3; Menu.number 1] |}
    (-7) 0
  = Some (3%Z, {| Menu.fail := false; Menu.pending := [Menu.number 1] |}, 2%nat).
Proof.
  apply (menu_takes_first_valid_number [0; 9]%Z 3 [Menu.number 1] (-7) 0).
  - lia.
  - repeat constructor; unfold Menu.INT_MIN, Menu.INT_MAX; lia.
  - lia.
Defined.

(** ** The assembled Stokes system, entry by entry *)

Lemma Rlist_sum_zero {A : Type} (l : list A) (f : A -> R) :
  (forall a, In a l -> f a = 0) -> Rlist_sum l f = 0.
Proof.
  induction l as [|a l IH]; intros H; simpl; [reflexivity|].
  change (f a + Rlist_sum l f = 0).
  rewrite (H a), IH; [lra| |left; reflexivity].
  intros a' Ha'. apply H. right. exact Ha'.
Qed.

Lemma stokes_cell_loops_entries (P : Problem) (elem : Cell -> CellSystem)
    (l : list Cell) (a b : nat) :
  (forall c, In c l -> is_locally_owned c = true) ->
  forall g,
    system_matrix (for_each l (Stokes.cell_step P elem) g) a b
    = system_matrix g a b
      + Rlist_sum l (fun c =>
          Rsum (dofs_per_cell P) (fun i => Rsum (dofs_per_cell P) (fun j =>
            if (Nat.eqb a (dof_indices c i) && Nat.eqb b (dof_indices c j))%bool
            then cell_matrix (elem c) i j else 0)))
    /\ pressure_mass (for_each l (Stokes.cell_step P elem) g) a b
       = pressure_mass g a b
         + Rlist_sum l (fun c =>
             Rsum (dofs_per_cell P) (fun i => Rsum (dofs_per_cell P) (fun j =>
               if (Nat.eqb a (dof_indices c i) && Nat.eqb b (dof_indices c j))%bool
               then cell_pressure_mass_matrix (elem c) i j else 0)))
    /\ system_rhs (for_each l (Stokes.cell_step P elem) g) a
       = system_rhs g a
         + Rlist_sum l (fun c =>
             Rsum (dofs_per_cell P) (fun i =>
               if Nat.eqb a (dof_indices c i) then cell_rhs (elem c) i else 0)).
Proof.
  unfold for_each. induction l as [|c l IH]; intros Hown g.
  - simpl. repeat split; lra.
  - assert (Hc : is_locally_owned c = true) by (apply Hown; left; reflexivity).
    assert (Hl : forall c', In c' l -> is_locally_owned c' = true)
      by (intros c' Hc'; apply Hown; right; exact Hc').
    cbn [fold_left Rlist_sum fold_right].
    destruct (IH Hl (Stokes.cell_step P elem c g)) as (Hm & Hpm & Hr).
    rewrite Hm, Hpm, Hr. unfold Stokes.cell_step. rewrite Hc.
    cbn [negb system_matrix pressure_mass system_rhs].
    rewrite !matrix_add_at, vector_add_at.
    unfold Rlist_sum. repeat split; lra.
Qed.

(** X18.  The Stokes cell loops assemble by summation: every entry of the
    system matrix, of the pressure mass matrix and of the right-hand side
    is the sum, over the locally owned cells of all processes, of the
    element entries whose local indices are numbered to that position.  In
    particular an entry of either matrix is zero when no owned cell has
    both its row and its column among its unknowns. *)
Theorem stokes_assembly_sums_element_entries
    (P : Problem) (elem : Cell -> CellSystem) (W : World) (a b : nat) :
  system_matrix (Stokes.cell_loops P elem W) a b
  = Rlist_sum (owned_cells W) (fun c =>
      Rsum (dofs_per_cell P) (fun i => Rsum (dofs_per_cell P) (fun j =>
        if (Nat.eqb a (dof_indices c i) && Nat.eqb b (dof_indices c j))%bool
        then cell_matrix (elem c) i j else 0)))
  /\ pressure_mass (Stokes.cell_loops P elem W) a b
     = Rlist_sum (owned_cells W) (fun c =>
         Rsum (dofs_per_cell P) (fun i => Rsum (dofs_per_cell P) (fun j =>
           if (Nat.eqb a (dof_indices c i) && Nat.eqb b (dof_indices c j))%bool
           then cell_pressure_mass_matrix (elem c) i j else 0)))
  /\ system_rhs (Stokes.cell_loops P elem W) a
     = Rlist_sum (owned_cells W) (fun c =>
         Rsum (dofs_per_cell P) (fun i =>
           if Nat.eqb a (dof_indices c i) then cell_rhs (elem c) i else 0))
  /\ ((forall c i j, In c (owned_cells W) ->
         (i < dofs_per_cell P)%nat -> (j < dofs_per_cell P)%nat ->
         ~ (dof_indices c i = a /\ dof_indices c j = b)) ->
      system_matrix (Stokes.cell_loops P elem W) a b = 0
      /\ pressure_mass (Stokes.cell_loops P elem W) a b = 0).
Proof.
  assert (Hown : forall c, In c (owned_cells W) -> is_locally_owned c = true).
  { intros c Hc. unfold owned_cells in Hc. apply filter_In in Hc. apply Hc. }
  rewrite stokes_cell_loops_owned.
  destruct (stokes_cell_loops_entries P elem (owned_cells W) a b Hown zero_system)
    as (Hm & Hpm & Hr).
  cbn [zero_system system_matrix pressure_mass system_rhs] in Hm, Hpm, Hr.
  unfold mat_zero in Hm, Hpm. unfold vec_zero in Hr.
  rewrite Rplus_0_l in Hm, Hpm, Hr.
  split; [exact Hm|]. split; [exact Hpm|]. split; [exact Hr|].
  intros Hapart.
  assert (Hskip : forall (cm : Cell -> Mat) c, In c (owned_cells W) ->
    Rsum (dofs_per_cell P) (fun i => Rsum (dofs_per_cell P) (fun j =>
      if (Nat.eqb a (dof_indices c i) && Nat.eqb b (dof_indices c j))%bool
      then cm c i j else 0)) = 0).
  { intros cm c Hc. apply Rsum_zero. intros i Hi. apply Rsum_zero. intros j Hj.
    destruct (Nat.eqb_spec a (dof_indices c i)) as [Ea|]; [|reflexivity].
    destruct (Nat.eqb_spec b (dof_indices c j)) as [Eb|]; [|reflexivity].
    exfalso. apply (Hapart c i j Hc Hi Hj). split; congruence. }
  assert (Hzero : forall cm : Cell -> Mat,
    Rlist_sum (owned_cells W) (fun c =>
      Rsum (dofs_per_cell P) (fun i => Rsum (dofs_per_cell P) (fun j =>
        if (Nat.eqb a (dof_indices c i) && Nat.eqb b (dof_indices c j))%bool
        then cm c i j else 0))) = 0).
  { intros cm. apply Rlist_sum_zero. intros c Hc. apply Hskip. exact Hc. }
  rewrite Hm, Hpm.
  split.
  - apply (Hzero (fun c => cell_matrix (elem c))).
  - apply (Hzero (fun c => cell_pressure_mass_matrix (elem c))).
Qed.
